(** * Hints of arana: pkg/proto/hint/hint.go

    A shallow embedding of the hint parser and serializer
    ([Parse], [Hint.String], [Contains]) together with the parts of Go's
    standard library they call ([strings], [bytes], [unicode],
    [unicode/utf8], [bufio.Scanner], as of Go 1.22), followed by the
    properties proved about them.

    Conventions.
    - A Go [string] or [[]byte] is a [list ascii]: a sequence of 8-bit bytes,
      not necessarily valid UTF-8.
    - A Go [int] or [rune] is a [Z]; lengths stay far below 2^63, so no
      wrap-around is written out for them.  [Type] is a [uint8]: a [Z]
      taken modulo 256 at the one conversion [Type(i)].
    - A computation that may panic lives in the monad [go].
    - A loop of the library whose number of rounds is bounded by the length
      of its input is a [Fixpoint] on that bound; the lemmas on the loop
      show that the bound is never what ends it.

    Outline: the model (packages [utf8], [unicode], [strings], [bufio],
    [misc], [errors], [hint]); the notions the properties are stated with;
    lemmas on slices, on the decoder, on trimming, on case folding and on
    the scanner; [Parse] in one equation ([Parse_unfold]); the properties
    C1 to C10. *)

From Stdlib Require Import ZArith Ascii String Bool Lia Arith List.
Import ListNotations.
Local Open Scope Z_scope.
Local Open Scope bool_scope.

(** ** Go values and run-time panics *)

Definition gostring : Type := list ascii.

(** A Go string literal. *)
Definition lit (s : String.string) : gostring := list_ascii_of_string s.

(** [len(s)] *)
Definition len {A : Type} (s : list A) : Z := Z.of_nat (length s).

(** The numeric value of a byte, 0..255. *)
Definition byteval (c : ascii) : Z := Z.of_N (N_of_ascii c).

(** [s[i]] for an index known to be in range (the library code below never
    indexes out of range); 0 stands for the absent byte. *)
Definition at_ (s : gostring) (i : Z) : Z :=
  if i <? 0 then 0 else byteval (nth (Z.to_nat i) s zero).

(** [s[lo:hi]] for bounds known to be in range. *)
Definition sub (s : gostring) (lo hi : Z) : gostring :=
  firstn (Z.to_nat (hi - lo)) (skipn (Z.to_nat lo) s).

(** The outcome of running Go code: a value, a run-time panic, or the
    exhaustion of the fuel that bounds the model's loops. *)
Inductive go (A : Type) : Type :=
| Ret (a : A)
| Panic (why : String.string)
| Starve.
Arguments Ret {A} a.
Arguments Panic {A} why.
Arguments Starve {A}.

Definition bind {A B : Type} (m : go A) (k : A -> go B) : go B :=
  match m with
  | Ret a => k a
  | Panic why => Panic why
  | Starve => Starve
  end.

Notation "x <- m ;; k" := (bind m (fun x => k))
  (at level 61, m at next level, right associativity).

(** [s[lo:hi]] with Go's bounds check. *)
Definition slice (s : gostring) (lo hi : Z) : go gostring :=
  if (0 <=? lo) && (lo <=? hi) && (hi <=? len s)
  then Ret (sub s lo hi)
  else Panic "slice bounds out of range".

(** ** package strings / bytes: searching *)

Fixpoint HasPrefix (s prefix : gostring) : bool :=
  match prefix, s with
  | [], _ => true
  | _ :: _, [] => false
  | p :: prefix', c :: s' => Ascii.eqb c p && HasPrefix s' prefix'
  end.

Fixpoint index_opt (s substr : gostring) : option nat :=
  if HasPrefix s substr then Some O
  else match s with
       | [] => None
       | _ :: s' => option_map S (index_opt s' substr)
       end.

Fixpoint last_index_opt (s substr : gostring) : option nat :=
  match s with
  | [] => if HasPrefix [] substr then Some O else None
  | _ :: s' =>
      match last_index_opt s' substr with
      | Some n => Some (S n)
      | None => if HasPrefix s substr then Some O else None
      end
  end.

Definition or_minus1 (o : option nat) : Z :=
  match o with
  | Some n => Z.of_nat n
  | None => -1
  end.

(** [strings.Index(s, substr)]: the first byte offset of [substr] in [s],
    or -1. *)
Definition Index (s substr : gostring) : Z := or_minus1 (index_opt s substr).

(** [strings.LastIndex(s, substr)]: the last byte offset, or -1. *)
Definition LastIndex (s substr : gostring) : Z :=
  or_minus1 (last_index_opt s substr).

(** [bytes.IndexByte(b, c)] *)
Definition IndexByte (b : gostring) (c : ascii) : Z := Index b [c].

(** ** package unicode/utf8 *)

Module utf8.

Definition RuneError : Z := 65533.
Definition RuneSelf : Z := 128.
Definition UTFMax : Z := 4.

Definition locb : Z := 128.
Definition hicb : Z := 191.

(** The entries of the table [first]: [as_] for ASCII, [xx] for an invalid
    leading byte, otherwise the size in the low three bits and the index of
    the accept range of the second byte in the high four. *)
Definition xx : Z := 241.
Definition as_ : Z := 240.
Definition s1 : Z := 2.
Definition s2 : Z := 19.
Definition s3 : Z := 3.
Definition s4 : Z := 35.
Definition s5 : Z := 52.
Definition s6 : Z := 4.
Definition s7 : Z := 68.

Definition first (b : Z) : Z :=
  if b <? 128 then as_          (* 0x00-0x7F *)
  else if b <? 194 then xx      (* 0x80-0xC1 *)
  else if b <? 224 then s1      (* 0xC2-0xDF *)
  else if b =? 224 then s2      (* 0xE0 *)
  else if b <? 237 then s3      (* 0xE1-0xEC *)
  else if b =? 237 then s4      (* 0xED *)
  else if b <? 240 then s3      (* 0xEE-0xEF *)
  else if b =? 240 then s5      (* 0xF0 *)
  else if b <? 244 then s6      (* 0xF1-0xF3 *)
  else if b =? 244 then s7      (* 0xF4 *)
  else xx.                      (* 0xF5-0xFF *)

Record acceptRange : Type := { lo : Z; hi : Z }.

Definition acceptRanges (i : Z) : acceptRange :=
  if i =? 0 then {| lo := locb; hi := hicb |}
  else if i =? 1 then {| lo := 160; hi := hicb |}
  else if i =? 2 then {| lo := locb; hi := 159 |}
  else if i =? 3 then {| lo := 144; hi := hicb |}
  else if i =? 4 then {| lo := locb; hi := 143 |}
  else {| lo := 0; hi := 0 |}.

Definition maskx : Z := 63.
Definition mask2 : Z := 31.
Definition mask3 : Z := 15.
Definition mask4 : Z := 7.

(** [utf8.DecodeRuneInString(s)]: the first rune of [s] and its width in
    bytes; [(RuneError, 1)] for an invalid encoding, [(RuneError, 0)] for
    the empty string. *)
Definition DecodeRuneInString (s : gostring) : Z * Z :=
  let n := len s in
  if n <? 1 then (RuneError, 0) else
  let s0 := at_ s 0 in
  let x := first s0 in
  if as_ <=? x then
    (* mask := rune(x) << 31 >> 31: all ones for xx, zero for as *)
    (if x =? xx then RuneError else s0, 1)
  else
    let sz := Z.land x 7 in
    let accept := acceptRanges (Z.shiftr x 4) in
    if n <? sz then (RuneError, 1) else
    let b1 := at_ s 1 in
    if (b1 <? lo accept) || (hi accept <? b1) then (RuneError, 1) else
    if sz <=? 2 then
      (Z.lor (Z.shiftl (Z.land s0 mask2) 6) (Z.land b1 maskx), 2)
    else
    let b2 := at_ s 2 in
    if (b2 <? locb) || (hicb <? b2) then (RuneError, 1) else
    if sz <=? 3 then
      (Z.lor (Z.lor (Z.shiftl (Z.land s0 mask3) 12)
                    (Z.shiftl (Z.land b1 maskx) 6))
             (Z.land b2 maskx), 3)
    else
    let b3 := at_ s 3 in
    if (b3 <? locb) || (hicb <? b3) then (RuneError, 1) else
    (Z.lor (Z.lor (Z.lor (Z.shiftl (Z.land s0 mask4) 18)
                         (Z.shiftl (Z.land b1 maskx) 12))
                  (Z.shiftl (Z.land b2 maskx) 6))
           (Z.land b3 maskx), 4).

(** [utf8.RuneStart(b)]: [b] is not a continuation byte. *)
Definition RuneStart (b : Z) : bool := negb (Z.land b 192 =? 128).

(** The loop [for start--; start >= lim; start-- { if RuneStart(s[start])
    { break } }] of [DecodeLastRuneInString], entered with [start] already
    decremented; it returns the final [start].  [lim >= end - UTFMax], so
    the loop body runs at most three times. *)
Fixpoint backToStart (k : nat) (s : gostring) (start lim : Z) : Z :=
  match k with
  | O => start
  | S k' =>
      if start >=? lim then
        if RuneStart (at_ s start) then start
        else backToStart k' s (start - 1) lim
      else start
  end.

(** [utf8.DecodeLastRuneInString(s)]: the last rune of [s] and its width. *)
Definition DecodeLastRuneInString (s : gostring) : Z * Z :=
  let end_ := len s in
  if end_ =? 0 then (RuneError, 0) else
  let start := end_ - 1 in
  let r := at_ s start in
  if r <? RuneSelf then (r, 1) else
  let lim := Z.max (end_ - UTFMax) 0 in
  let start := backToStart 4 s (start - 1) lim in
  let start := if start <? 0 then 0 else start in
  let '(r, size) := DecodeRuneInString (sub s start end_) in
  if negb (start + size =? end_) then (RuneError, 1) else (r, size).

End utf8.

(** ** package unicode *)

Module unicode.

Definition MaxRune : Z := 1114111.
Definition MaxASCII : Z := 127.
Definition MaxLatin1 : Z := 255.

(** [unicode.IsSpace(r)]: the Latin-1 cases of the switch, then the
    [White_Space] range table without its Latin-1 entries. *)
Definition IsSpace (r : Z) : bool :=
  if (0 <=? r) && (r <=? MaxLatin1) then
    (r =? 9) || (r =? 10) || (r =? 11) || (r =? 12) || (r =? 13)
    || (r =? 32) || (r =? 133) || (r =? 160)
  else
    (r =? 5760)                           (* U+1680 *)
    || ((8192 <=? r) && (r <=? 8202))     (* U+2000-U+200A *)
    || ((8232 <=? r) && (r <=? 8233))     (* U+2028-U+2029 *)
    || (r =? 8239)                        (* U+202F *)
    || (r =? 8287)                        (* U+205F *)
    || (r =? 12288).                      (* U+3000 *)

(** [unicode.SimpleFold(r)] on the three orbits that meet ASCII: a letter
    and its other case, [K k U+212A] and [S s U+017F].  These are the table
    [asciiFold] and the two [caseOrbit] entries that close its orbits.  Go's
    table has further orbits among the non-ASCII code points; [EqualFold]
    starts the walk of an orbit at the smaller rune of a pair, and in every
    call made by [Parse] that rune is a byte of a canonical name, so the
    walk never leaves this part of the table.  Outside it the model returns
    [r]. *)
Definition SimpleFold (r : Z) : Z :=
  if (r <? 0) || (MaxRune <? r) then r
  else if r <=? MaxASCII then
    (* asciiFold[r] *)
    if (65 <=? r) && (r <=? 90) then r + 32
    else if r =? 107 then 8490              (* k -> U+212A *)
    else if r =? 115 then 383               (* s -> U+017F *)
    else if (97 <=? r) && (r <=? 122) then r - 32
    else r
  else if r =? 383 then 83                  (* U+017F -> S *)
  else if r =? 8490 then 75                 (* U+212A -> K *)
  else r.

End unicode.

(** ** package strings: runes, trimming, case folding *)

(** [for i, r := range s]: the byte offset and the rune of each decoding
    step.  A step consumes at least one byte, so [length s] steps reach the
    end of [s]. *)
Fixpoint rangeFrom (fuel : nat) (i : Z) (s : gostring) : list (Z * Z) :=
  match fuel with
  | O => []
  | S fuel' =>
      match s with
      | [] => []
      | _ :: _ =>
          let '(r, size) := utf8.DecodeRuneInString s in
          (i, r) :: rangeFrom fuel' (i + size) (skipn (Z.to_nat size) s)
      end
  end.

Definition range (s : gostring) : list (Z * Z) := rangeFrom (length s) 0 s.

Fixpoint firstWith (f : Z -> bool) (truth : bool) (l : list (Z * Z)) : Z :=
  match l with
  | [] => -1
  | (i, r) :: l' => if Bool.eqb (f r) truth then i else firstWith f truth l'
  end.

(** [strings.indexFunc(s, f, truth)] *)
Definition indexFunc (s : gostring) (f : Z -> bool) (truth : bool) : Z :=
  firstWith f truth (range s).

(** The loop of [strings.lastIndexFunc]:
    [for i := len(s); i > 0; { r, size := DecodeLastRuneInString(s[0:i]);
       i -= size; if f(r) == truth { return i } }; return -1].
    Each round lowers [i] by at least one, so [length s] rounds end it. *)
Fixpoint lastIndexLoop (fuel : nat) (s : gostring) (f : Z -> bool)
    (truth : bool) (i : Z) : Z :=
  match fuel with
  | O => -1
  | S fuel' =>
      if 0 <? i then
        let '(r, size) := utf8.DecodeLastRuneInString (sub s 0 i) in
        let i := i - size in
        if Bool.eqb (f r) truth then i
        else lastIndexLoop fuel' s f truth i
      else -1
  end.

Definition lastIndexFunc (s : gostring) (f : Z -> bool) (truth : bool) : Z :=
  lastIndexLoop (length s) s f truth (len s).

(** [strings.TrimLeftFunc(s, f)] *)
Definition TrimLeftFunc (s : gostring) (f : Z -> bool) : gostring :=
  let i := indexFunc s f false in
  if i =? -1 then [] else sub s i (len s).

(** [strings.TrimRightFunc(s, f)] *)
Definition TrimRightFunc (s : gostring) (f : Z -> bool) : gostring :=
  let i := lastIndexFunc s f false in
  let i :=
    if (0 <=? i) && (utf8.RuneSelf <=? at_ s i) then
      let '(_, wid) := utf8.DecodeRuneInString (sub s i (len s)) in
      i + wid
    else i + 1 in
  sub s 0 i.

(** [strings.TrimFunc(s, f)] *)
Definition TrimFunc (s : gostring) (f : Z -> bool) : gostring :=
  TrimRightFunc (TrimLeftFunc s f) f.

(** The table [asciiSpace]. *)
Definition asciiSpace (c : Z) : bool :=
  (c =? 9) || (c =? 10) || (c =? 11) || (c =? 12) || (c =? 13) || (c =? 32).

(** The second loop of [strings.TrimSpace] on [u = s[start:]], with
    [k = stop - start]:
    [for ; stop > start; stop-- { c := s[stop-1];
       if c >= RuneSelf { return TrimRightFunc(s[start:stop], IsSpace) };
       if asciiSpace[c] == 0 { break } };
     return s[start:stop]]. *)
Fixpoint trimStop (k : nat) (u : gostring) : gostring :=
  match k with
  | O => []
  | S k' =>
      let c := at_ u (Z.of_nat k') in
      if utf8.RuneSelf <=? c then TrimRightFunc (firstn k u) unicode.IsSpace
      else if asciiSpace c then trimStop k' u
      else firstn k u
  end.

(** [strings.TrimSpace(s)].  The recursion is the first loop, over
    [s[start:]]:
    [for ; start < len(s); start++ { c := s[start]; if c >= RuneSelf { return
       TrimFunc(s[start:], IsSpace) }; if asciiSpace[c] == 0 { break } }]. *)
Fixpoint TrimSpace (s : gostring) : gostring :=
  match s with
  | [] => trimStop O s
  | c :: s' =>
      if utf8.RuneSelf <=? byteval c then TrimFunc s unicode.IsSpace
      else if asciiSpace (byteval c) then TrimSpace s'
      else trimStop (length s) s
  end.

(** The walk of a fold orbit in [strings.EqualFold]:
    [r := unicode.SimpleFold(sr); for r != sr && r < tr { r =
    unicode.SimpleFold(r) }], entered with [r = SimpleFold(sr)].  An orbit
    has at most four members, so four rounds bring [r] back to [sr]. *)
Fixpoint foldUpTo (k : nat) (sr tr r : Z) : Z :=
  match k with
  | O => r
  | S k' =>
      if negb (r =? sr) && (r <? tr)
      then foldUpTo k' sr tr (unicode.SimpleFold r)
      else r
  end.

(** The second half of [strings.EqualFold], after the label [hasUnicode]:
    [rs] are the runes of what is left of [s], [t] is what is left of the
    second string. *)
Fixpoint equalFoldRunes (rs : list Z) (t : gostring) : bool :=
  match rs with
  | [] => len t =? 0
  | sr :: rs' =>
      if len t =? 0 then false else
      let '(tr, t') :=
        if at_ t 0 <? utf8.RuneSelf then (at_ t 0, skipn 1 t)
        else let '(r, size) := utf8.DecodeRuneInString t in
             (r, skipn (Z.to_nat size) t) in
      if tr =? sr then equalFoldRunes rs' t' else
      let '(sr, tr) := if tr <? sr then (tr, sr) else (sr, tr) in
      if tr <? utf8.RuneSelf then
        if (65 <=? sr) && (sr <=? 90) && (tr =? sr + 97 - 65)
        then equalFoldRunes rs' t' else false
      else
        let r := foldUpTo 4 sr tr (unicode.SimpleFold sr) in
        if r =? tr then equalFoldRunes rs' t' else false
  end.

(** [strings.EqualFold(s, t)]: equality under simple Unicode case folding.
    The recursion is the ASCII fast path over the common index [i]. *)
Fixpoint EqualFold (s t : gostring) : bool :=
  match s, t with
  | c :: s', d :: t' =>
      let sr := byteval c in
      let tr := byteval d in
      if utf8.RuneSelf <=? Z.lor sr tr
      then equalFoldRunes (map snd (range s)) t       (* goto hasUnicode *)
      else if tr =? sr then EqualFold s' t'
      else
        let '(sr, tr) := if tr <? sr then (tr, sr) else (sr, tr) in
        if (65 <=? sr) && (sr <=? 90) && (tr =? sr + 97 - 65)
        then EqualFold s' t' else false
  | _, _ => len s =? len t
  end.

(** ** package bufio: Scanner over a strings.Reader *)

Module bufio.

(** The sentinel errors of [io] and [bufio] the scanner can hold. *)
Inductive sentinel : Type :=
| io_EOF
| io_ErrNoProgress
| ErrTooLong
| ErrNegativeAdvance
| ErrAdvanceTooFar
| ErrBadReadCount
| ErrFinalToken.

Definition sentinel_eqb (a b : sentinel) : bool :=
  match a, b with
  | io_EOF, io_EOF | io_ErrNoProgress, io_ErrNoProgress
  | ErrTooLong, ErrTooLong | ErrNegativeAdvance, ErrNegativeAdvance
  | ErrAdvanceTooFar, ErrAdvanceTooFar | ErrBadReadCount, ErrBadReadCount
  | ErrFinalToken, ErrFinalToken => true
  | _, _ => false
  end.

(** [err.Error()] *)
Definition Error (e : sentinel) : gostring :=
  match e with
  | io_EOF => lit "EOF"
  | io_ErrNoProgress => lit "multiple Read calls return no data or error"
  | ErrTooLong => lit "bufio.Scanner: token too long"
  | ErrNegativeAdvance =>
      lit "bufio.Scanner: SplitFunc returns negative advance count"
  | ErrAdvanceTooFar =>
      lit "bufio.Scanner: SplitFunc returns advance count beyond input"
  | ErrBadReadCount => lit "bufio.Scanner: Read returned impossible count"
  | ErrFinalToken => lit "final token"
  end.

Definition MaxScanTokenSize : Z := 64 * 1024.
Definition startBufSize : Z := 4096.
Definition maxConsecutiveEmptyReads : Z := 100.

(** [bufio.SplitFunc]: [(advance, token, err)]; a [nil] token is [None]. *)
Definition SplitFunc : Type :=
  gostring -> bool -> Z * option gostring * option sentinel.

(** The state of a [bufio.Scanner] reading from a [strings.Reader].
    - [r] is the unread part of the reader's string, [r.s[r.i:]];
    - [bufLen] is [len(s.buf)], [held] is [s.buf[s.start:s.end]]: the bytes
      of the buffer outside that window are never read, so the model keeps
      the window and the sizes, and [s.end] is [start + len held]. *)
Record Scanner : Type := {
  r : gostring;
  split : SplitFunc;
  maxTokenSize : Z;
  token : option gostring;
  bufLen : Z;
  start : Z;
  held : gostring;
  err : option sentinel;
  empties : Z;
  done : bool
}.

Definition end_ (s : Scanner) : Z := start s + len (held s).

Definition isSome {A : Type} (o : option A) : bool :=
  match o with Some _ => true | None => false end.

(** [bufio.NewScanner(strings.NewReader(str))] followed by
    [scanner.Split(f)]. *)
Definition NewScanner (str : gostring) (f : SplitFunc) : Scanner :=
  {| r := str; split := f; maxTokenSize := MaxScanTokenSize;
     token := None; bufLen := 0; start := 0; held := []; err := None;
     empties := 0; done := false |}.

Definition with_err (s : Scanner) (e : option sentinel) : Scanner :=
  {| r := r s; split := split s; maxTokenSize := maxTokenSize s;
     token := token s; bufLen := bufLen s; start := start s;
     held := held s; err := e; empties := empties s; done := done s |}.

Definition with_token (s : Scanner) (t : option gostring) : Scanner :=
  {| r := r s; split := split s; maxTokenSize := maxTokenSize s;
     token := t; bufLen := bufLen s; start := start s;
     held := held s; err := err s; empties := empties s; done := done s |}.

Definition with_empties (s : Scanner) (n : Z) : Scanner :=
  {| r := r s; split := split s; maxTokenSize := maxTokenSize s;
     token := token s; bufLen := bufLen s; start := start s;
     held := held s; err := err s; empties := n; done := done s |}.

Definition with_done (s : Scanner) (d : bool) : Scanner :=
  {| r := r s; split := split s; maxTokenSize := maxTokenSize s;
     token := token s; bufLen := bufLen s; start := start s;
     held := held s; err := err s; empties := empties s; done := d |}.

(** Replace the buffer: its length, [start] and the window. *)
Definition with_buf (s : Scanner) (n st : Z) (h : gostring) : Scanner :=
  {| r := r s; split := split s; maxTokenSize := maxTokenSize s;
     token := token s; bufLen := n; start := st;
     held := h; err := err s; empties := empties s; done := done s |}.

Definition with_r (s : Scanner) (str : gostring) : Scanner :=
  {| r := str; split := split s; maxTokenSize := maxTokenSize s;
     token := token s; bufLen := bufLen s; start := start s;
     held := held s; err := err s; empties := empties s; done := done s |}.

(** [s.setErr(err)]: records the first error that is not [io.EOF]. *)
Definition setErr (s : Scanner) (e : sentinel) : Scanner :=
  match err s with
  | None | Some io_EOF => with_err s (Some e)
  | Some _ => s
  end.

(** [s.advance(n)] *)
Definition advance (s : Scanner) (n : Z) : bool * Scanner :=
  if n <? 0 then (false, setErr s ErrNegativeAdvance)
  else if end_ s - start s <? n then (false, setErr s ErrAdvanceTooFar)
  else (true, with_buf s (bufLen s) (start s + n)
                       (skipn (Z.to_nat n) (held s))).

(** [Read(b)] of a [strings.Reader] with [len(b) = room]: the count, the
    error, the bytes copied into [b] and the reader's new unread part. *)
Definition Read (str : gostring) (room : Z)
    : Z * option sentinel * gostring * gostring :=
  if len str <=? 0 then (0, Some io_EOF, [], str)
  else
    let n := Z.min room (len str) in
    (n, None, firstn (Z.to_nat n) str, skipn (Z.to_nat n) str).

(** [s.Err()] *)
Definition Err (s : Scanner) : option sentinel :=
  match err s with
  | Some io_EOF => None
  | e => e
  end.

(** [s.Text()] *)
Definition Text (s : Scanner) : gostring :=
  match token s with
  | Some t => t
  | None => []
  end.

(** The first part of the loop body of [Scan]: hand what is held to the
    split function.  [inl] is a return from [Scan], [inr] falls through to
    the rest of the body with no token found. *)
Definition tryToken (s : Scanner) : go (bool * Scanner) + Scanner :=
  if (start s <? end_ s) || isSome (err s) then
    let '(adv, tok, e) := split s (held s) (isSome (err s)) in
    match e with
    | Some e =>
        if sentinel_eqb e ErrFinalToken
        then inl (Ret (isSome tok, with_done (with_token s tok) true))
        else inl (Ret (false, setErr s e))
    | None =>
        let '(ok, s) := advance s adv in
        if negb ok then inl (Ret (false, s)) else
        let s := with_token s tok in
        match tok with
        | Some _ =>
            if negb (isSome (err s)) || (0 <? adv)
            then inl (Ret (true, with_empties s 0))
            else
              let s := with_empties s (empties s + 1) in
              if maxConsecutiveEmptyReads <? empties s
              then inl (Panic
                     "bufio.Scan: too many empty tokens without progressing")
              else inl (Ret (true, s))
        | None => inr s
        end
    end
  else inr s.

(** The read loop at the end of the body of [Scan]:
    [for loop := 0; ; { n, err := s.r.Read(s.buf[s.end:len(s.buf)]) ... }].
    It ends after at most [maxConsecutiveEmptyReads + 1] rounds. *)
Fixpoint readLoop (k : nat) (loop : Z) (s : Scanner) : Scanner :=
  match k with
  | O => s
  | S k' =>
      let room := bufLen s - end_ s in
      let '(n, e, data, rest) := Read (r s) room in
      if (n <? 0) || (room <? n) then setErr s ErrBadReadCount
      else
        let s :=
          with_r (with_buf s (bufLen s) (start s) (held s ++ data)) rest in
        match e with
        | Some e => setErr s e
        | None =>
            if 0 <? n then with_empties s 0
            else
              let loop := loop + 1 in
              if maxConsecutiveEmptyReads <? loop
              then setErr s io_ErrNoProgress
              else readLoop k' loop s
        end
  end.

Definition maxInt : Z := 2 ^ 63 - 1.

(** The loop [for { ... }] of [Scan].  A round that does not return reads
    at least one byte or records an error, and the round after an error
    returns; [fuel] counts the rounds. *)
Fixpoint scanLoop (fuel : nat) (s : Scanner) : go (bool * Scanner) :=
  match fuel with
  | O => Starve
  | S fuel' =>
      match tryToken s with
      | inl res => res
      | inr s =>
          if isSome (err s) then
            (* s.start = 0; s.end = 0 *)
            Ret (false, with_buf s (bufLen s) 0 [])
          else
            (* shift the data to the beginning of the buffer *)
            let s :=
              if (0 <? start s)
                 && ((end_ s =? bufLen s) || (Z.quot (bufLen s) 2 <? start s))
              then with_buf s (bufLen s) 0 (held s)
              else s in
            (* the buffer is full: resize it *)
            if end_ s =? bufLen s then
              if (maxTokenSize s <=? bufLen s)
                 || (Z.quot maxInt 2 <? bufLen s)
              then Ret (false, setErr s ErrTooLong)
              else
                let newSize := bufLen s * 2 in
                let newSize :=
                  if newSize =? 0 then startBufSize else newSize in
                let newSize := Z.min newSize (maxTokenSize s) in
                let s := with_buf s newSize 0 (held s) in
                scanLoop fuel' (readLoop 101 0 s)
            else scanLoop fuel' (readLoop 101 0 s)
      end
  end.

(** [s.Scan()] *)
Definition Scan (s : Scanner) : go (bool * Scanner) :=
  if done s then Ret (false, s)
  else scanLoop (S (S (length (r s)))) s.

End bufio.

(** ** package misc *)

Module misc.

(** Modelled from the spec: [misc.IsBlank] of pkg/runtime/misc, which is
    not among the sources.  The spec calls a token blank when it is
    "all-whitespace or empty"; whitespace is the one notion the parser
    has, that of [strings.TrimSpace]: every rune of the string, as [range]
    decodes it, satisfies [unicode.IsSpace]. *)
Definition IsBlank (s : gostring) : bool :=
  forallb unicode.IsSpace (map snd (range s)).

End misc.

(** ** package github.com/pkg/errors *)

Module errors.

(** An error value is modelled by its message, the result of [Error()]. *)
Definition error : Type := gostring.

(** [errors.Errorf("hint: invalid input '%s'", s)] *)
Definition Errorf_invalid (s : gostring) : error :=
  lit "hint: invalid input '" ++ s ++ lit "'".

(** [errors.Wrapf(err, "hint: invalid input '%s'", s)]: the formatted
    message, a colon and the message of the cause. *)
Definition Wrapf_invalid (cause : bufio.sentinel) (s : gostring) : error :=
  Errorf_invalid s ++ lit ": " ++ bufio.Error cause.

End errors.

(** ** package hint *)

Module hint.

(** [type Type uint8] *)
Definition HintType : Type := Z.

Definition TypeMaster : HintType := 1.
Definition TypeSlave : HintType := 2.
Definition TypeRoute : HintType := 3.
Definition TypeFullScan : HintType := 4.
Definition TypeDirect : HintType := 5.
Definition TypeTrace : HintType := 6.

(** The array [_hintTypes]; index 0, which no key names, holds the empty
    string. *)
Definition _hintTypes : list gostring :=
  [ lit ""; lit "MASTER"; lit "SLAVE"; lit "ROUTE"; lit "FULLSCAN";
    lit "DIRECT"; lit "TRACE" ].

Record KeyValue : Type := { K : gostring; V : gostring }.

Record Hint : Type := { Type_ : HintType; Inputs : list KeyValue }.

(** [func (tp Type) String() string]: indexing the array panics out of
    range. *)
Definition Type_String (tp : HintType) : go gostring :=
  if (tp <? 0) || (len _hintTypes <=? tp)
  then Panic "index out of range"
  else Ret (nth (Z.to_nat tp) _hintTypes []).

(** The closure [writeKv], on the builder [sb]. *)
Definition writeKv (sb : gostring) (p : KeyValue) : gostring :=
  let sb := if 0 <? len (K p) then (sb ++ K p) ++ lit "=" else sb in
  sb ++ V p.

(** [func (h Hint) String() string] *)
Definition Hint_String (h : Hint) : go gostring :=
  name <- Type_String (Type_ h) ;;
  let sb := name in
  if len (Inputs h) <? 1 then Ret (sb ++ lit "()")
  else
    match Inputs h with
    | [] => Panic "index out of range"
    | p0 :: rest =>
        let sb := sb ++ lit "(" in
        let sb := writeKv sb p0 in
        let sb := fold_left (fun sb p => writeKv (sb ++ lit ",") p) rest sb in
        Ret (sb ++ lit ")")
    end.

(** [func scanComma(data []byte, atEOF bool) (advance int, token []byte,
    err error)] *)
Definition scanComma : bufio.SplitFunc := fun data atEOF =>
  if atEOF && (len data =? 0) then (0, None, None)
  else
    let i := IndexByte data "," in
    if 0 <=? i then (i + 1, Some (sub data 0 i), None)
    else if atEOF then (len data, Some data, None)
    else (0, None, None).

(** The loop [for i, v := range _hintTypes] of [Parse] over the rest [tbl]
    of the table: the first match sets [tp = Type(i)] and breaks. *)
Fixpoint lookupFrom (i : Z) (tbl : list gostring) (tpStr : gostring)
    (tp : HintType) : HintType :=
  match tbl with
  | [] => tp
  | v :: tbl' =>
      if EqualFold tpStr v then i mod 256
      else lookupFrom (i + 1) tbl' tpStr tp
  end.

(** The body of the loop [for scanner.Scan()] of [Parse] on one [text],
    with the slice [kvs] collected so far. *)
Definition scanText (kvs : list KeyValue) (text : gostring)
    : go (list KeyValue) :=
  (* split kv by '=' *)
  let i := Index text (lit "=") in
  if i =? -1 then
    (* omit blank text *)
    if misc.IsBlank text then Ret kvs
    else Ret (kvs ++ [ {| K := []; V := TrimSpace text |} ])
  else
    tk <- slice text 0 i ;;
    tv <- slice text (i + 1) (len text) ;;
    let k := TrimSpace tk in
    let v := TrimSpace tv in
    (* omit blank key/value *)
    if misc.IsBlank k || misc.IsBlank v then Ret kvs
    else Ret (kvs ++ [ {| K := k; V := v |} ]).

(** The loop [for scanner.Scan() { ... }]; [fuel] counts the calls of
    [Scan]. *)
Fixpoint scanAll (fuel : nat) (scanner : bufio.Scanner)
    (kvs : list KeyValue) : go (list KeyValue * bufio.Scanner) :=
  match fuel with
  | O => Starve
  | S fuel' =>
      res <- bufio.Scan scanner ;;
      let '(more, scanner) := res in
      if more then
        kvs <- scanText kvs (bufio.Text scanner) ;;
        scanAll fuel' scanner kvs
      else Ret (kvs, scanner)
  end.

(** [func Parse(s string)], which returns a [*Hint] and an [error]: [inl]
    is a hint with a nil error, [inr] a nil hint with an error. *)
Definition Parse (s : gostring) : go (Hint + errors.error) :=
  let offset := Index s (lit "(") in
  tpStr <- (if offset =? -1 then Ret s else slice s 0 offset) ;;
  let tp := lookupFrom 0 _hintTypes tpStr 0 in
  if tp =? 0 then Ret (inr (errors.Errorf_invalid s))
  else if offset =? -1 then Ret (inl {| Type_ := tp; Inputs := [] |})
  else
    let end_ := LastIndex s (lit ")") in
    if end_ =? -1 then Ret (inr (errors.Errorf_invalid s))
    else
      s <- slice s (offset + 1) end_ ;;
      let scanner := bufio.NewScanner s scanComma in
      res <- scanAll (S (S (length s))) scanner [] ;;
      let '(kvs, scanner) := res in
      match bufio.Err scanner with
      | Some err => Ret (inr (errors.Wrapf_invalid err s))
      | None => Ret (inl {| Type_ := tp; Inputs := kvs |})
      end.

(** [func Contains(hType Type, hints []*Hint) bool]: an element is a
    pointer, [None] when nil; reading [v.Type] through a nil pointer
    panics. *)
Fixpoint Contains (hType : HintType) (hints : list (option Hint)) : go bool :=
  match hints with
  | [] => Ret false
  | v :: hints' =>
      match v with
      | None => Panic "nil pointer dereference"
      | Some h =>
          if Type_ h =? hType then Ret true else Contains hType hints'
      end
  end.

End hint.

Import hint.

(** ** Notions the properties are stated with *)

(** The outcome of [Parse] is an error. *)
Definition isError (r : go (Hint + errors.error)) : Prop :=
  exists e, r = Ret (inr e).

(** [cutComma s]: the text before the first comma of [s] and the text
    after it, when [s] has a comma. *)
Fixpoint cutComma (s : gostring) : option (gostring * gostring) :=
  match s with
  | [] => None
  | c :: s' =>
      if Ascii.eqb c "," then Some ([], s')
      else match cutComma s' with
           | Some (a, b) => Some (c :: a, b)
           | None => None
           end
  end.

(** The comma-delimited fields of a text: the text between successive
    commas, before the first and after the last one; the whole text when it
    has no comma. *)
Fixpoint splitComma (s : gostring) : list gostring :=
  match s with
  | [] => [[]]
  | c :: s' =>
      if Ascii.eqb c "," then [] :: splitComma s'
      else match splitComma s' with
           | t :: ts => (c :: t) :: ts
           | [] => [[c]]
           end
  end.

(** The tokens of an argument-list text: its comma-delimited fields, and no
    token at all for the empty text. *)
Definition commaTokens (body : gostring) : list gostring :=
  match body with
  | [] => []
  | _ :: _ => splitComma body
  end.

(** A token the scanner can hold: shorter than [bufio.MaxScanTokenSize]. *)
Definition shortToken (t : gostring) : bool :=
  len t <? bufio.MaxScanTokenSize.

(** [breakAt c s]: [s] split at the first [c]; [None] when [c] does not
    occur. *)
Fixpoint breakAt (c : ascii) (s : gostring) : option (gostring * gostring) :=
  match s with
  | [] => None
  | d :: s' =>
      if Ascii.eqb d c then Some ([], s')
      else option_map (fun p => (d :: fst p, snd p)) (breakAt c s')
  end.

(** The pair a token stands for, told the way the specification tells it:
    without an equals sign the trimmed token is a value with an empty key,
    unless it is blank; with one, the token is split at the first equals
    sign, both sides are trimmed, and the pair is kept unless a side is
    blank. *)
Definition tokenKV (token : gostring) : option KeyValue :=
  match breakAt "=" token with
  | None =>
      let trimmed := TrimSpace token in
      if misc.IsBlank trimmed then None
      else Some {| K := []; V := trimmed |}
  | Some (key, value) =>
      let trimmedKey := TrimSpace key in
      let trimmedValue := TrimSpace value in
      if misc.IsBlank trimmedKey || misc.IsBlank trimmedValue then None
      else Some {| K := trimmedKey; V := trimmedValue |}
  end.

Definition olist {A : Type} (o : option A) : list A :=
  match o with
  | Some a => [a]
  | None => []
  end.

(** The inputs an argument-list text stands for. *)
Definition inputsOf (body : gostring) : list KeyValue :=
  flat_map (fun t => olist (tokenKV t)) (commaTokens body).

(** What [Parse] answers for a resolved type [tp] and an argument-list
    text [body]. *)
Definition argsResult (tp : HintType) (body : gostring)
    : go (Hint + errors.error) :=
  if forallb shortToken (commaTokens body)
  then Ret (inl {| Type_ := tp; Inputs := inputsOf body |})
  else Ret (inr (errors.Wrapf_invalid bufio.ErrTooLong body)).

(** The name lookup of [Parse]: the ordinal of the first entry of
    [_hintTypes] that [tpStr] equals under case folding, 0 when there is
    none. *)
Definition lookup (tpStr : gostring) : HintType :=
  lookupFrom 0 _hintTypes tpStr 0.

(** The canonical names: the entries of [_hintTypes] that a key names. *)
Definition canonicalNames : list gostring := tl _hintTypes.

(** [lower c]: the lower-case letter of an upper-case ASCII letter. *)
Definition lower (c : ascii) : ascii :=
  let n := byteval c in
  if (65 <=? n) && (n <=? 90) then ascii_of_N (Z.to_N (n + 32)) else c.

(** [s] is [t] with the case of some letters changed. *)
Definition caseVariant (s t : gostring) : Prop :=
  Forall2 (fun c d => c = d \/ c = lower d) s t.

(** All the strings [caseVariant] relates to an upper-case [t]. *)
Fixpoint variants (t : gostring) : list gostring :=
  match t with
  | [] => [[]]
  | d :: t' => flat_map (fun v => [d :: v; lower d :: v]) (variants t')
  end.

(** [msg] carries [s]: [s] occurs in [msg]. *)
Definition carries (msg s : gostring) : Prop :=
  exists before after, msg = before ++ s ++ after.


(** ** Notions for the scanner *)

(** The unconsumed input of a scanner: what it holds and what the reader
    has not delivered yet. *)
Definition pending (st : bufio.Scanner) : gostring :=
  bufio.held st ++ bufio.r st.

(** The scanner states [Parse] goes through. *)
Definition good (st : bufio.Scanner) : Prop :=
  bufio.split st = scanComma
  /\ bufio.maxTokenSize st = bufio.MaxScanTokenSize
  /\ bufio.done st = false
  /\ 0 <= bufio.start st
  /\ bufio.end_ st <= bufio.bufLen st
  /\ bufio.bufLen st <= bufio.MaxScanTokenSize
  /\ (bufio.err st = None
      \/ (bufio.err st = Some bufio.io_EOF /\ bufio.r st = []
          /\ bufio.end_ st < bufio.bufLen st)).

(** The answer of [Scan] on unconsumed input [U]: the text before the
    first comma, or all of a text without comma, when it is short enough;
    no token when nothing is left; [ErrTooLong] otherwise. *)
Definition scanOutcome (U : gostring) (res : go (bool * bufio.Scanner))
    : Prop :=
  match cutComma U with
  | Some (a, b) =>
      if shortToken a
      then exists st', res = Ret (true, st') /\ bufio.Text st' = a
                       /\ good st' /\ pending st' = b
      else exists st', res = Ret (false, st')
                       /\ bufio.Err st' = Some bufio.ErrTooLong
  | None =>
      if shortToken U then
        match U with
        | [] => exists st', res = Ret (false, st') /\ bufio.Err st' = None
        | _ :: _ => exists st', res = Ret (true, st') /\ bufio.Text st' = U
                                /\ good st' /\ pending st' = []
        end
      else exists st', res = Ret (false, st')
                       /\ bufio.Err st' = Some bufio.ErrTooLong
  end.

(** The second part of a round of the loop of [Scan], after the split
    function found no token: a return from [Scan], or the state the next
    round starts from. *)
Definition refill (s : bufio.Scanner)
    : go (bool * bufio.Scanner) + bufio.Scanner :=
  if bufio.isSome (bufio.err s)
  then inl (Ret (false, bufio.with_buf s (bufio.bufLen s) 0 []))
  else
    let s :=
      if (0 <? bufio.start s)
         && ((bufio.end_ s =? bufio.bufLen s)
             || (Z.quot (bufio.bufLen s) 2 <? bufio.start s))
      then bufio.with_buf s (bufio.bufLen s) 0 (bufio.held s)
      else s in
    if bufio.end_ s =? bufio.bufLen s then
      if (bufio.maxTokenSize s <=? bufio.bufLen s)
         || (Z.quot bufio.maxInt 2 <? bufio.bufLen s)
      then inl (Ret (false, bufio.setErr s bufio.ErrTooLong))
      else
        let newSize := bufio.bufLen s * 2 in
        let newSize :=
          if newSize =? 0 then bufio.startBufSize else newSize in
        let newSize := Z.min newSize (bufio.maxTokenSize s) in
        let s := bufio.with_buf s newSize 0 (bufio.held s) in
        inr (bufio.readLoop 101 0 s)
    else inr (bufio.readLoop 101 0 s).

(** One round of the loop of [Scan]. *)
Definition round (s : bufio.Scanner)
    : go (bool * bufio.Scanner) + bufio.Scanner :=
  match bufio.tryToken s with
  | inl res => inl res
  | inr s => refill s
  end.

(** The rounds left before [Scan] returns are bounded by this measure. *)
Definition roundsLeft (st : bufio.Scanner) : nat :=
  length (bufio.r st) + (if bufio.isSome (bufio.err st) then 1 else 2).

(** ** Notions for the error conditions of Parse *)

(** The type-name token of an input: the text before the first opening
    parenthesis, or the whole input. *)
Definition typeToken (s : gostring) : gostring :=
  match index_opt s ["("%char] with
  | Some o => firstn o s
  | None => s
  end.

(** The type-name token equals no canonical name under case folding. *)
Definition matchesNone (s : gostring) : Prop :=
  forall v, In v canonicalNames -> EqualFold (typeToken s) v = false.

(** The type-name token resolves to the reserved zero variant: it equals,
    under case folding, the entry of ordinal 0. *)
Definition resolvesZero (s : gostring) : Prop :=
  EqualFold (typeToken s) (nth 0 _hintTypes []) = true.

(** An opening parenthesis is present and no closing one follows it. *)
Definition unclosed (s : gostring) : Prop :=
  exists o, index_opt s ["("%char] = Some o
            /\ ~ In ")"%char (skipn (S o) s).

(** The text between the first opening and the last closing parenthesis
    has a comma-delimited token of [MaxScanTokenSize] bytes or more. *)
Definition tooLong (s : gostring) : Prop :=
  exists o e t,
    index_opt s ["("%char] = Some o
    /\ last_index_opt s [")"%char] = Some e
    /\ In t (commaTokens (sub s (Z.of_nat o + 1) (Z.of_nat e)))
    /\ bufio.MaxScanTokenSize <= len t.

(** [Parse] answered a hint of type [tp] without inputs. *)
Definition bareHint (tp : HintType) (r : go (Hint + errors.error)) : bool :=
  match r with
  | Ret (inl h) =>
      (Type_ h =? tp) && match Inputs h with [] => true | _ :: _ => false end
  | _ => false
  end.

(** [Parse] answered a hint. *)
Definition succeeded (r : go (Hint + errors.error)) : bool :=
  match r with
  | Ret (inl _) => true
  | _ => false
  end.

(** The text of one input in the rendered form. *)
Definition renderKV (p : KeyValue) : gostring :=
  match K p with
  | [] => V p
  | _ :: _ => K p ++ lit "=" ++ V p
  end.

(** An input that the rendered form tells apart: the value is trimmed and
    not blank, a key that is present is trimmed and not blank, neither has
    a comma, the key has no equals sign, a value without key has none
    either, and the rendered text is short enough for the scanner. *)
Definition tellable (p : KeyValue) : Prop :=
  misc.IsBlank (V p) = false /\ TrimSpace (V p) = V p
  /\ ~ In ","%char (V p)
  /\ (K p = [] -> ~ In "="%char (V p))
  /\ (K p <> [] ->
      misc.IsBlank (K p) = false /\ TrimSpace (K p) = K p
      /\ ~ In ","%char (K p) /\ ~ In "="%char (K p))
  /\ len (renderKV p) < bufio.MaxScanTokenSize.

(** What the data model promises of an input of a parsed hint. *)
Definition trimmedInput (p : KeyValue) : Prop :=
  misc.IsBlank (V p) = false /\ TrimSpace (V p) = V p
  /\ (K p <> [] -> misc.IsBlank (K p) = false /\ TrimSpace (K p) = K p).

(** ** Notions for runes and whitespace *)

(** [DecodeRuneInString] as a function of the length of the string and of
    its first four bytes. *)
Definition decodeCore (n s0 b1 b2 b3 : Z) : Z * Z :=
  if n <? 1 then (utf8.RuneError, 0) else
  let x := utf8.first s0 in
  if utf8.as_ <=? x then
    (if x =? utf8.xx then utf8.RuneError else s0, 1)
  else
    let sz := Z.land x 7 in
    let accept := utf8.acceptRanges (Z.shiftr x 4) in
    if n <? sz then (utf8.RuneError, 1) else
    if (b1 <? utf8.lo accept) || (utf8.hi accept <? b1)
    then (utf8.RuneError, 1) else
    if sz <=? 2 then
      (Z.lor (Z.shiftl (Z.land s0 utf8.mask2) 6) (Z.land b1 utf8.maskx), 2)
    else
    if (b2 <? utf8.locb) || (utf8.hicb <? b2) then (utf8.RuneError, 1) else
    if sz <=? 3 then
      (Z.lor (Z.lor (Z.shiftl (Z.land s0 utf8.mask3) 12)
                    (Z.shiftl (Z.land b1 utf8.maskx) 6))
             (Z.land b2 utf8.maskx), 3)
    else
    if (b3 <? utf8.locb) || (utf8.hicb <? b3) then (utf8.RuneError, 1) else
    (Z.lor (Z.lor (Z.lor (Z.shiftl (Z.land s0 utf8.mask4) 18)
                         (Z.shiftl (Z.land b1 utf8.maskx) 12))
                  (Z.shiftl (Z.land b2 utf8.maskx) 6))
           (Z.land b3 utf8.maskx), 4).

(** A byte that is not a continuation byte: ASCII, or 0xC0 and above. *)
Definition startByte (b : Z) : Prop := b < 128 \/ 192 <= b.

(** A text that does not begin with a continuation byte. *)
Definition startsClean (z : gostring) : Prop :=
  match z with
  | [] => True
  | c :: _ => startByte (byteval c)
  end.

(** A text that does not begin with whitespace. *)
Definition noSpaceAhead (s : gostring) : Prop :=
  s = [] \/ unicode.IsSpace (fst (utf8.DecodeRuneInString s)) = false.

(** A text that does not end with whitespace. *)
Definition noSpaceBehind (s : gostring) : Prop :=
  s = [] \/ unicode.IsSpace (fst (utf8.DecodeLastRuneInString s)) = false.

(** A text made of encoded whitespace runes only. *)
Inductive allSpaces : gostring -> Prop :=
| allSpaces_nil : allSpaces []
| allSpaces_rune (w z : gostring) (r : Z) :
    w <> [] ->
    utf8.DecodeRuneInString w = (r, len w) ->
    unicode.IsSpace r = true ->
    allSpaces z ->
    allSpaces (w ++ z).

(** Where the backward scan of [lastIndexFunc(s, unicode.IsSpace, false)]
    stops, coming from the end [i]: the end of the last rune that is not
    whitespace, or 0. *)
Fixpoint stripPos (fuel : nat) (s : gostring) (i : Z) : Z :=
  match fuel with
  | O => 0
  | S fuel' =>
      if 0 <? i then
        let '(r, size) := utf8.DecodeLastRuneInString (sub s 0 i) in
        if unicode.IsSpace r then stripPos fuel' s (i - size) else i
      else 0
  end.

(** The width and the accept range of the second byte that the table
    [first] gives a leading byte; [None] for a byte that cannot lead. *)
Definition leadInfo (s0 : Z) : option (Z * Z * Z) :=
  if s0 <? 194 then None
  else if s0 <? 224 then Some (2, 128, 191)
  else if s0 =? 224 then Some (3, 160, 191)
  else if s0 <? 237 then Some (3, 128, 191)
  else if s0 =? 237 then Some (3, 128, 159)
  else if s0 <? 240 then Some (3, 128, 191)
  else if s0 =? 240 then Some (4, 144, 191)
  else if s0 <? 244 then Some (4, 128, 191)
  else if s0 =? 244 then Some (4, 128, 143)
  else None.

(** The decoding of a multi-byte encoding of width [sz]. *)
Definition decodeMulti (n sz lo hi s0 b1 b2 b3 : Z) : Z * Z :=
  if n <? sz then (utf8.RuneError, 1) else
  if (b1 <? lo) || (hi <? b1) then (utf8.RuneError, 1) else
  if sz <=? 2 then
    (Z.lor (Z.shiftl (Z.land s0 utf8.mask2) 6) (Z.land b1 utf8.maskx), 2)
  else
  if (b2 <? 128) || (191 <? b2) then (utf8.RuneError, 1) else
  if sz <=? 3 then
    (Z.lor (Z.lor (Z.shiftl (Z.land s0 utf8.mask3) 12)
                  (Z.shiftl (Z.land b1 utf8.maskx) 6))
           (Z.land b2 utf8.maskx), 3)
  else
  if (b3 <? 128) || (191 <? b3) then (utf8.RuneError, 1) else
  (Z.lor (Z.lor (Z.lor (Z.shiftl (Z.land s0 utf8.mask4) 18)
                       (Z.shiftl (Z.land b1 utf8.maskx) 12))
                (Z.shiftl (Z.land b2 utf8.maskx) 6))
         (Z.land b3 utf8.maskx), 4).

(** A byte that is an ASCII letter, or is not ASCII. *)
Definition letterOrHigh (c : ascii) : Prop :=
  let n := byteval c in
  (65 <= n <= 90) \/ (97 <= n <= 122) \/ 128 <= n.

(** The rendered inputs after the first one. *)
Definition renderMore (rest : list KeyValue) : gostring :=
  concat (map (fun p => ","%char :: renderKV p) rest).

(** The hint MASTER with one argument of 65536 bytes. *)
Definition longHint : gostring :=
  lit "MASTER" ++ lit "(" ++ repeat "a"%char (Z.to_nat 65536) ++ lit ")".

(** ** Notions for the further properties *)

(** An ASCII whitespace byte: tab, line feed, vertical tab, form feed,
    carriage return or space. *)
Definition asciiWhite (c : ascii) : Prop := asciiSpace (byteval c) = true.

(** An ASCII byte that is not a letter. *)
Definition asciiNonLetter (c : ascii) : Prop :=
  let n := byteval c in
  n < 128 /\ ~ (65 <= n <= 90) /\ ~ (97 <= n <= 122).

(** The canonical name of a type, the entry of [_hintTypes] at its
    ordinal. *)
Definition nameOf (tp : HintType) : gostring :=
  nth (Z.to_nat tp) _hintTypes [].
(** * Lemmas *)

(** ** Lengths, slices and searching *)

Lemma len_nil {A : Type} : len (@nil A) = 0.
Proof. reflexivity. Qed.

Lemma len_cons {A : Type} (a : A) (l : list A) : len (a :: l) = len l + 1.
Proof. unfold len. simpl length. lia. Qed.

Lemma len_app {A : Type} (l1 l2 : list A) : len (l1 ++ l2) = len l1 + len l2.
Proof. unfold len. rewrite length_app. lia. Qed.

Lemma len_nonneg {A : Type} (l : list A) : 0 <= len l.
Proof. unfold len. lia. Qed.

Lemma len_zero {A : Type} (l : list A) : len l = 0 -> l = [].
Proof.
  destruct l; [reflexivity|].
  rewrite len_cons. pose proof (len_nonneg l). lia.
Qed.

Lemma sub_prefix (a b : gostring) : sub (a ++ b) 0 (len a) = a.
Proof.
  unfold sub, len. simpl skipn.
  replace (Z.to_nat (Z.of_nat (length a) - 0)) with (length a + 0)%nat by lia.
  rewrite firstn_app_2. simpl. apply app_nil_r.
Qed.

Lemma sub_suffix (a b : gostring) : sub (a ++ b) (len a) (len (a ++ b)) = b.
Proof.
  unfold sub. rewrite len_app. unfold len.
  replace (Z.to_nat (Z.of_nat (length a))) with (length a) by lia.
  rewrite skipn_app, skipn_all, Nat.sub_diag. simpl.
  replace (Z.to_nat _) with (length b) by lia.
  apply firstn_all.
Qed.

Lemma sub_middle (a b c : gostring) :
  sub (a ++ b ++ c) (len a) (len a + len b) = b.
Proof.
  unfold sub, len.
  replace (Z.to_nat (Z.of_nat (length a))) with (length a) by lia.
  rewrite skipn_app, skipn_all, Nat.sub_diag. simpl.
  replace (Z.to_nat _) with (length b + 0)%nat by lia.
  rewrite firstn_app_2. simpl. apply app_nil_r.
Qed.

Lemma sub_all (s : gostring) : sub s 0 (len s) = s.
Proof.
  unfold sub, len. simpl.
  replace (Z.to_nat _) with (length s) by lia. apply firstn_all.
Qed.

Lemma HasPrefix_byte (c : ascii) (s : gostring) :
  HasPrefix s [c] = match s with [] => false | d :: _ => Ascii.eqb d c end.
Proof.
  destruct s as [|d s]; simpl; [reflexivity|].
  destruct s; apply andb_true_r.
Qed.

Lemma index_opt_byte (c d : ascii) (s : gostring) :
  index_opt (d :: s) [c]
  = if Ascii.eqb d c then Some O else option_map S (index_opt s [c]).
Proof.
  cbn [index_opt]. rewrite HasPrefix_byte. reflexivity.
Qed.

(** The first occurrence of a byte splits the string. *)
Lemma index_opt_spec (c : ascii) (s : gostring) :
  match index_opt s [c] with
  | Some n => exists a b, s = a ++ c :: b /\ length a = n /\ ~ In c a
  | None => ~ In c s
  end.
Proof.
  induction s as [|d s IH].
  - simpl. tauto.
  - rewrite index_opt_byte. destruct (Ascii.eqb_spec d c) as [->|Hne].
    + exists [], s. simpl. tauto.
    + destruct (index_opt s [c]) as [n|]; simpl.
      * destruct IH as (a & b & -> & Hl & Hn).
        exists (d :: a), b. simpl. split; [reflexivity|]. split; [lia|].
        intros [H|H]; [congruence | tauto].
      * intros [H|H]; [congruence | tauto].
Qed.

Lemma index_opt_app (c : ascii) (a b : gostring) :
  ~ In c a -> index_opt (a ++ c :: b) [c] = Some (length a).
Proof.
  induction a as [|d a IH]; intros Hn.
  - simpl app. rewrite index_opt_byte, Ascii.eqb_refl. reflexivity.
  - simpl app. rewrite index_opt_byte.
    destruct (Ascii.eqb_spec d c) as [->|Hne].
    + exfalso. apply Hn. left. reflexivity.
    + rewrite IH; [reflexivity|]. intros H. apply Hn. right. exact H.
Qed.

Lemma index_opt_none (c : ascii) (s : gostring) :
  ~ In c s -> index_opt s [c] = None.
Proof.
  intros Hn. pose proof (index_opt_spec c s) as H.
  destruct (index_opt s [c]); [|reflexivity].
  destruct H as (a & b & -> & _). exfalso. apply Hn.
  apply in_or_app. right. left. reflexivity.
Qed.

Lemma last_index_opt_byte (c d : ascii) (s : gostring) :
  last_index_opt (d :: s) [c]
  = match last_index_opt s [c] with
    | Some n => Some (S n)
    | None => if Ascii.eqb d c then Some O else None
    end.
Proof.
  cbn [last_index_opt]. rewrite HasPrefix_byte. reflexivity.
Qed.

(** The last occurrence of a byte splits the string. *)
Lemma last_index_opt_spec (c : ascii) (s : gostring) :
  match last_index_opt s [c] with
  | Some n => exists a b, s = a ++ c :: b /\ length a = n /\ ~ In c b
  | None => ~ In c s
  end.
Proof.
  induction s as [|d s IH].
  - simpl. tauto.
  - rewrite last_index_opt_byte. destruct (last_index_opt s [c]) as [n|].
    + destruct IH as (a & b & -> & Hl & Hn).
      exists (d :: a), b. simpl. split; [reflexivity|]. split; [lia|exact Hn].
    + destruct (Ascii.eqb_spec d c) as [->|Hne].
      * exists [], s. simpl. tauto.
      * intros [H|H]; [congruence | tauto].
Qed.

Lemma last_index_opt_app (c : ascii) (a b : gostring) :
  ~ In c b -> last_index_opt (a ++ c :: b) [c] = Some (length a).
Proof.
  intros Hn. induction a as [|d a IH].
  - simpl app. rewrite last_index_opt_byte.
    pose proof (last_index_opt_spec c b) as H.
    destruct (last_index_opt b [c]).
    + destruct H as (x & y & -> & _). exfalso. apply Hn.
      apply in_or_app. right. left. reflexivity.
    + rewrite Ascii.eqb_refl. reflexivity.
  - simpl app. rewrite last_index_opt_byte, IH. reflexivity.
Qed.

Lemma last_index_opt_spec_none (c : ascii) (s : gostring) :
  last_index_opt s [c] = None -> ~ In c s.
Proof.
  intros E. pose proof (last_index_opt_spec c s) as H. rewrite E in H.
  exact H.
Qed.

(** ** The comma scanner *)

Lemma cutComma_Some (s a b : gostring) :
  cutComma s = Some (a, b) -> s = a ++ "," %char :: b /\ ~ In ","%char a.
Proof.
  revert a b. induction s as [|c s IH]; intros a b H; simpl in H.
  - discriminate.
  - destruct (Ascii.eqb_spec c ",") as [->|Hne].
    + injection H as <- <-. simpl. tauto.
    + destruct (cutComma s) as [[a' b']|]; [|discriminate].
      injection H as <- <-. destruct (IH a' b' eq_refl) as [-> Hn].
      split; [reflexivity|]. intros [E|E]; [congruence | tauto].
Qed.

Lemma cutComma_None (s : gostring) :
  cutComma s = None -> ~ In ","%char s.
Proof.
  induction s as [|c s IH]; simpl; intros H.
  - tauto.
  - destruct (Ascii.eqb_spec c ",") as [->|Hne]; [discriminate|].
    destruct (cutComma s) as [[a' b']|]; [discriminate|].
    intros [E|E]; [congruence | tauto].
Qed.

Lemma cutComma_app (h t : gostring) :
  cutComma (h ++ t)
  = match cutComma h with
    | Some (a, b) => Some (a, b ++ t)
    | None => match cutComma t with
              | Some (a, b) => Some (h ++ a, b)
              | None => None
              end
    end.
Proof.
  induction h as [|c h IH]; simpl.
  - destruct (cutComma t) as [[a b]|]; reflexivity.
  - destruct (Ascii.eqb c ","); [reflexivity|].
    rewrite IH. destruct (cutComma h) as [[a b]|]; [reflexivity|].
    destruct (cutComma t) as [[a b]|]; reflexivity.
Qed.

Lemma splitComma_cut (s : gostring) :
  splitComma s = match cutComma s with
                 | Some (a, b) => a :: splitComma b
                 | None => [s]
                 end.
Proof.
  induction s as [|c s IH]; simpl; [reflexivity|].
  destruct (Ascii.eqb c ","); [reflexivity|].
  rewrite IH. destruct (cutComma s) as [[a b]|]; reflexivity.
Qed.

Lemma IndexByte_cut (s : gostring) :
  IndexByte s "," = match cutComma s with
                    | Some (a, _) => len a
                    | None => -1
                    end.
Proof.
  unfold IndexByte, Index.
  destruct (cutComma s) as [[a b]|] eqn:E.
  - apply cutComma_Some in E. destruct E as [-> Hn].
    rewrite index_opt_app by exact Hn. reflexivity.
  - apply cutComma_None in E. rewrite index_opt_none by exact E. reflexivity.
Qed.

(** What [scanComma] answers, by the first comma of the data. *)
Lemma scanComma_cut (data : gostring) (atEOF : bool) :
  scanComma data atEOF
  = match cutComma data with
    | Some (a, _) => (len a + 1, Some a, None)
    | None =>
        if atEOF then
          match data with
          | [] => (0, None, None)
          | _ :: _ => (len data, Some data, None)
          end
        else (0, None, None)
    end.
Proof.
  unfold scanComma. rewrite IndexByte_cut.
  destruct (cutComma data) as [[a b]|] eqn:E.
  - apply cutComma_Some in E. destruct E as [-> _].
    rewrite len_app, len_cons.
    pose proof (len_nonneg a). pose proof (len_nonneg b).
    replace (len (a ++ "," %char :: b)) with (len a + (len b + 1))
      by (rewrite len_app, len_cons; reflexivity).
    rewrite sub_prefix.
    replace (len a + (len b + 1) =? 0) with false by lia.
    rewrite andb_false_r.
    replace (0 <=? len a) with true by lia. reflexivity.
  - destruct atEOF; simpl; [|reflexivity].
    destruct data; simpl; reflexivity.
Qed.

Section Decoding.
Import utf8.

(** ** Decoding one rune *)

Lemma at_cons_0 (c : ascii) (s : gostring) : at_ (c :: s) 0 = byteval c.
Proof. reflexivity. Qed.

Lemma at_cons_S (c : ascii) (s : gostring) (i : Z) :
  0 <= i -> at_ (c :: s) (i + 1) = at_ s i.
Proof.
  intros Hi. unfold at_.
  replace (i + 1 <? 0) with false by lia. replace (i <? 0) with false by lia.
  replace (Z.to_nat (i + 1)) with (S (Z.to_nat i)) by lia. reflexivity.
Qed.

Lemma byteval_range (c : ascii) : 0 <= byteval c < 256.
Proof.
  unfold byteval. pose proof (N_ascii_bounded c). lia.
Qed.

(** An ASCII byte is a rune by itself. *)
Lemma Decode_ascii (c : ascii) (s : gostring) :
  byteval c < 128 -> DecodeRuneInString (c :: s) = (byteval c, 1).
Proof.
  intros Hc. unfold DecodeRuneInString.
  replace (len (c :: s) <? 1) with false
    by (rewrite len_cons; pose proof (len_nonneg s); lia).
  rewrite at_cons_0. unfold first.
  replace (byteval c <? 128) with true by lia. reflexivity.
Qed.

Lemma Decode_core (s : gostring) :
  DecodeRuneInString s
  = decodeCore (len s) (at_ s 0) (at_ s 1) (at_ s 2) (at_ s 3).
Proof. reflexivity. Qed.

Ltac split_ifs :=
  repeat match goal with
         | |- context [if ?c then _ else _] => destruct c eqn:?
         end.

Lemma decodeCore_eq (n s0 b1 b2 b3 : Z) :
  1 <= n ->
  decodeCore n s0 b1 b2 b3
  = if s0 <? 128 then (s0, 1)
    else match leadInfo s0 with
         | None => (RuneError, 1)
         | Some (sz, lo, hi) => decodeMulti n sz lo hi s0 b1 b2 b3
         end.
Proof.
  intros Hn. unfold decodeCore, first, leadInfo.
  replace (n <? 1) with false by lia.
  destruct (s0 <? 128); [reflexivity|].
  destruct (s0 <? 194); [reflexivity|].
  destruct (s0 <? 224); [reflexivity|].
  destruct (s0 =? 224); [reflexivity|].
  destruct (s0 <? 237); [reflexivity|].
  destruct (s0 =? 237); [reflexivity|].
  destruct (s0 <? 240); [reflexivity|].
  destruct (s0 =? 240); [reflexivity|].
  destruct (s0 <? 244); [reflexivity|].
  destruct (s0 =? 244); reflexivity.
Qed.

Lemma leadInfo_range (s0 sz lo hi : Z) :
  leadInfo s0 = Some (sz, lo, hi) ->
  (sz = 2 \/ sz = 3 \/ sz = 4) /\ 128 <= lo /\ hi <= 191 /\ 194 <= s0.
Proof.
  unfold leadInfo. split_ifs; intros H; try discriminate H;
    injection H as <- <- <-; lia.
Qed.

(** The decoder reads the bytes before its width only, and a byte that
    is not a continuation byte ends an encoding: longer input whose extra
    bytes begin with such a byte decodes alike. *)
Lemma decodeCore_stable (n n' s0 b1 b2 b3 b1' b2' b3' : Z) :
  1 <= n <= n' ->
  (1 < n -> b1' = b1) -> (2 < n -> b2' = b2) -> (3 < n -> b3' = b3) ->
  (n = 1 -> n < n' -> startByte b1') ->
  (n = 2 -> n < n' -> startByte b2') ->
  (n = 3 -> n < n' -> startByte b3') ->
  decodeCore n' s0 b1' b2' b3' = decodeCore n s0 b1 b2 b3.
Proof.
  intros Hn H1 H2 H3 S1 S2 S3. unfold startByte in *.
  rewrite !decodeCore_eq by lia.
  destruct (s0 <? 128); [reflexivity|].
  destruct (leadInfo s0) as [[[sz lo] hi]|] eqn:El; [|reflexivity].
  apply leadInfo_range in El. destruct El as (Hsz & Hlo & Hhi & _).
  unfold decodeMulti.
  assert (Hc : n = 1 \/ n = 2 \/ n = 3 \/ 4 <= n) by lia.
  destruct Hsz as [->|[->| ->]];
    destruct Hc as [->|[->|[->|Hc]]];
    cbn [Z.leb Z.compare Pos.compare Pos.compare_cont Z.ltb];
    try (rewrite H1 by lia); try (rewrite H2 by lia);
    try (rewrite H3 by lia);
    split_ifs; try reflexivity; lia.
Qed.

Lemma of_nat_not_neg (n : nat) : (Z.of_nat n <? 0) = false.
Proof. apply Z.ltb_ge. lia. Qed.

Lemma at_app_l (y z : gostring) (i : Z) :
  0 <= i < len y -> at_ (y ++ z) i = at_ y i.
Proof.
  intros Hi. unfold at_, len in *. replace (i <? 0) with false by lia.
  rewrite app_nth1 by lia. reflexivity.
Qed.

Lemma at_app_head (y z : gostring) (c : ascii) :
  at_ (y ++ c :: z) (len y) = byteval c.
Proof.
  unfold at_, len. rewrite of_nat_not_neg.
  rewrite Nat2Z.id, app_nth2, Nat.sub_diag by lia. reflexivity.
Qed.

Lemma len_pos (s : gostring) : s <> [] -> 1 <= len s.
Proof.
  destruct s; [congruence|]. intros _. rewrite len_cons.
  pose proof (len_nonneg s). lia.
Qed.

(** Appending a text that does not begin with a continuation byte does
    not change the first rune. *)
Lemma Decode_app (y z : gostring) :
  y <> [] -> startsClean z ->
  DecodeRuneInString (y ++ z) = DecodeRuneInString y.
Proof.
  intros Hy Hz. rewrite !Decode_core.
  pose proof (len_pos y Hy) as Hl. pose proof (len_nonneg z) as Hlz.
  rewrite len_app, (at_app_l y z 0) by lia.
  assert (Hhead : forall k, k = len y -> len y < len y + len z ->
                            startByte (at_ (y ++ z) k)).
  { intros k -> Hlt. destruct z as [|c z]; [rewrite len_nil in Hlt; lia|].
    rewrite at_app_head. exact Hz. }
  apply decodeCore_stable; try lia.
  - intros H. apply at_app_l. lia.
  - intros H. apply at_app_l. lia.
  - intros H. apply at_app_l. lia.
  - intros H1 H2. apply Hhead; lia.
  - intros H1 H2. apply Hhead; lia.
  - intros H1 H2. apply Hhead; lia.
Qed.

Lemma RuneError_not_space : unicode.IsSpace RuneError = false.
Proof. reflexivity. Qed.

(** The shape of the answer of the decoder on a text that is not empty:
    an ASCII byte; an invalid encoding, of width 1; or an encoding of
    width 2 to 4 led by a byte from 0xC2 on and continued by bytes from
    0x80 to 0xBF. *)
Lemma Decode_shape (s : gostring) :
  s <> [] ->
  (at_ s 0 < 128 /\ DecodeRuneInString s = (at_ s 0, 1))
  \/ (128 <= at_ s 0 /\ DecodeRuneInString s = (RuneError, 1))
  \/ (exists r sz, DecodeRuneInString s = (r, sz)
        /\ 2 <= sz <= 4 /\ sz <= len s /\ 194 <= at_ s 0
        /\ forall i, 1 <= i < sz -> 128 <= at_ s i <= 191).
Proof.
  intros Hs. pose proof (len_pos s Hs) as Hl.
  rewrite Decode_core, decodeCore_eq by lia.
  destruct (at_ s 0 <? 128) eqn:H0; [left; split; [lia|reflexivity]|].
  right.
  destruct (leadInfo (at_ s 0)) as [[[sz lo] hi]|] eqn:El;
    [|left; split; [lia|reflexivity]].
  apply leadInfo_range in El. destruct El as (Hsz & Hlo & Hhi & H194).
  unfold decodeMulti.
  destruct (len s <? sz) eqn:Hn; [left; split; [lia|reflexivity]|].
  destruct ((at_ s 1 <? lo) || (hi <? at_ s 1)) eqn:Hb1;
    [left; split; [lia|reflexivity]|].
  destruct Hsz as [->|[->| ->]]; cbn [Z.leb Z.compare Pos.compare
    Pos.compare_cont].
  - right. eexists _, 2. split; [reflexivity|].
    repeat split; try lia; assert (i = 1) by lia; subst i; lia.
  - destruct ((at_ s 2 <? 128) || (191 <? at_ s 2)) eqn:Hb2;
      [left; split; [lia|reflexivity]|].
    right. eexists _, 3. split; [reflexivity|].
    repeat split; try lia;
      assert (Hi : i = 1 \/ i = 2) by lia; destruct Hi; subst i; lia.
  - destruct ((at_ s 2 <? 128) || (191 <? at_ s 2)) eqn:Hb2;
      [left; split; [lia|reflexivity]|].
    destruct ((at_ s 3 <? 128) || (191 <? at_ s 3)) eqn:Hb3;
      [left; split; [lia|reflexivity]|].
    right. eexists _, 4. split; [reflexivity|].
    repeat split; try lia;
      assert (Hi : i = 1 \/ i = 2 \/ i = 3) by lia;
      destruct Hi as [|[|]]; subst i; lia.
Qed.

Lemma Decode_size (s : gostring) (r size : Z) :
  s <> [] -> DecodeRuneInString s = (r, size) -> 1 <= size <= len s.
Proof.
  intros Hs Hd. pose proof (len_pos s Hs).
  destruct (Decode_shape s Hs) as [[_ E]|[[_ E]|(r' & sz & E & H1 & H2 & _)]];
    rewrite E in Hd; injection Hd as <- <-; lia.
Qed.

(** A whitespace rune begins with a byte that is not a continuation
    byte. *)
Lemma Decode_space_start (s : gostring) :
  s <> [] -> unicode.IsSpace (fst (DecodeRuneInString s)) = true ->
  startsClean s.
Proof.
  intros Hs Hsp. destruct s as [|c s]; [congruence|].
  unfold startsClean, startByte. change (byteval c) with (at_ (c :: s) 0).
  destruct (Decode_shape (c :: s) Hs)
    as [[H _]|[[_ E]|(r' & sz & _ & _ & _ & H & _)]]; try lia.
  rewrite E in Hsp. discriminate Hsp.
Qed.

End Decoding.

Section Trimming.
Import utf8.

(** ** Slices *)

Lemma sub_skipn (s : gostring) (a : Z) :
  0 <= a -> sub s a (len s) = skipn (Z.to_nat a) s.
Proof.
  intros Ha. unfold sub, len. apply firstn_all2. rewrite length_skipn. lia.
Qed.

Lemma sub_firstn (s : gostring) (b : Z) : sub s 0 b = firstn (Z.to_nat b) s.
Proof. unfold sub. cbn [Z.to_nat skipn]. f_equal. lia. Qed.

Lemma len_sub (s : gostring) (a b : Z) :
  0 <= a <= b -> b <= len s -> len (sub s a b) = b - a.
Proof.
  intros H1 H2. unfold sub, len in *.
  rewrite length_firstn, length_skipn. lia.
Qed.

Lemma sub_empty (s : gostring) (a : Z) : sub s a a = [].
Proof. unfold sub. rewrite Z.sub_diag. reflexivity. Qed.

Lemma firstn_plus {A : Type} (n m : nat) (l : list A) :
  firstn (n + m) l = firstn n l ++ firstn m (skipn n l).
Proof.
  revert l. induction n as [|n IH]; intros l; [reflexivity|].
  destruct l as [|a l]; cbn.
  - rewrite firstn_nil. reflexivity.
  - rewrite IH. reflexivity.
Qed.

Lemma sub_split (s : gostring) (a b c : Z) :
  0 <= a <= b -> b <= c -> sub s a b ++ sub s b c = sub s a c.
Proof.
  intros H1 H2. unfold sub.
  replace (Z.to_nat (c - a)) with (Z.to_nat (b - a) + Z.to_nat (c - b))%nat
    by lia.
  replace (Z.to_nat b) with (Z.to_nat (b - a) + Z.to_nat a)%nat by lia.
  rewrite <- skipn_skipn. symmetry. apply firstn_plus.
Qed.

Lemma sub_sub (s : gostring) (a b i : Z) :
  0 <= a <= b -> b <= i -> sub (sub s 0 i) a b = sub s a b.
Proof.
  intros H1 H2. unfold sub at 1 3. rewrite sub_firstn.
  rewrite skipn_firstn_comm, firstn_firstn. f_equal. lia.
Qed.

Lemma at_sub (s : gostring) (a b j : Z) :
  0 <= a -> 0 <= j -> a + j < b -> at_ (sub s a b) j = at_ s (a + j).
Proof.
  intros Ha Hj Hb. unfold at_, sub.
  replace (j <? 0) with false by lia. replace (a + j <? 0) with false by lia.
  rewrite nth_firstn.
  replace (Z.to_nat j <? Z.to_nat (b - a))%nat with true
    by (symmetry; apply Nat.ltb_lt; lia).
  rewrite nth_skipn. do 2 f_equal. lia.
Qed.

Lemma sub_nonempty (s : gostring) (a b : Z) :
  0 <= a < b -> b <= len s -> sub s a b <> [].
Proof.
  intros H1 H2 E. pose proof (len_sub s a b ltac:(lia) H2) as Hl.
  rewrite E, len_nil in Hl. lia.
Qed.

(** ** Decoding the last rune *)

Lemma backToStart_le (k : nat) (s : gostring) (st lim : Z) :
  backToStart k s st lim <= st.
Proof.
  revert st. induction k as [|k IH]; intros st; cbn; [lia|].
  destruct (st >=? lim); [|lia].
  destruct (RuneStart (at_ s st)); [lia|].
  specialize (IH (st - 1)). lia.
Qed.

(** The shape of the answer of the backward decoder on a text that is
    not empty: its last byte when that is ASCII; an invalid encoding, of
    width 1; or the rune that the last 2 to 4 bytes encode. *)
Lemma DecodeLast_shape (p : gostring) :
  p <> [] ->
  (at_ p (len p - 1) < 128
   /\ DecodeLastRuneInString p = (at_ p (len p - 1), 1))
  \/ (128 <= at_ p (len p - 1)
      /\ DecodeLastRuneInString p = (RuneError, 1))
  \/ (128 <= at_ p (len p - 1)
      /\ exists r k, DecodeLastRuneInString p = (r, k)
           /\ 2 <= k <= len p
           /\ DecodeRuneInString (sub p (len p - k) (len p)) = (r, k)).
Proof.
  intros Hp. pose proof (len_pos p Hp) as Hl.
  unfold DecodeLastRuneInString.
  replace (len p =? 0) with false by lia.
  destruct (at_ p (len p - 1) <? RuneSelf) eqn:Ha; unfold RuneSelf in Ha.
  { left. split; [lia | reflexivity]. }
  right.
  set (st0 := backToStart 4 p (len p - 1 - 1) (Z.max (len p - UTFMax) 0)).
  pose proof (backToStart_le 4 p (len p - 1 - 1)
                (Z.max (len p - UTFMax) 0)) as Hst0.
  fold st0 in Hst0.
  set (st := if st0 <? 0 then 0 else st0).
  assert (Hst : 0 <= st <= len p - 1)
    by (unfold st; destruct (st0 <? 0) eqn:E; lia).
  clearbody st. clear st0 Hst0.
  assert (Hy : sub p st (len p) <> []) by (apply sub_nonempty; lia).
  destruct (DecodeRuneInString (sub p st (len p))) as [r size] eqn:Ed.
  destruct (st + size =? len p) eqn:Em; cbn [negb].
  2: { left. split; [lia | reflexivity]. }
  destruct (Decode_shape _ Hy) as [[H0 E]|[[H0 E]|(r' & sz & E & Hsz & _)]];
    rewrite Ed in E; injection E as -> ->.
  - (* an ASCII byte at the start would be the last byte *)
    exfalso. rewrite at_sub in H0 by lia.
    replace (st + 0) with (len p - 1) in H0 by lia. lia.
  - left. split; [lia | reflexivity].
  - right. split; [lia|]. exists r', sz. split; [reflexivity|].
    split; [lia|]. replace (len p - sz) with st by lia. exact Ed.
Qed.

Lemma DecodeLast_size (p : gostring) (r k : Z) :
  p <> [] -> DecodeLastRuneInString p = (r, k) -> 1 <= k <= len p.
Proof.
  intros Hp Hd. pose proof (len_pos p Hp).
  destruct (DecodeLast_shape p Hp)
    as [[_ E]|[[_ E]|(_ & r' & k' & E & Hk & _)]];
    rewrite E in Hd; injection Hd as <- <-; lia.
Qed.

(** ** Ranging over the runes of a text *)

Lemma rangeFrom_nil (fuel : nat) (i : Z) : rangeFrom fuel i [] = [].
Proof. destruct fuel; reflexivity. Qed.

Lemma rangeFrom_cons (fuel : nat) (i : Z) (s : gostring) (r size : Z) :
  s <> [] -> DecodeRuneInString s = (r, size) ->
  rangeFrom (S fuel) i s
  = (i, r) :: rangeFrom fuel (i + size) (skipn (Z.to_nat size) s).
Proof.
  intros Hs Hd. destruct s as [|c s]; [congruence|].
  cbn [rangeFrom]. rewrite Hd. reflexivity.
Qed.

Lemma length_skipn_size (s : gostring) (r size : Z) :
  s <> [] -> DecodeRuneInString s = (r, size) ->
  (length (skipn (Z.to_nat size) s) < length s)%nat.
Proof.
  intros Hs Hd. pose proof (Decode_size s r size Hs Hd) as H.
  unfold len in H. rewrite length_skipn. lia.
Qed.

(** The runes a range yields depend neither on spare fuel nor on the
    offset the range starts from. *)
Lemma rangeFrom_runes (fuel : nat) :
  forall (fuel' : nat) (i i' : Z) (s : gostring),
    (length s <= fuel)%nat -> (length s <= fuel')%nat ->
    map snd (rangeFrom fuel i s) = map snd (rangeFrom fuel' i' s).
Proof.
  induction fuel as [|fuel IH]; intros fuel' i i' s Hf Hf'.
  - destruct s; [|cbn in Hf; lia]. rewrite !rangeFrom_nil. reflexivity.
  - destruct s as [|c s]; [rewrite !rangeFrom_nil; reflexivity|].
    destruct fuel' as [|fuel']; [cbn in Hf'; lia|].
    destruct (DecodeRuneInString (c :: s)) as [r size] eqn:Ed.
    assert (Hs : c :: s <> []) by discriminate.
    rewrite !(rangeFrom_cons _ _ _ r size Hs Ed). cbn [map snd].
    pose proof (length_skipn_size _ r size Hs Ed).
    f_equal. apply IH; lia.
Qed.

(** The first offset a range finds does not depend on spare fuel, and
    moves with the offset the range starts from. *)
Lemma firstWith_rangeFrom (f : Z -> bool) (truth : bool) (fuel : nat) :
  forall (fuel' : nat) (i i' : Z) (s : gostring),
    (length s <= fuel)%nat -> (length s <= fuel')%nat ->
    0 <= i -> 0 <= i' ->
    (firstWith f truth (rangeFrom fuel i s) = -1
     /\ firstWith f truth (rangeFrom fuel' i' s) = -1)
    \/ (i <= firstWith f truth (rangeFrom fuel i s)
        /\ firstWith f truth (rangeFrom fuel i s) - i
           = firstWith f truth (rangeFrom fuel' i' s) - i').
Proof.
  induction fuel as [|fuel IH]; intros fuel' i i' s Hf Hf' Hi Hi'.
  - destruct s; [|cbn in Hf; lia]. rewrite !rangeFrom_nil. left. tauto.
  - destruct s as [|c s]; [rewrite !rangeFrom_nil; left; tauto|].
    destruct fuel' as [|fuel']; [cbn in Hf'; lia|].
    destruct (DecodeRuneInString (c :: s)) as [r size] eqn:Ed.
    assert (Hs : c :: s <> []) by discriminate.
    rewrite !(rangeFrom_cons _ _ _ r size Hs Ed). cbn [firstWith].
    destruct (Bool.eqb (f r) truth); [right; lia|].
    pose proof (length_skipn_size _ r size Hs Ed).
    pose proof (Decode_size _ r size Hs Ed).
    destruct (IH fuel' (i + size) (i' + size)
                (skipn (Z.to_nat size) (c :: s))) as [H1|H1]; lia.
Qed.

(** ** Blank texts and trimming on the left *)

Lemma IsBlank_unfold (s : gostring) (r size : Z) :
  s <> [] -> DecodeRuneInString s = (r, size) ->
  misc.IsBlank s
  = unicode.IsSpace r && misc.IsBlank (skipn (Z.to_nat size) s).
Proof.
  intros Hs Hd. unfold misc.IsBlank, range.
  destruct s as [|c s]; [congruence|]. cbn [length].
  rewrite (rangeFrom_cons _ _ _ r size Hs Hd). cbn [map snd forallb].
  pose proof (length_skipn_size _ r size Hs Hd) as Hl. cbn [length] in Hl.
  f_equal. f_equal. apply rangeFrom_runes; lia.
Qed.

Lemma TrimLeft_unfold (s : gostring) (r size : Z) :
  s <> [] -> DecodeRuneInString s = (r, size) ->
  TrimLeftFunc s unicode.IsSpace
  = if unicode.IsSpace r
    then TrimLeftFunc (skipn (Z.to_nat size) s) unicode.IsSpace
    else s.
Proof.
  intros Hs Hd. unfold TrimLeftFunc, indexFunc, range.
  pose proof (length_skipn_size _ r size Hs Hd) as Hl.
  pose proof (Decode_size _ r size Hs Hd) as Hsz.
  destruct s as [|c s]; [congruence|]. cbn [length] in *.
  rewrite (rangeFrom_cons _ _ _ r size Hs Hd). cbn [firstWith].
  destruct (unicode.IsSpace r); cbn [Bool.eqb].
  - set (s' := skipn (Z.to_nat size) (c :: s)) in *.
    destruct (firstWith_rangeFrom unicode.IsSpace false (length s)
                (length s') (0 + size) 0 s') as [[H1 H2]|[H1 H2]]; try lia.
    + rewrite H1, H2. reflexivity.
    + set (x := firstWith unicode.IsSpace false
                  (rangeFrom (length s) (0 + size) s')) in *.
      set (x' := firstWith unicode.IsSpace false
                   (rangeFrom (length s') 0 s')) in *.
      replace (x =? -1) with false by lia.
      replace (x' =? -1) with false by lia.
      rewrite !sub_skipn by lia. unfold s'. rewrite skipn_skipn.
      f_equal. lia.
  - change (0 =? -1) with false. cbn iota. apply sub_all.
Qed.

Lemma TrimLeft_nil : TrimLeftFunc [] unicode.IsSpace = [].
Proof. reflexivity. Qed.

Lemma TrimLeft_ahead (s : gostring) :
  noSpaceAhead (TrimLeftFunc s unicode.IsSpace).
Proof.
  remember (length s) as n eqn:En. revert s En.
  induction n as [n IH] using lt_wf_ind. intros s En.
  destruct s as [|c s]; [left; reflexivity|].
  assert (Hs : c :: s <> []) by discriminate.
  destruct (DecodeRuneInString (c :: s)) as [r size] eqn:Ed.
  rewrite (TrimLeft_unfold _ r size Hs Ed).
  destruct (unicode.IsSpace r) eqn:Er.
  - pose proof (length_skipn_size _ r size Hs Ed) as Hl.
    apply (IH _ ltac:(subst n; exact Hl) _ eq_refl).
  - right. rewrite Ed. exact Er.
Qed.

Lemma TrimLeft_id (s : gostring) :
  noSpaceAhead s -> TrimLeftFunc s unicode.IsSpace = s.
Proof.
  intros [->|H]; [reflexivity|].
  destruct s as [|c s]; [reflexivity|].
  destruct (DecodeRuneInString (c :: s)) as [r size] eqn:Ed.
  assert (Hs : c :: s <> []) by discriminate.
  rewrite (TrimLeft_unfold _ r size Hs Ed).
  cbn [fst] in H. rewrite H. reflexivity.
Qed.

(** A text is blank exactly when trimming it on the left leaves
    nothing. *)
Lemma IsBlank_TrimLeft (s : gostring) :
  misc.IsBlank s = true <-> TrimLeftFunc s unicode.IsSpace = [].
Proof.
  remember (length s) as n eqn:En. revert s En.
  induction n as [n IH] using lt_wf_ind. intros s En.
  destruct s as [|c s]; [split; reflexivity|].
  assert (Hs : c :: s <> []) by discriminate.
  destruct (DecodeRuneInString (c :: s)) as [r size] eqn:Ed.
  rewrite (TrimLeft_unfold _ r size Hs Ed), (IsBlank_unfold _ r size Hs Ed).
  destruct (unicode.IsSpace r) eqn:Er; cbn [andb].
  - pose proof (length_skipn_size _ r size Hs Ed) as Hl.
    apply (IH _ ltac:(subst n; exact Hl) _ eq_refl).
  - split; discriminate.
Qed.

Lemma IsBlank_ahead (s : gostring) :
  noSpaceAhead s -> s <> [] -> misc.IsBlank s = false.
Proof.
  intros [->|H] Hs; [congruence|].
  destruct (DecodeRuneInString s) as [r size] eqn:Ed.
  rewrite (IsBlank_unfold _ r size Hs Ed). cbn [fst] in H. rewrite H.
  reflexivity.
Qed.

Lemma asciiSpace_IsSpace (c : Z) :
  0 <= c < 128 -> unicode.IsSpace c = asciiSpace c.
Proof.
  intros Hc. unfold unicode.IsSpace, asciiSpace, unicode.MaxLatin1.
  replace ((0 <=? c) && (c <=? 255)) with true by lia.
  replace (c =? 133) with false by lia.
  replace (c =? 160) with false by lia.
  rewrite !orb_false_r. reflexivity.
Qed.

(** ** Trimming on the right *)

Lemma allSpaces_clean (z : gostring) : allSpaces z -> startsClean z.
Proof.
  intros H. destruct H as [|w z r Hw Hd Hr _]; [exact I|].
  assert (Hc : startsClean w).
  { apply Decode_space_start; [exact Hw|]. rewrite Hd. exact Hr. }
  destruct w as [|c w]; [congruence|]. exact Hc.
Qed.

(** Texts made of whitespace begin with whitespace. *)
Lemma allSpaces_ahead (z : gostring) :
  allSpaces z -> z <> [] ->
  unicode.IsSpace (fst (DecodeRuneInString z)) = true.
Proof.
  intros H Hz. destruct H as [|w z r Hw Hd Hr Hrest]; [congruence|].
  rewrite Decode_app by (try exact Hw; apply allSpaces_clean; exact Hrest).
  rewrite Hd. exact Hr.
Qed.

Lemma lastIndexLoop_stripPos (s : gostring) (fuel : nat) :
  forall i,
    lastIndexLoop fuel s unicode.IsSpace false i
    = let e := stripPos fuel s i in
      if e =? 0 then -1
      else e - snd (DecodeLastRuneInString (sub s 0 e)).
Proof.
  induction fuel as [|fuel IH]; intros i; [reflexivity|].
  cbn [lastIndexLoop stripPos].
  destruct (0 <? i) eqn:Hi; [|reflexivity].
  destruct (DecodeLastRuneInString (sub s 0 i)) as [r size] eqn:Ed.
  destruct (unicode.IsSpace r) eqn:Er; cbn [Bool.eqb].
  - apply IH.
  - cbv zeta. replace (i =? 0) with false by lia. rewrite Ed. reflexivity.
Qed.

(** The backward scan stops at the end of the last rune that is not
    whitespace; what lies behind is whitespace. *)
Lemma stripPos_inv (s : gostring) (fuel : nat) :
  forall i,
    0 <= i <= len s -> i <= Z.of_nat fuel ->
    allSpaces (sub s i (len s)) ->
    let e := stripPos fuel s i in
    0 <= e <= i
    /\ allSpaces (sub s e (len s))
    /\ (e = 0
        \/ (0 < e
            /\ unicode.IsSpace (fst (DecodeLastRuneInString (sub s 0 e)))
               = false)).
Proof.
  induction fuel as [|fuel IH]; intros i Hi Hf Hz; cbv zeta.
  - assert (i = 0) by lia. subst i. cbn. tauto.
  - cbn [stripPos]. destruct (0 <? i) eqn:Hpos.
    2: { assert (i = 0) by lia. subst i. tauto. }
    assert (Hp : sub s 0 i <> []) by (apply sub_nonempty; lia).
    assert (Hlp : len (sub s 0 i) = i) by (rewrite len_sub; lia).
    destruct (DecodeLastRuneInString (sub s 0 i)) as [r k] eqn:Ed.
    destruct (unicode.IsSpace r) eqn:Er.
    2: { split; [lia|]. split; [exact Hz|]. right. split; [lia|].
         rewrite Ed. exact Er. }
    assert (Hw : 1 <= k <= i
                 /\ DecodeRuneInString (sub s (i - k) i) = (r, k)).
    { destruct (DecodeLast_shape _ Hp)
        as [[H0 E]|[[_ E]|(_ & r' & k' & E & Hk & Hd)]];
        rewrite Ed in E; injection E as -> ->.
      - split; [lia|]. rewrite Hlp in *.
        rewrite at_sub in * by lia.
        assert (Hne : sub s (i - 1) i <> []) by (apply sub_nonempty; lia).
        destruct (sub s (i - 1) i) as [|c w] eqn:Ew; [congruence|].
        assert (Hc : byteval c = at_ s (0 + (i - 1))).
        { replace (0 + (i - 1)) with (i - 1 + 0) by lia.
          rewrite <- (at_sub s (i - 1) i 0) by lia. rewrite Ew.
          reflexivity. }
        assert (Hlw : len (c :: w) = 1)
          by (rewrite <- Ew, len_sub; lia).
        rewrite len_cons in Hlw.
        assert (w = []) by (apply len_zero; lia). subst w.
        rewrite Decode_ascii by lia. rewrite Hc. reflexivity.
      - discriminate Er.
      - rewrite Hlp in *. split; [lia|].
        rewrite sub_sub in Hd by lia. exact Hd. }
    destruct Hw as [Hk Hd].
    assert (Hz' : allSpaces (sub s (i - k) (len s))).
    { rewrite <- (sub_split s (i - k) i (len s)) by lia.
      apply (allSpaces_rune _ _ r).
      - apply sub_nonempty; lia.
      - rewrite len_sub by lia. replace (i - (i - k)) with k by lia.
        exact Hd.
      - exact Er.
      - exact Hz. }
    destruct (IH (i - k) ltac:(lia) ltac:(lia) Hz') as (H1 & H2 & H3).
    split; [lia|]. split; [exact H2 | exact H3].
Qed.

Lemma stripPos_end (s : gostring) :
  let e := stripPos (length s) s (len s) in
  0 <= e <= len s
  /\ allSpaces (sub s e (len s))
  /\ (e = 0
      \/ (0 < e
          /\ unicode.IsSpace (fst (DecodeLastRuneInString (sub s 0 e)))
             = false)).
Proof.
  apply stripPos_inv.
  - pose proof (len_nonneg s). lia.
  - unfold len. lia.
  - rewrite sub_empty. constructor.
Qed.

(** [TrimRightFunc] cuts the text where the backward scan stops. *)
Lemma TrimRight_strip (s : gostring) :
  TrimRightFunc s unicode.IsSpace
  = sub s 0 (stripPos (length s) s (len s)).
Proof.
  unfold TrimRightFunc, lastIndexFunc. rewrite lastIndexLoop_stripPos.
  pose proof (stripPos_end s) as H. cbv zeta in H |- *.
  set (e := stripPos (length s) s (len s)) in *.
  destruct H as (He & Hz & [H0|[Hpos Hns]]).
  - rewrite H0. reflexivity.
  - replace (e =? 0) with false by lia.
    assert (Hp : sub s 0 e <> []) by (apply sub_nonempty; lia).
    assert (Hlp : len (sub s 0 e) = e) by (rewrite len_sub; lia).
    pose proof (allSpaces_clean _ Hz) as Hc.
    f_equal.
    destruct (DecodeLast_shape _ Hp)
      as [[H0 E]|[[H0 E]|(H0 & r & k & E & Hk & Hd)]];
      rewrite Hlp in *; rewrite at_sub in H0 by lia;
      replace (0 + (e - 1)) with (e - 1) in H0 by lia;
      rewrite E; cbn [snd].
    + replace ((0 <=? e - 1) && (RuneSelf <=? at_ s (e - 1))) with false
        by (unfold RuneSelf; lia).
      lia.
    + replace ((0 <=? e - 1) && (RuneSelf <=? at_ s (e - 1))) with true
        by (unfold RuneSelf; lia).
      rewrite <- (sub_split s (e - 1) e (len s)) by lia.
      assert (Hy : sub s (e - 1) e <> []) by (apply sub_nonempty; lia).
      rewrite Decode_app by assumption.
      destruct (Decode_shape _ Hy)
        as [[H1 _]|[[_ E1]|(r' & sz & _ & Hsz & Hl & _)]].
      * rewrite at_sub in H1 by lia.
        replace (e - 1 + 0) with (e - 1) in H1 by lia. lia.
      * rewrite E1. lia.
      * rewrite len_sub in Hl by lia. lia.
    + rewrite sub_sub in Hd by lia.
      assert (Hy : sub s (e - k) e <> []) by (apply sub_nonempty; lia).
      assert (H194 : 128 <= at_ s (e - k)).
      { destruct (Decode_shape _ Hy)
          as [[_ E1]|[[_ E1]|(r' & sz & _ & _ & _ & H194 & _)]].
        - rewrite Hd in E1. injection E1 as _ E1. lia.
        - rewrite Hd in E1. injection E1 as _ E1. lia.
        - rewrite at_sub in H194 by lia.
          replace (e - k + 0) with (e - k) in H194 by lia. lia. }
      replace ((0 <=? e - k) && (RuneSelf <=? at_ s (e - k))) with true
        by (unfold RuneSelf; lia).
      rewrite <- (sub_split s (e - k) e (len s)) by lia.
      rewrite Decode_app by assumption. rewrite Hd. lia.
Qed.

Lemma TrimRight_behind (s : gostring) :
  noSpaceBehind (TrimRightFunc s unicode.IsSpace).
Proof.
  rewrite TrimRight_strip. pose proof (stripPos_end s) as H.
  cbv zeta in H. destruct H as (He & _ & [H0|[_ Hns]]).
  - left. rewrite H0. apply sub_empty.
  - right. exact Hns.
Qed.

Lemma TrimRight_id (s : gostring) :
  noSpaceBehind s -> TrimRightFunc s unicode.IsSpace = s.
Proof.
  intros [->|H]; [reflexivity|].
  rewrite TrimRight_strip.
  destruct s as [|c s]; [reflexivity|].
  cbn [length stripPos].
  replace (0 <? len (c :: s)) with true
    by (rewrite len_cons; pose proof (len_nonneg s); lia).
  rewrite sub_all.
  destruct (DecodeLastRuneInString (c :: s)) as [r k].
  cbn [fst] in H. rewrite H. apply sub_all.
Qed.

(** Trimming on the right keeps what a text begins with. *)
Lemma TrimRight_ahead (s : gostring) :
  noSpaceAhead s -> noSpaceAhead (TrimRightFunc s unicode.IsSpace).
Proof.
  intros Hs. rewrite TrimRight_strip. pose proof (stripPos_end s) as H.
  cbv zeta in H. set (e := stripPos (length s) s (len s)) in *.
  destruct H as (He & Hz & _).
  destruct (sub s 0 e) as [|c x] eqn:Ex; [left; reflexivity|].
  right. rewrite <- Ex.
  assert (Es : s = sub s 0 e ++ sub s e (len s))
    by (rewrite sub_split by lia; symmetry; apply sub_all).
  assert (Hd : DecodeRuneInString s = DecodeRuneInString (sub s 0 e)).
  { rewrite Es at 1. apply Decode_app;
      [rewrite Ex; discriminate | apply allSpaces_clean, Hz]. }
  destruct Hs as [Hs|Hs].
  - exfalso. rewrite Hs in Ex. unfold sub in Ex.
    rewrite skipn_nil, firstn_nil in Ex. discriminate Ex.
  - rewrite <- Hd. exact Hs.
Qed.

Lemma TrimRight_nonempty (s : gostring) :
  noSpaceAhead s -> s <> [] -> TrimRightFunc s unicode.IsSpace <> [].
Proof.
  intros Hs Hne. rewrite TrimRight_strip. pose proof (stripPos_end s) as H.
  cbv zeta in H. set (e := stripPos (length s) s (len s)) in *.
  destruct H as (He & Hz & _).
  assert (He0 : e <> 0).
  { intros E0. rewrite E0, sub_all in Hz.
    pose proof (allSpaces_ahead s Hz Hne) as Ha.
    destruct Hs as [Hs|Hs]; congruence. }
  apply sub_nonempty; lia.
Qed.

(** ** TrimSpace *)

Lemma len_snoc (x : gostring) (c : ascii) : len (x ++ [c]) = len x + 1.
Proof. rewrite len_app. reflexivity. Qed.

Lemma DecodeLast_ascii (x : gostring) (c : ascii) :
  byteval c < 128 -> DecodeLastRuneInString (x ++ [c]) = (byteval c, 1).
Proof.
  intros Hc.
  assert (Hp : x ++ [c] <> []) by (destruct x; discriminate).
  assert (Ha : at_ (x ++ [c]) (len (x ++ [c]) - 1) = byteval c).
  { rewrite len_snoc.
    replace (len x + 1 - 1) with (len x) by lia. apply at_app_head. }
  destruct (DecodeLast_shape _ Hp) as [[_ E]|[[H _]|[H _]]];
    rewrite Ha in *; [exact E | lia | lia].
Qed.

Lemma sub_app_l (x z : gostring) (i : Z) :
  i <= len x -> sub (x ++ z) 0 i = sub x 0 i.
Proof.
  intros Hi. rewrite !sub_firstn, firstn_app.
  replace (Z.to_nat i - length x)%nat with 0%nat by (unfold len in Hi; lia).
  cbn [firstn]. apply app_nil_r.
Qed.

Lemma stripPos_app (x z : gostring) (fuel : nat) :
  forall i, 0 <= i <= len x ->
            stripPos fuel (x ++ z) i = stripPos fuel x i.
Proof.
  induction fuel as [|fuel IH]; intros i Hi; [reflexivity|].
  cbn [stripPos]. destruct (0 <? i) eqn:Hpos; [|reflexivity].
  rewrite sub_app_l by lia.
  destruct (DecodeLastRuneInString (sub x 0 i)) as [r k] eqn:Ed.
  destruct (unicode.IsSpace r); [|reflexivity].
  assert (Hp : sub x 0 i <> []) by (apply sub_nonempty; lia).
  pose proof (DecodeLast_size _ r k Hp Ed) as Hk.
  rewrite len_sub in Hk by lia. apply IH. lia.
Qed.

Lemma stripPos_le (s : gostring) (fuel : nat) :
  forall i, 0 <= i -> 0 <= stripPos fuel s i <= i.
Proof.
  induction fuel as [|fuel IH]; intros i Hi; cbn [stripPos]; [lia|].
  destruct (0 <? i) eqn:Hpos; [|lia].
  destruct (DecodeLastRuneInString (sub s 0 i)) as [r k] eqn:Ed.
  destruct (unicode.IsSpace r); [|lia].
  destruct (Z.le_gt_cases i (len s)) as [Hle|Hgt].
  - assert (Hp : sub s 0 i <> []) by (apply sub_nonempty; lia).
    pose proof (DecodeLast_size _ r k Hp Ed) as Hk.
    rewrite len_sub in Hk by lia. specialize (IH (i - k)). lia.
  - destruct s as [|c s].
    + unfold sub in Ed. rewrite skipn_nil, firstn_nil in Ed.
      cbn in Ed. injection Ed as <- <-.
      specialize (IH (i - 0)). lia.
    + assert (Hp : sub (c :: s) 0 i <> []).
      { rewrite sub_firstn. destruct (Z.to_nat i) eqn:E; [lia|].
        discriminate. }
      pose proof (DecodeLast_size _ r k Hp Ed) as Hk.
      assert (Hl : len (sub (c :: s) 0 i) <= i).
      { rewrite sub_firstn. unfold len. rewrite length_firstn. lia. }
      specialize (IH (i - k)). lia.
Qed.

(** A trailing ASCII space falls to [TrimRightFunc]. *)
Lemma TrimRight_snoc_space (x : gostring) (c : ascii) :
  byteval c < 128 -> asciiSpace (byteval c) = true ->
  TrimRightFunc (x ++ [c]) unicode.IsSpace
  = TrimRightFunc x unicode.IsSpace.
Proof.
  intros Hc Hsp. rewrite !TrimRight_strip.
  rewrite length_app, Nat.add_comm. cbn [length Nat.add stripPos].
  pose proof (len_nonneg x) as Hx.
  rewrite len_snoc. replace (0 <? len x + 1) with true by lia.
  rewrite <- (len_snoc x c), sub_all, DecodeLast_ascii by exact Hc.
  rewrite asciiSpace_IsSpace by (pose proof (byteval_range c); lia).
  rewrite Hsp.
  replace (len (x ++ [c]) - 1) with (len x) by (rewrite len_snoc; lia).
  rewrite stripPos_app by lia.
  apply sub_app_l. pose proof (stripPos_le x (length x) (len x) Hx). lia.
Qed.

Lemma firstn_S_nth (u : gostring) (k : nat) :
  (k < length u)%nat -> firstn (S k) u = firstn k u ++ [nth k u zero].
Proof.
  revert u. induction k as [|k IH]; intros u Hk.
  - destruct u; [cbn in Hk; lia | reflexivity].
  - destruct u as [|c u]; [cbn in Hk; lia|].
    change (firstn (S (S k)) (c :: u)) with (c :: firstn (S k) u).
    rewrite IH by (cbn in Hk; lia). reflexivity.
Qed.

(** The fast path of [TrimSpace] from the right agrees with
    [TrimRightFunc]. *)
Lemma trimStop_TrimRight (u : gostring) (k : nat) :
  (k <= length u)%nat ->
  trimStop k u = TrimRightFunc (firstn k u) unicode.IsSpace.
Proof.
  induction k as [|k IH]; intros Hk; [reflexivity|].
  cbn [trimStop]. unfold RuneSelf.
  destruct (128 <=? at_ u (Z.of_nat k)) eqn:Hhigh; [reflexivity|].
  assert (Ha : at_ u (Z.of_nat k) = byteval (nth k u zero)).
  { unfold at_. rewrite of_nat_not_neg, Nat2Z.id. reflexivity. }
  rewrite firstn_S_nth by lia. rewrite Ha in *.
  destruct (asciiSpace (byteval (nth k u zero))) eqn:Hsp.
  - rewrite TrimRight_snoc_space by (try exact Hsp; lia).
    apply IH. lia.
  - symmetry. apply TrimRight_id. right.
    rewrite DecodeLast_ascii by lia. cbn [fst].
    rewrite asciiSpace_IsSpace
      by (pose proof (byteval_range (nth k u zero)); lia).
    exact Hsp.
Qed.

(** [TrimSpace] is trimming on the left, then on the right: its ASCII
    fast paths change nothing. *)
Lemma TrimSpace_TrimFunc (s : gostring) :
  TrimSpace s = TrimFunc s unicode.IsSpace.
Proof.
  unfold TrimFunc. induction s as [|c s IH]; [reflexivity|].
  cbn [TrimSpace]. unfold RuneSelf.
  destruct (128 <=? byteval c) eqn:Hhigh; [reflexivity|].
  assert (Hs : c :: s <> []) by discriminate.
  assert (Hd : DecodeRuneInString (c :: s) = (byteval c, 1))
    by (apply Decode_ascii; lia).
  pose proof (asciiSpace_IsSpace (byteval c)
                ltac:(pose proof (byteval_range c); lia)) as Hsp.
  rewrite (TrimLeft_unfold _ _ _ Hs Hd), Hsp.
  destruct (asciiSpace (byteval c)).
  - exact IH.
  - rewrite trimStop_TrimRight by lia. rewrite firstn_all. reflexivity.
Qed.

Lemma TrimSpace_idem (s : gostring) : TrimSpace (TrimSpace s) = TrimSpace s.
Proof.
  rewrite !TrimSpace_TrimFunc. unfold TrimFunc.
  set (t := TrimRightFunc (TrimLeftFunc s unicode.IsSpace) unicode.IsSpace).
  assert (Ha : noSpaceAhead t)
    by (apply TrimRight_ahead, TrimLeft_ahead).
  assert (Hb : noSpaceBehind t) by apply TrimRight_behind.
  rewrite (TrimLeft_id t Ha). apply TrimRight_id. exact Hb.
Qed.

Lemma IsBlank_TrimSpace (s : gostring) :
  misc.IsBlank (TrimSpace s) = misc.IsBlank s.
Proof.
  rewrite TrimSpace_TrimFunc. unfold TrimFunc.
  destruct (misc.IsBlank s) eqn:Eb.
  - apply IsBlank_TrimLeft in Eb. rewrite Eb. reflexivity.
  - apply IsBlank_ahead.
    + apply TrimRight_ahead, TrimLeft_ahead.
    + apply TrimRight_nonempty; [apply TrimLeft_ahead|].
      intros E. apply IsBlank_TrimLeft in E. congruence.
Qed.

(** Blank is: nothing is left after trimming.  The two ways of telling a
    text "all-whitespace or empty" agree. *)
Lemma IsBlank_iff_TrimSpace_empty (s : gostring) :
  misc.IsBlank s = true <-> TrimSpace s = [].
Proof.
  rewrite TrimSpace_TrimFunc. unfold TrimFunc. split.
  - intros H. apply IsBlank_TrimLeft in H. rewrite H. reflexivity.
  - intros H. destruct (misc.IsBlank s) eqn:Eb; [reflexivity|].
    exfalso. revert H. apply TrimRight_nonempty; [apply TrimLeft_ahead|].
    intros E. apply IsBlank_TrimLeft in E. congruence.
Qed.

End Trimming.

(** ** Case folding against the canonical names *)

Section Folding.
Import utf8.

Lemma high_firstn (s : gostring) (k : nat) :
  (forall i, 0 <= i < Z.of_nat k -> 128 <= at_ s i) ->
  (k <= length s)%nat ->
  Forall letterOrHigh (firstn k s).
Proof.
  revert s. induction k as [|k IH]; intros s Hh Hk; [constructor|].
  destruct s as [|c s]; [cbn in Hk; lia|].
  cbn [firstn]. constructor.
  - unfold letterOrHigh. right. right.
    specialize (Hh 0 ltac:(lia)). exact Hh.
  - apply IH; [|cbn in Hk; lia]. intros i Hi.
    specialize (Hh (i + 1) ltac:(lia)).
    rewrite at_cons_S in Hh by lia. exact Hh.
Qed.

(** One round of the rune loop of [EqualFold] against an upper-case
    ASCII letter: the rune is a letter or is not ASCII. *)
Lemma equalFoldRunes_cons (r : Z) (rs : list Z) (d : ascii) (t : gostring) :
  65 <= byteval d <= 90 ->
  equalFoldRunes (r :: rs) (d :: t) = true ->
  equalFoldRunes rs t = true
  /\ (128 <= r \/ 65 <= r <= 90 \/ 97 <= r <= 122).
Proof.
  intros Hd. cbn [equalFoldRunes].
  replace (len (d :: t) =? 0) with false
    by (rewrite len_cons; pose proof (len_nonneg t); lia).
  rewrite at_cons_0. unfold RuneSelf.
  replace (byteval d <? 128) with true by lia.
  cbn [skipn].
  destruct (byteval d =? r) eqn:E1; [intros H; split; [exact H|lia]|].
  destruct (byteval d <? r) eqn:E2.
  - destruct (r <? 128) eqn:E3.
    + destruct ((65 <=? byteval d) && (byteval d <=? 90)
                && (r =? byteval d + 97 - 65)) eqn:E4;
        [|discriminate].
      intros H. split; [exact H|lia].
    + destruct (foldUpTo _ _ _ _ =? r); [|discriminate].
      intros H. split; [exact H|lia].
  - replace (byteval d <? 128) with true by lia.
    destruct ((65 <=? r) && (r <=? 90) && (byteval d =? r + 97 - 65)) eqn:E4;
      [|discriminate].
    intros H. split; [exact H|lia].
Qed.

Lemma equalFoldRunes_nil_r (r : Z) (rs : list Z) :
  equalFoldRunes (r :: rs) [] = false.
Proof. reflexivity. Qed.

Lemma range_cons (s : gostring) (r size : Z) :
  s <> [] -> DecodeRuneInString s = (r, size) ->
  map snd (range s) = r :: map snd (range (skipn (Z.to_nat size) s)).
Proof.
  intros Hs Hd. unfold range.
  pose proof (length_skipn_size _ r size Hs Hd) as Hl.
  destruct s as [|c s]; [congruence|]. cbn [length] in *.
  rewrite (rangeFrom_cons _ _ _ r size Hs Hd). cbn [map snd].
  f_equal. apply rangeFrom_runes; lia.
Qed.

(** Runes that fold to upper-case ASCII letters are written with letters
    and bytes that are not ASCII. *)
Lemma equalFoldRunes_letters (s : gostring) :
  forall t,
    Forall (fun d => 65 <= byteval d <= 90) t ->
    equalFoldRunes (map snd (range s)) t = true ->
    Forall letterOrHigh s.
Proof.
  remember (length s) as n eqn:En. revert s En.
  induction n as [n IH] using lt_wf_ind. intros s En t Ht He.
  destruct s as [|c s]; [constructor|].
  assert (Hs : c :: s <> []) by discriminate.
  destruct (DecodeRuneInString (c :: s)) as [r size] eqn:Ed.
  rewrite (range_cons _ r size Hs Ed) in He.
  destruct t as [|d t]; [discriminate He|].
  inversion Ht as [|? ? Hd Ht']; subst.
  apply equalFoldRunes_cons in He; [|exact Hd].
  destruct He as [He Hr].
  pose proof (length_skipn_size _ r size Hs Ed) as Hl.
  pose proof (IH _ Hl _ eq_refl t Ht' He) as Hrest.
  pose proof (Decode_size _ r size Hs Ed) as Hsz.
  rewrite <- (firstn_skipn (Z.to_nat size) (c :: s)).
  apply Forall_app. split; [|exact Hrest].
  destruct (Decode_shape _ Hs)
    as [[H0 E]|[[H0 E]|(r' & sz & E & Hsz' & Hlen & H194 & Hb)]];
    rewrite Ed in E; injection E as -> ->.
  - cbn. constructor; [|constructor]. unfold letterOrHigh.
    rewrite at_cons_0 in *. lia.
  - cbn. constructor; [|constructor]. unfold letterOrHigh.
    rewrite at_cons_0 in *. lia.
  - apply high_firstn; [|unfold len in *; lia].
    intros i Hi. destruct (Z.eq_dec i 0) as [->|Hne]; [lia|].
    specialize (Hb i ltac:(lia)). lia.
Qed.

Lemma EqualFold_letters (s : gostring) :
  forall t,
    Forall (fun d => 65 <= byteval d <= 90) t ->
    EqualFold s t = true ->
    Forall letterOrHigh s.
Proof.
  induction s as [|c s IH]; intros t Ht He; [constructor|].
  destruct t as [|d t].
  - cbn in He. discriminate He.
  - inversion Ht as [|? ? Hd Ht']; subst.
    cbn [EqualFold] in He. unfold RuneSelf in He.
    destruct (128 <=? Z.lor (byteval c) (byteval d)).
    { apply (equalFoldRunes_letters _ _ Ht He). }
    destruct (byteval d =? byteval c) eqn:E1.
    { constructor; [unfold letterOrHigh; lia | apply (IH t Ht' He)]. }
    destruct (byteval d <? byteval c) eqn:E2.
    + destruct ((65 <=? byteval d) && (byteval d <=? 90)
                && (byteval c =? byteval d + 97 - 65)) eqn:E4;
        [|discriminate].
      constructor; [unfold letterOrHigh; lia | apply (IH t Ht' He)].
    + destruct ((65 <=? byteval c) && (byteval c <=? 90)
                && (byteval d =? byteval c + 97 - 65)) eqn:E4;
        [|discriminate].
      constructor; [unfold letterOrHigh; lia | apply (IH t Ht' He)].
Qed.

Lemma canonical_upper (v : gostring) :
  In v canonicalNames -> Forall (fun d => 65 <= byteval d <= 90) v.
Proof.
  intros Hv. cbn in Hv.
  destruct Hv as [<-|[<-|[<-|[<-|[<-|[<-|[]]]]]]];
    repeat constructor; cbn; lia.
Qed.

(** The walk of the fold orbit of an upper-case ASCII letter reaches a
    rune that is not ASCII in two cases only: the long s (U+017F) from S
    and the Kelvin sign (U+212A) from K. *)
Lemma foldUpTo_upper (sr tr : Z) :
  65 <= sr <= 90 -> 128 <= tr ->
  foldUpTo 4 sr tr (unicode.SimpleFold sr) = tr
  <-> (sr = 83 /\ tr = 383) \/ (sr = 75 /\ tr = 8490).
Proof.
  intros Hsr Htr.
  assert (Hup : unicode.SimpleFold sr = sr + 32).
  { unfold unicode.SimpleFold, unicode.MaxRune, unicode.MaxASCII.
    replace ((sr <? 0) || (1114111 <? sr)) with false by lia.
    replace (sr <=? 127) with true by lia.
    replace ((65 <=? sr) && (sr <=? 90)) with true by lia. reflexivity. }
  rewrite Hup. cbn [foldUpTo].
  replace (negb (sr + 32 =? sr) && (sr + 32 <? tr)) with true by lia.
  destruct (Z.eq_dec sr 83) as [->|H83].
  - change (unicode.SimpleFold (83 + 32)) with 383.
    change (negb (383 =? 83)) with true. cbn [andb].
    destruct (383 <? tr) eqn:E.
    + change (unicode.SimpleFold 383) with 83.
      change (negb (83 =? 83)) with false. cbn [andb]. lia.
    + lia.
  - destruct (Z.eq_dec sr 75) as [->|H75].
    + change (unicode.SimpleFold (75 + 32)) with 8490.
      change (negb (8490 =? 75)) with true. cbn [andb].
      destruct (8490 <? tr) eqn:E.
      * change (unicode.SimpleFold 8490) with 75.
        change (negb (75 =? 75)) with false. cbn [andb]. lia.
      * lia.
    + assert (Hlow : unicode.SimpleFold (sr + 32) = sr).
      { unfold unicode.SimpleFold, unicode.MaxRune, unicode.MaxASCII.
        replace ((sr + 32 <? 0) || (1114111 <? sr + 32)) with false by lia.
        replace (sr + 32 <=? 127) with true by lia.
        replace ((65 <=? sr + 32) && (sr + 32 <=? 90)) with false by lia.
        replace (sr + 32 =? 107) with false by lia.
        replace (sr + 32 =? 115) with false by lia.
        replace ((97 <=? sr + 32) && (sr + 32 <=? 122)) with true by lia.
        f_equal. lia. }
      rewrite Hlow. replace (negb (sr =? sr)) with false
        by (rewrite Z.eqb_refl; reflexivity).
      cbn [andb]. lia.
Qed.

(** A name that resolves equals a canonical name under case folding. *)
Lemma lookup_match (t : gostring) :
  lookup t <> 0 ->
  exists v, In v canonicalNames /\ EqualFold t v = true.
Proof.
  unfold lookup, canonicalNames, _hintTypes. cbn [lookupFrom tl].
  destruct (EqualFold t (lit "")); [intros H; exfalso; apply H; reflexivity|].
  destruct (EqualFold t (lit "MASTER")) eqn:E1;
    [intros _; exists (lit "MASTER"); cbn; tauto|].
  destruct (EqualFold t (lit "SLAVE")) eqn:E2;
    [intros _; exists (lit "SLAVE"); cbn; tauto|].
  destruct (EqualFold t (lit "ROUTE")) eqn:E3;
    [intros _; exists (lit "ROUTE"); cbn; tauto|].
  destruct (EqualFold t (lit "FULLSCAN")) eqn:E4;
    [intros _; exists (lit "FULLSCAN"); cbn; tauto|].
  destruct (EqualFold t (lit "DIRECT")) eqn:E5;
    [intros _; exists (lit "DIRECT"); cbn; tauto|].
  destruct (EqualFold t (lit "TRACE")) eqn:E6;
    [intros _; exists (lit "TRACE"); cbn; tauto|].
  intros H. exfalso. apply H. reflexivity.
Qed.

(** A name that resolves is written with letters and bytes that are not
    ASCII; it has no parenthesis. *)
Lemma lookup_letterOrHigh (tpStr : gostring) :
  lookup tpStr <> 0 -> Forall letterOrHigh tpStr.
Proof.
  intros H. destruct (lookup_match tpStr H) as (v & Hv & He).
  apply (EqualFold_letters tpStr v (canonical_upper v Hv) He).
Qed.

End Folding.

(** ** The rounds of Scan *)

Section ScannerRounds.
Import bufio.

Lemma scanLoop_round (fuel : nat) (s : Scanner) :
  scanLoop (S fuel) s
  = match round s with
    | inl res => res
    | inr s' => scanLoop fuel s'
    end.
Proof.
  unfold round, refill. cbn [scanLoop].
  destruct (tryToken s) as [res|s1]; [reflexivity|].
  destruct (isSome (err s1)); [reflexivity|].
  match goal with |- context [if (end_ ?x =? bufLen ?x) then _ else _] =>
    destruct (end_ x =? bufLen x) end; [|reflexivity].
  match goal with |- context [if ?c then Ret _ else _] => destruct c end;
    reflexivity.
Qed.

Lemma skipn_len_app (a b : gostring) (n : Z) :
  n = len a -> skipn (Z.to_nat n) (a ++ b) = b.
Proof.
  intros ->. unfold len. rewrite Nat2Z.id, skipn_app, skipn_all, Nat.sub_diag.
  reflexivity.
Qed.

Lemma skipn_len (s : gostring) : skipn (Z.to_nat (len s)) s = [].
Proof. unfold len. rewrite Nat2Z.id. apply skipn_all. Qed.

(** What the first part of a round does, by the first comma of the window. *)
Lemma tryToken_cut (st : Scanner) :
  split st = scanComma ->
  tryToken st
  = if (0 <? len (held st)) || isSome (err st) then
      match cutComma (held st) with
      | Some (a, b) =>
          inl (Ret (true,
                    with_empties
                      (with_token
                         (with_buf st (bufLen st) (start st + (len a + 1)) b)
                         (Some a)) 0))
      | None =>
          if isSome (err st) then
            match held st with
            | [] => inr (with_token
                           (with_buf st (bufLen st) (start st + 0) []) None)
            | _ :: _ =>
                inl (Ret (true,
                          with_empties
                            (with_token
                               (with_buf st (bufLen st)
                                  (start st + len (held st)) [])
                               (Some (held st))) 0))
            end
          else inr (with_token
                      (with_buf st (bufLen st) (start st + 0) (held st)) None)
      end
    else inr st.
Proof.
  destruct st as [rd sp mx tk bl st0 hd er em dn].
  cbn [split held err start bufLen].
  intros ->. unfold tryToken, end_. cbn [split held err start bufLen].
  rewrite scanComma_cut.
  replace (st0 <? st0 + len hd) with (0 <? len hd) by lia.
  destruct ((0 <? len hd) || isSome er) eqn:Hc; [|reflexivity].
  pose proof (len_nonneg hd) as Hh.
  destruct (cutComma hd) as [[a b]|] eqn:Ec.
  - apply cutComma_Some in Ec. destruct Ec as [Eh _].
    pose proof (len_nonneg a) as Ha. pose proof (len_nonneg b) as Hb.
    unfold advance, end_. cbn [split held err start bufLen].
    replace (len a + 1 <? 0) with false by lia.
    assert (El : len hd = len a + 1 + len b)
      by (rewrite Eh, len_app, len_cons; lia).
    replace (st0 + len hd - st0 <? len a + 1) with false by lia.
    cbn [negb with_buf with_token split held err start bufLen].
    replace (0 <? len a + 1) with true by lia. rewrite orb_true_r.
    rewrite Eh.
    replace (a ++ "," %char :: b) with ((a ++ [","%char]) ++ b)
      by (rewrite <- app_assoc; reflexivity).
    rewrite skipn_len_app by (rewrite len_app, len_cons, len_nil; lia).
    reflexivity.
  - destruct (isSome er) eqn:Ee.
    + destruct hd as [|c h].
      * unfold advance, end_. cbn [split held err start bufLen].
        change (len (@nil ascii)) with 0.
        replace (st0 + 0 - st0 <? 0) with false by lia. reflexivity.
      * unfold advance, end_. cbn [split held err start bufLen].
        replace (len (c :: h) <? 0) with false by lia.
        replace (st0 + len (c :: h) - st0 <? len (c :: h)) with false by lia.
        cbn [negb with_buf with_token split held err start bufLen].
        rewrite Ee. cbn [negb orb].
        replace (0 <? len (c :: h)) with true
          by (rewrite len_cons; pose proof (len_nonneg h); lia).
        rewrite skipn_len. reflexivity.
    + unfold advance, end_. cbn [split held err start bufLen].
      replace (st0 + len hd - st0 <? 0) with false by lia.
      reflexivity.
Qed.

Lemma readLoop_S (k : nat) (loop : Z) (s : Scanner) :
  readLoop (S k) loop s
  = let room := bufLen s - end_ s in
    let '(n, e, data, rest) := Read (r s) room in
    if (n <? 0) || (room <? n) then setErr s ErrBadReadCount
    else
      let s :=
        with_r (with_buf s (bufLen s) (start s) (held s ++ data)) rest in
      match e with
      | Some e => setErr s e
      | None =>
          if 0 <? n then with_empties s 0
          else
            let loop := loop + 1 in
            if maxConsecutiveEmptyReads <? loop
            then setErr s io_ErrNoProgress
            else readLoop k loop s
      end.
Proof. reflexivity. Qed.

(** The read loop, entered with room in the buffer and no error, delivers
    bytes or records the end of the input. *)
Lemma readLoop_good (st : Scanner) :
  split st = scanComma -> maxTokenSize st = MaxScanTokenSize ->
  done st = false -> 0 <= start st -> end_ st < bufLen st ->
  bufLen st <= MaxScanTokenSize -> err st = None ->
  good (readLoop 101 0 st)
  /\ pending (readLoop 101 0 st) = pending st
  /\ (roundsLeft (readLoop 101 0 st) < roundsLeft st)%nat.
Proof.
  destruct st as [rd sp mx tk bl st0 hd er em dn].
  unfold end_, good, pending, roundsLeft.
  cbn [split maxTokenSize done start held bufLen err r].
  intros -> -> -> Hst Hend Hbl ->.
  change MaxScanTokenSize with 65536 in *.
  change 101%nat with (S 100). rewrite readLoop_S.
  generalize (readLoop 100). intros more. unfold end_, Read.
  cbn [split maxTokenSize done start held bufLen err r].
  destruct rd as [|c rd].
  - change (len (@nil ascii) <=? 0) with true. cbn iota.
    change (0 <? 0) with false. cbn [orb].
    replace (bl - (st0 + len hd) <? 0) with false by lia.
    cbn [setErr with_r with_buf with_err err split maxTokenSize done start
         held bufLen r end_ isSome length].
    unfold end_. cbn [start held]. rewrite !app_nil_r.
    repeat split; try reflexivity; try lia.
    right. repeat split; try reflexivity; lia.
  - pose proof (len_nonneg rd) as Hrd.
    replace (len (c :: rd) <=? 0) with false by (rewrite len_cons; lia).
    set (n := Z.min (bl - (st0 + len hd)) (len (c :: rd))).
    assert (Hn : 0 < n <= len (c :: rd) /\ n <= bl - (st0 + len hd))
      by (unfold n; rewrite len_cons; lia).
    replace ((n <? 0) || (bl - (st0 + len hd) <? n)) with false by lia.
    replace (0 <? n) with true by lia.
    cbn [setErr with_r with_buf with_err with_empties err split maxTokenSize
         done start held bufLen r end_ isSome].
    unfold end_. cbn [start held].
    assert (Hl : len (firstn (Z.to_nat n) (c :: rd)) = n).
    { unfold len in *. rewrite length_firstn. lia. }
    rewrite len_app, Hl, <- app_assoc, firstn_skipn.
    repeat split; try reflexivity; try lia.
    + left. reflexivity.
    + rewrite length_skipn. unfold len in Hn. simpl length in *. lia.
Qed.


Ltac by_readLoop :=
  match goal with
  | |- good (readLoop 101 0 ?s) /\ _ /\ _ =>
      let H := fresh in
      assert (H : good (readLoop 101 0 s)
                  /\ pending (readLoop 101 0 s) = pending s
                  /\ (roundsLeft (readLoop 101 0 s) < roundsLeft s)%nat);
      [ apply readLoop_good | exact H ]
  end.

(** Refilling the buffer when the window has no comma and the input has
    not ended: the buffer is full at its largest size, or the next round
    starts with the same unconsumed input and less left to read. *)
Lemma refill_outcome (st : Scanner) :
  good st -> err st = None -> cutComma (held st) = None ->
  match refill st with
  | inl res => scanOutcome (pending st) res
  | inr st' => good st' /\ pending st' = pending st
               /\ (roundsLeft st' < roundsLeft st)%nat
  end.
Proof.
  intros G He Hc.
  destruct st as [rd sp mx tk bl st0 hd er em dn].
  destruct G as (Hsp & Hmx & Hdn & Hst & Hend & Hbl & _).
  unfold end_ in *. simpl in Hsp, Hmx, Hdn, Hst, Hend, Hbl, He, Hc.
  subst sp mx dn er.
  pose proof (len_nonneg hd) as Hhd.
  change MaxScanTokenSize with 65536 in *.
  unfold refill. cbn [err isSome start bufLen].
  destruct ((0 <? st0) && ((end_ _ =? bl) || (bl ÷ 2 <? st0))) eqn:Hsh.
  - (* the data is shifted to the beginning *)
    unfold end_ in *.
    cbn [with_buf start held bufLen maxTokenSize] in *.
    replace (0 + len hd =? bl) with false by lia.
    by_readLoop; unfold end_; cbn; try reflexivity; lia.
  - unfold end_ in *. cbn [start held bufLen maxTokenSize] in *.
    destruct (st0 + len hd =? bl) eqn:Hfull.
    + (* the buffer is full *)
      assert (st0 = 0) by lia. subst st0.
      change (maxInt ÷ 2) with 4611686018427387903.
      destruct (65536 <=? bl) eqn:Hmax.
      * cbn [orb].
        unfold scanOutcome, pending, shortToken. cbn [held r].
        change MaxScanTokenSize with 65536.
        rewrite cutComma_app, Hc.
        destruct (cutComma rd) as [[a b]|].
        -- pose proof (len_nonneg a).
           replace (len (hd ++ a) <? 65536) with false
             by (rewrite len_app; lia).
           eexists. split; reflexivity.
        -- pose proof (len_nonneg rd).
           replace (len (hd ++ rd) <? 65536) with false
             by (rewrite len_app; lia).
           eexists. split; reflexivity.
      * replace (4611686018427387903 <? bl) with false by lia.
        cbn [orb].
        by_readLoop; unfold end_; cbn [with_buf split maxTokenSize
          done start held bufLen err]; try reflexivity; try lia;
          change MaxScanTokenSize with 65536; unfold startBufSize;
          destruct (bl * 2 =? 0) eqn:H0; lia.
    + by_readLoop; unfold end_; cbn; try reflexivity; lia.
Qed.

Lemma round_outcome (st : Scanner) :
  good st ->
  match round st with
  | inl res => scanOutcome (pending st) res
  | inr st' => good st' /\ pending st' = pending st
               /\ (roundsLeft st' < roundsLeft st)%nat
  end.
Proof.
  intros G. pose proof G as G0.
  destruct st as [rd sp mx tk bl st0 hd er em dn].
  destruct G as (Hsp & Hmx & Hdn & Hst & Hend & Hbl & Herr).
  unfold end_ in *. simpl in Hsp, Hmx, Hdn, Hst, Hend, Hbl, Herr.
  subst sp mx dn.
  unfold round. rewrite tryToken_cut by reflexivity.
  cbn [start held err bufLen].
  pose proof (len_nonneg hd) as Hhd.
  change MaxScanTokenSize with 65536 in *.
  destruct Herr as [-> | (-> & -> & Hlt)].
  - (* no error yet *)
    cbn [isSome]. rewrite orb_false_r.
    destruct (0 <? len hd) eqn:Hne.
    + destruct (cutComma hd) as [[a b]|] eqn:Ec.
      * unfold scanOutcome, pending. cbn [held r].
        rewrite cutComma_app, Ec.
        apply cutComma_Some in Ec. destruct Ec as [Eh _].
        assert (El : len hd = len a + 1 + len b)
          by (rewrite Eh, len_app, len_cons; lia).
        pose proof (len_nonneg a). pose proof (len_nonneg b).
        unfold shortToken. change MaxScanTokenSize with 65536.
        replace (len a <? 65536) with true by lia.
        eexists. split; [reflexivity|]. split; [reflexivity|].
        unfold good, pending, end_. cbn.
        repeat split; try reflexivity; try lia.
        left. reflexivity.
      * replace (st0 + 0) with st0 by lia.
        apply (refill_outcome
                 {| r := rd; split := scanComma; maxTokenSize := 65536;
                    token := None; bufLen := bl; start := st0; held := hd;
                    err := None; empties := em; done := false |});
          [|reflexivity|exact Ec].
        unfold good, end_. cbn. repeat split; try reflexivity; try lia.
        left. reflexivity.
    + assert (hd = []) by (apply len_zero; lia). subst hd.
      apply (refill_outcome _ G0); reflexivity.
  - (* the input has ended *)
    unfold scanOutcome, shortToken, good, pending. cbn [r held].
    change MaxScanTokenSize with 65536 in *.
    cbn [isSome]. rewrite orb_true_r, app_nil_r.
    destruct (cutComma hd) as [[a b]|] eqn:Ec.
    + apply cutComma_Some in Ec. destruct Ec as [Eh _].
      assert (El : len hd = len a + 1 + len b)
        by (rewrite Eh, len_app, len_cons; lia).
      pose proof (len_nonneg a). pose proof (len_nonneg b).
      replace (len a <? 65536) with true by lia.
      eexists. split; [reflexivity|]. split; [reflexivity|].
      unfold pending, end_. cbn. rewrite app_nil_r.
      repeat split; try reflexivity; try lia.
      right. repeat split; try reflexivity; lia.
    + replace (len hd <? 65536) with true by lia.
      destruct hd as [|c h].
      * cbn. eexists. split; reflexivity.
      * eexists. split; [reflexivity|]. split; [reflexivity|].
        unfold pending, end_. cbn [split maxTokenSize done start held bufLen
          err r with_empties with_token with_buf].
        change (len (@nil ascii)) with 0.
        repeat split; try reflexivity; try lia.
        right. repeat split; try reflexivity; lia.
Qed.

(** [Scan]'s loop, given fuel for the rounds left, answers as
    [scanOutcome] tells. *)
Lemma scanLoop_outcome (fuel : nat) :
  forall st, good st -> (roundsLeft st <= fuel)%nat ->
    scanOutcome (pending st) (scanLoop fuel st).
Proof.
  induction fuel as [|fuel IH]; intros st G Hf.
  - unfold roundsLeft in Hf. destruct (isSome (err st)); lia.
  - rewrite scanLoop_round. pose proof (round_outcome st G) as H.
    destruct (round st) as [res|st'].
    + exact H.
    + destruct H as (G' & Hp & Hr). rewrite <- Hp. apply IH; [exact G'|lia].
Qed.

Lemma Scan_outcome (st : Scanner) :
  good st -> scanOutcome (pending st) (Scan st).
Proof.
  intros G. unfold Scan.
  assert (Hdn : done st = false) by (unfold good in G; tauto).
  rewrite Hdn. apply scanLoop_outcome; [exact G|].
  unfold roundsLeft. destruct (isSome (err st)); lia.
Qed.

End ScannerRounds.

(** ** The loop body of Parse *)

Lemma breakAt_Some (c : ascii) (s a b : gostring) :
  breakAt c s = Some (a, b) -> s = a ++ c :: b /\ ~ In c a.
Proof.
  revert a b. induction s as [|d s IH]; intros a b H; simpl in H.
  - discriminate.
  - destruct (Ascii.eqb_spec d c) as [->|Hne].
    + injection H as <- <-. simpl. tauto.
    + destruct (breakAt c s) as [[a' b']|]; [|discriminate].
      simpl in H. injection H as <- <-.
      destruct (IH a' b' eq_refl) as [-> Hn].
      split; [reflexivity|]. intros [E|E]; [congruence | tauto].
Qed.

Lemma breakAt_None (c : ascii) (s : gostring) :
  breakAt c s = None -> ~ In c s.
Proof.
  induction s as [|d s IH]; simpl; intros H.
  - tauto.
  - destruct (Ascii.eqb_spec d c) as [->|Hne]; [discriminate|].
    destruct (breakAt c s) as [[a' b']|]; [discriminate|].
    intros [E|E]; [congruence | tauto].
Qed.

(** The loop body of [Parse] appends the pair the token stands for, and
    never panics. *)
Lemma scanText_tokenKV (kvs : list KeyValue) (text : gostring) :
  scanText kvs text = Ret (kvs ++ olist (tokenKV text)).
Proof.
  unfold scanText, tokenKV, Index.
  destruct (breakAt "=" text) as [[a b]|] eqn:E.
  - apply breakAt_Some in E. destruct E as [-> Hn].
    change (lit "=") with ["="%char].
    rewrite index_opt_app by exact Hn. cbn [or_minus1].
    pose proof (len_nonneg a) as Ha. pose proof (len_nonneg b) as Hb.
    fold (len a).
    replace (len a =? -1) with false by lia.
    unfold slice.
    assert (El : len (a ++ "="%char :: b) = len a + (len b + 1))
      by (rewrite len_app, len_cons; reflexivity).
    replace ((0 <=? 0) && (0 <=? len a) && (len a <=? len (a ++ "="%char :: b)))
      with true by lia.
    cbn [bind]. rewrite sub_prefix.
    replace ((0 <=? len a + 1) && (len a + 1 <=? len (a ++ "="%char :: b))
             && (len (a ++ "="%char :: b) <=? len (a ++ "="%char :: b)))
      with true by lia.
    cbn [bind].
    replace (a ++ "="%char :: b) with ((a ++ ["="%char]) ++ b)
      by (rewrite <- app_assoc; reflexivity).
    replace (len a + 1) with (len (a ++ ["="%char]))
      by (rewrite len_app, len_cons, len_nil; lia).
    rewrite sub_suffix.
    destruct (misc.IsBlank (TrimSpace a) || misc.IsBlank (TrimSpace b));
      cbn [olist]; [rewrite app_nil_r|]; reflexivity.
  - apply breakAt_None in E.
    change (lit "=") with ["="%char].
    rewrite index_opt_none by exact E. cbn [or_minus1].
    change (-1 =? -1) with true. cbn iota.
    rewrite IsBlank_TrimSpace.
    destruct (misc.IsBlank text); cbn [olist]; [rewrite app_nil_r|];
      reflexivity.
Qed.

(** ** The scanning loop of Parse *)

Lemma tokenKV_nil : tokenKV [] = None.
Proof. reflexivity. Qed.

(** The loop [for scanner.Scan()] collects the pairs of the fields of the
    unconsumed input when all of them are short, and otherwise leaves the
    scanner with [ErrTooLong]. *)
Lemma scanAll_outcome (n : nat) :
  forall (fuel : nat) (st : bufio.Scanner) (kvs : list KeyValue),
    good st -> (length (pending st) < n)%nat -> (n <= fuel)%nat ->
    exists kvs' st',
      scanAll fuel st kvs = Ret (kvs', st')
      /\ if forallb shortToken (splitComma (pending st))
         then kvs' = kvs ++ flat_map (fun t => olist (tokenKV t))
                                     (splitComma (pending st))
              /\ bufio.Err st' = None
         else bufio.Err st' = Some bufio.ErrTooLong.
Proof.
  induction n as [|n IH]; intros fuel st kvs G Hl Hf; [lia|].
  destruct fuel as [|fuel]; [lia|].
  cbn [scanAll]. pose proof (Scan_outcome st G) as H.
  unfold scanOutcome in H. rewrite splitComma_cut.
  destruct (cutComma (pending st)) as [[a b]|] eqn:Ec.
  - cbn [forallb flat_map].
    destruct (shortToken a) eqn:Ea.
    + destruct H as (st1 & -> & Ht & G1 & Hp). cbn [bind].
      rewrite Ht, scanText_tokenKV. cbn [bind].
      apply cutComma_Some in Ec. destruct Ec as [Eu _].
      assert (Hlb : (length b < n)%nat).
      { rewrite Eu, length_app in Hl. simpl in Hl. lia. }
      rewrite <- Hp in Hlb.
      destruct (IH fuel st1 (kvs ++ olist (tokenKV a)) G1 Hlb ltac:(lia))
        as (kvs' & st' & Hs & Hres).
      exists kvs', st'. split; [exact Hs|].
      rewrite Hp in Hres. cbn [andb].
      destruct (forallb shortToken (splitComma b)); [|exact Hres].
      destruct Hres as [-> He]. split; [|exact He].
      rewrite <- app_assoc. reflexivity.
    + destruct H as (st1 & -> & He). cbn [bind andb].
      exists kvs, st1. split; [reflexivity | exact He].
  - cbn [forallb flat_map]. rewrite andb_true_r.
    destruct (shortToken (pending st)) eqn:Ea.
    + destruct (pending st) as [|c u] eqn:Eu.
      * destruct H as (st1 & -> & He). cbn [bind].
        exists kvs, st1. split; [reflexivity|].
        rewrite tokenKV_nil. cbn [olist]. rewrite !app_nil_r.
        split; [reflexivity | exact He].
      * destruct H as (st1 & -> & Ht & G1 & Hp). cbn [bind].
        rewrite Ht, scanText_tokenKV. cbn [bind].
        destruct fuel as [|fuel]; [simpl in Hl; lia|].
        cbn [scanAll]. pose proof (Scan_outcome st1 G1) as H1.
        unfold scanOutcome in H1. rewrite Hp in H1. cbn in H1.
        destruct H1 as (st2 & -> & He). cbn [bind].
        exists (kvs ++ olist (tokenKV (c :: u))), st2.
        split; [reflexivity|]. rewrite app_nil_r.
        split; [reflexivity | exact He].
    + destruct H as (st1 & -> & He). cbn [bind].
      exists kvs, st1. split; [reflexivity | exact He].
Qed.

Lemma good_NewScanner (body : gostring) :
  good (bufio.NewScanner body scanComma).
Proof.
  unfold good, bufio.NewScanner, bufio.end_. cbn.
  repeat split; try reflexivity; try lia. left. reflexivity.
Qed.

Lemma flat_map_commaTokens (body : gostring) :
  flat_map (fun t => olist (tokenKV t)) (splitComma body) = inputsOf body.
Proof.
  unfold inputsOf, commaTokens. destruct body; reflexivity.
Qed.

Lemma forallb_commaTokens (body : gostring) :
  forallb shortToken (splitComma body) = forallb shortToken (commaTokens body).
Proof.
  unfold commaTokens. destruct body; reflexivity.
Qed.

(** ** Parse, unfolded *)

Lemma resolved_no_paren (tpStr : gostring) :
  lookup tpStr <> 0 -> ~ In "("%char tpStr /\ ~ In ")"%char tpStr.
Proof.
  intros H. apply lookup_letterOrHigh in H. rewrite Forall_forall in H.
  split; intros Hin; apply H in Hin; unfold letterOrHigh in Hin;
    cbn in Hin; lia.
Qed.

Lemma of_nat_not_minus1 (n : nat) : (Z.of_nat n =? -1) = false.
Proof. apply Z.eqb_neq. lia. Qed.

(** When the name resolves, the last closing parenthesis lies after the
    first opening one. *)
Lemma paren_order (s : gostring) (o e : nat) :
  index_opt s ["("%char] = Some o ->
  lookup (firstn o s) <> 0 ->
  last_index_opt s [")"%char] = Some e ->
  (o < e)%nat.
Proof.
  intros Ho Hres He.
  pose proof (index_opt_spec "(" s) as H1. rewrite Ho in H1.
  destruct H1 as (a & b & -> & Hl & Hna). subst o.
  rewrite firstn_app, firstn_all, Nat.sub_diag in Hres.
  cbn [firstn] in Hres. rewrite app_nil_r in Hres.
  destruct (resolved_no_paren a Hres) as [_ Hnc].
  pose proof (last_index_opt_spec ")" (a ++ "("%char :: b)) as H2.
  rewrite He in H2. destruct H2 as (x & y & Exy & Hlx & Hny).
  destruct (Nat.lt_trichotomy (length a) e) as [Hc|[Hc|Hc]];
    [exact Hc | exfalso | exfalso].
  - subst e. symmetry in Hc.
    apply (f_equal (fun l => nth (length a) l zero)) in Exy.
    rewrite app_nth2, Nat.sub_diag in Exy by lia.
    rewrite <- Hc, app_nth2, Nat.sub_diag in Exy by lia.
    simpl in Exy. discriminate.
  - apply Hnc. subst e.
    assert (Hin : nth (length x) a zero = ")"%char).
    { apply (f_equal (fun l => nth (length x) l zero)) in Exy.
      rewrite app_nth1 in Exy by lia.
      rewrite app_nth2, Nat.sub_diag in Exy by lia. exact Exy. }
    rewrite <- Hin. apply nth_In. exact Hc.
Qed.

(** [Parse] in one equation: the name before the first opening
    parenthesis is looked up; the text between that parenthesis and the
    last closing one is scanned. *)
Lemma Parse_unfold (s : gostring) :
  Parse s
  = match index_opt s ["("%char] with
    | None =>
        if lookup s =? 0 then Ret (inr (errors.Errorf_invalid s))
        else Ret (inl {| Type_ := lookup s; Inputs := [] |})
    | Some o =>
        let tp := lookup (firstn o s) in
        if tp =? 0 then Ret (inr (errors.Errorf_invalid s))
        else
          match last_index_opt s [")"%char] with
          | None => Ret (inr (errors.Errorf_invalid s))
          | Some e => argsResult tp (sub s (Z.of_nat o + 1) (Z.of_nat e))
          end
    end.
Proof.
  unfold Parse, Index, LastIndex.
  change (lit "(") with ["("%char]. change (lit ")") with [")"%char].
  destruct (index_opt s ["("%char]) as [o|] eqn:Eo; cbn [or_minus1].
  - rewrite of_nat_not_minus1.
    pose proof (index_opt_spec "(" s) as Ho. rewrite Eo in Ho.
    destruct Ho as (a & b & Es & Hl & _).
    assert (Hlen : Z.of_nat o < len s).
    { rewrite Es, len_app, len_cons. unfold len. rewrite Hl.
      pose proof (len_nonneg b). unfold len in *. lia. }
    unfold slice.
    replace ((0 <=? 0) && (0 <=? Z.of_nat o) && (Z.of_nat o <=? len s))
      with true by lia.
    cbn [bind]. rewrite sub_firstn, Nat2Z.id. fold (lookup (firstn o s)).
    cbv zeta.
    destruct (lookup (firstn o s) =? 0) eqn:Htp; [reflexivity|].
    assert (Hres : lookup (firstn o s) <> 0) by lia.
    destruct (last_index_opt s [")"%char]) as [e|] eqn:Ee;
      cbn [or_minus1]; [|reflexivity].
    rewrite of_nat_not_minus1.
    pose proof (paren_order s o e Eo Hres Ee) as Hlt.
    pose proof (last_index_opt_spec ")" s) as He. rewrite Ee in He.
    destruct He as (x & y & Exy & Hlx & _).
    assert (Hle : Z.of_nat e < len s).
    { rewrite Exy, len_app, len_cons. unfold len. rewrite Hlx.
      pose proof (len_nonneg y). unfold len in *. lia. }
    replace ((0 <=? Z.of_nat o + 1) && (Z.of_nat o + 1 <=? Z.of_nat e)
             && (Z.of_nat e <=? len s))
      with true by lia.
    cbn [bind].
    set (body := sub s (Z.of_nat o + 1) (Z.of_nat e)).
    destruct (scanAll_outcome (S (length body)) (S (S (length body)))
                (bufio.NewScanner body scanComma) []
                (good_NewScanner body)) as (kvs & st' & Hs & Hres');
      [unfold pending; cbn [bufio.NewScanner bufio.held bufio.r app]; lia
      | lia |].
    rewrite Hs. cbn [bind].
    unfold pending in Hres'. cbn [bufio.NewScanner bufio.held bufio.r] in Hres'.
    cbn [app] in Hres'.
    unfold argsResult. rewrite <- forallb_commaTokens.
    destruct (forallb shortToken (splitComma body)).
    + destruct Hres' as [-> He']. rewrite He'.
      cbn [app]. rewrite flat_map_commaTokens. reflexivity.
    + rewrite Hres'. reflexivity.
  - change (-1 =? -1) with true. cbn [bind]. fold (lookup s).
    destruct (lookup s =? 0); reflexivity.
Qed.

(** ** Parse and Render on concrete hints *)

Example parse_keyed :
  Parse (lit "MASTER(a=1,b=2)")
  = Ret (inl {| Type_ := TypeMaster;
                Inputs := [ {| K := lit "a"; V := lit "1" |};
                            {| K := lit "b"; V := lit "2" |} ] |}).
Proof. vm_compute. reflexivity. Qed.

Example parse_positional :
  Parse (lit "master(foo,bar)")
  = Ret (inl {| Type_ := TypeMaster;
                Inputs := [ {| K := []; V := lit "foo" |};
                            {| K := []; V := lit "bar" |} ] |}).
Proof. vm_compute. reflexivity. Qed.

Example parse_blank_token :
  Parse (lit "ROUTE( x = 1 , , y=2 )")
  = Ret (inl {| Type_ := TypeRoute;
                Inputs := [ {| K := lit "x"; V := lit "1" |};
                            {| K := lit "y"; V := lit "2" |} ] |}).
Proof. vm_compute. reflexivity. Qed.

Example parse_unknown_name :
  Parse (lit "BOGUS") = Ret (inr (errors.Errorf_invalid (lit "BOGUS"))).
Proof. vm_compute. reflexivity. Qed.

Example parse_missing_paren :
  Parse (lit "MASTER(a=1")
  = Ret (inr (errors.Errorf_invalid (lit "MASTER(a=1"))).
Proof. vm_compute. reflexivity. Qed.

Example parse_empty_name :
  Parse (lit "(a)") = Ret (inr (errors.Errorf_invalid (lit "(a)"))).
Proof. vm_compute. reflexivity. Qed.

Example render_trace :
  Hint_String {| Type_ := TypeTrace; Inputs := [] |} = Ret (lit "TRACE()").
Proof. reflexivity. Qed.

Example render_keyed :
  Hint_String {| Type_ := TypeMaster;
                 Inputs := [ {| K := lit "a"; V := lit "1" |};
                             {| K := []; V := lit "x" |} ] |}
  = Ret (lit "MASTER(a=1,x)").
Proof. reflexivity. Qed.

(** Case folding is that of Unicode: the long s (U+017F, bytes C5 BF)
    folds to S, so this spelling of MASTER resolves too. *)
Example parse_long_s :
  Parse (lit "MA" ++ [ascii_of_nat 197; ascii_of_nat 191] ++ lit "TER")
  = Ret (inl {| Type_ := TypeMaster; Inputs := [] |}).
Proof. vm_compute. reflexivity. Qed.

(** Whitespace is that of Unicode: a no-break space (U+00A0, bytes C2 A0)
    around a value is trimmed. *)
Example parse_no_break_space :
  Parse (lit "SLAVE(" ++ [ascii_of_nat 194; ascii_of_nat 160] ++ lit "a"
         ++ [ascii_of_nat 194; ascii_of_nat 160] ++ lit ")")
  = Ret (inl {| Type_ := TypeSlave;
                Inputs := [ {| K := []; V := lit "a" |} ] |}).
Proof. vm_compute. reflexivity. Qed.

(** A trailing comma yields no further token. *)
Example scan_trailing_comma :
  Parse (lit "TRACE(a,)")
  = Ret (inl {| Type_ := TypeTrace;
                Inputs := [ {| K := []; V := lit "a" |} ] |}).
Proof. vm_compute. reflexivity. Qed.

(** * Properties of the hint package *)

(** ** Lookup helper *)

Lemma Contains_existsb (kind : HintType) (hints : list Hint) :
  Contains kind (map Some hints)
  = Ret (existsb (fun h => Type_ h =? kind) hints).
Proof.
  induction hints as [|h hints IH]; cbn [map Contains existsb].
  - reflexivity.
  - destruct (Type_ h =? kind); [reflexivity | exact IH].
Qed.

(** A nil pointer among the hints makes [Contains] panic when the scan
    reaches it. *)
Example Contains_nil_pointer :
  Contains TypeSlave [None] = Panic "nil pointer dereference".
Proof. reflexivity. Qed.

(** C9. For every kind and every sequence of hints, [Contains] returns a
    boolean, without failing, that is true if and only if some element of
    the sequence has that kind as its type; [Contains(SLAVE, [])] is false
    and [Contains(SLAVE, [Hint{Type:SLAVE}, Hint{Type:MASTER}])] is true. *)
Theorem Contains_iff :
  (forall (kind : HintType) (hints : list Hint),
      exists b, Contains kind (map Some hints) = Ret b
                /\ (b = true <-> exists h, In h hints /\ Type_ h = kind))
  /\ Contains TypeSlave [] = Ret false
  /\ Contains TypeSlave
       [ Some {| Type_ := TypeSlave; Inputs := [] |};
         Some {| Type_ := TypeMaster; Inputs := [] |} ] = Ret true.
Proof.
  split; [|split; reflexivity].
  intros kind hints. eexists. split; [apply Contains_existsb|].
  rewrite existsb_exists. split.
  - intros (h & Hin & Heq). exists h. split; [exact Hin | lia].
  - intros (h & Hin & Heq). exists h. split; [exact Hin | lia].
Qed.

(** ** Serializer *)

(** C3, refuted as stated: the hint of type 7, a value of the [uint8] type
    [Type], has no rendering; indexing [_hintTypes] panics. *)
Lemma Render_panics_beyond_table :
  ~ exists s, Hint_String {| Type_ := 7; Inputs := [] |} = Ret s.
Proof. intros [s H]. discriminate H. Qed.

(** C3, amended. For every hint whose type is a [uint8], rendering returns
    a string, without failing, exactly when the type is one of the seven
    ordinals 0..6 of the table [_hintTypes]. *)
Theorem Render_total_within_table (h : Hint) :
  0 <= Type_ h <= 255 ->
  (exists s, Hint_String h = Ret s) <-> Type_ h <= 6.
Proof.
  intros Hr. unfold Hint_String, Type_String.
  change (len _hintTypes) with 7.
  destruct (7 <=? Type_ h) eqn:Hc.
  - rewrite orb_true_r.
    cbn [bind]. split; [intros [s H]; discriminate H | lia].
  - replace (Type_ h <? 0) with false by lia. cbn [orb bind].
    split; [lia|]. intros _.
    destruct (Inputs h) as [|p0 rest].
    + cbn. eexists. reflexivity.
    + replace (len (p0 :: rest) <? 1) with false
        by (rewrite len_cons; pose proof (len_nonneg rest); lia).
      eexists. reflexivity.
Qed.

Lemma Render_total_within_table_witness :
  (0 <= 6 <= 255)
  /\ ((exists s, Hint_String {| Type_ := 6; Inputs := [] |} = Ret s)
      <-> 6 <= 6).
Proof.
  split; [lia|].
  apply (Render_total_within_table {| Type_ := 6; Inputs := [] |}).
  simpl. lia.
Defined.

(** ** Parser: names *)

Lemma variants_complete (t s : gostring) :
  caseVariant s t -> In s (variants t).
Proof.
  unfold caseVariant. intros H. induction H as [|c d s t Hcd _ IH].
  - left. reflexivity.
  - cbn [variants]. apply in_flat_map. exists s. split; [exact IH|].
    destruct Hcd as [->| ->]; [left | right; left]; reflexivity.
Qed.

Lemma bareHint_true (tp : HintType) (r : go (Hint + errors.error)) :
  bareHint tp r = true -> r = Ret (inl {| Type_ := tp; Inputs := [] |}).
Proof.
  destruct r as [[[t i]|e]|w|]; cbn; try discriminate.
  destruct i; [|rewrite andb_false_r; discriminate].
  rewrite andb_true_r. intros H. apply Z.eqb_eq in H. subst t. reflexivity.
Qed.

(** Every way of writing a canonical name in upper and lower case parses,
    bare and with empty parentheses, to its type without inputs. *)
Lemma variants_parse :
  forallb (fun tp =>
    forallb (fun v => bareHint tp (Parse v)
                      && bareHint tp (Parse (v ++ lit "()")))
            (variants (nth (Z.to_nat tp) _hintTypes [])))
    [1; 2; 3; 4; 5; 6] = true.
Proof. vm_compute. reflexivity. Qed.

(** C6. For every canonical hint name (MASTER, SLAVE, ROUTE, FULLSCAN,
    DIRECT, TRACE; [tp] is its ordinal) and every way [N] of writing it in
    upper and lower case, [Parse N] succeeds with that type and no inputs,
    and [Parse (N ++ "()")] yields the same. *)
Theorem Parse_name_any_case (tp : HintType) (N : gostring) :
  1 <= tp <= 6 ->
  caseVariant N (nth (Z.to_nat tp) _hintTypes []) ->
  Parse N = Ret (inl {| Type_ := tp; Inputs := [] |})
  /\ Parse (N ++ lit "()") = Ret (inl {| Type_ := tp; Inputs := [] |}).
Proof.
  intros Htp Hv. apply variants_complete in Hv.
  pose proof variants_parse as H. rewrite forallb_forall in H.
  assert (Hin : In tp [1; 2; 3; 4; 5; 6]) by (cbn; lia).
  specialize (H tp Hin). rewrite forallb_forall in H.
  specialize (H N Hv). apply andb_true_iff in H. destruct H as [H1 H2].
  split; apply bareHint_true; assumption.
Qed.

Lemma Parse_name_any_case_witness :
  Parse (lit "fullScan")
  = Ret (inl {| Type_ := TypeFullScan; Inputs := [] |})
  /\ Parse (lit "fullScan" ++ lit "()")
     = Ret (inl {| Type_ := TypeFullScan; Inputs := [] |}).
Proof.
  apply (Parse_name_any_case TypeFullScan (lit "fullScan")).
  - unfold TypeFullScan. lia.
  - unfold caseVariant. cbn.
    repeat constructor; (left; reflexivity) || (right; reflexivity).
Defined.

(** ** Parser: parentheses *)

Lemma Index_Some (s : gostring) (c : ascii) :
  Index s [c] <> -1 -> exists o, index_opt s [c] = Some o
                                 /\ Index s [c] = Z.of_nat o.
Proof.
  unfold Index. destruct (index_opt s [c]) as [o|]; cbn.
  - intros _. exists o. split; reflexivity.
  - intros H. exfalso. apply H. reflexivity.
Qed.

Lemma LastIndex_Some (s : gostring) (c : ascii) :
  LastIndex s [c] <> -1 -> exists e, last_index_opt s [c] = Some e
                                     /\ LastIndex s [c] = Z.of_nat e.
Proof.
  unfold LastIndex. destruct (last_index_opt s [c]) as [e|]; cbn.
  - intros _. exists e. split; reflexivity.
  - intros H. exfalso. apply H. reflexivity.
Qed.

(** C7. When the input has an opening parenthesis: if it has no closing
    parenthesis anywhere, [Parse] fails with the invalid-hint error on the
    input; and if the name before the first opening parenthesis resolves
    and there is a closing parenthesis, the last one lies after the first
    opening one and [Parse] answers what the text strictly between them
    stands for as an argument list, whatever parentheses that text
    holds. *)
Theorem Parse_argument_text (s : gostring) :
  Index s (lit "(") <> -1 ->
  (LastIndex s (lit ")") = -1 ->
   Parse s = Ret (inr (errors.Errorf_invalid s)))
  /\ (lookup (sub s 0 (Index s (lit "("))) <> 0 ->
      LastIndex s (lit ")") <> -1 ->
      Index s (lit "(") < LastIndex s (lit ")")
      /\ Parse s
         = argsResult (lookup (sub s 0 (Index s (lit "("))))
             (sub s (Index s (lit "(") + 1) (LastIndex s (lit ")")))).
Proof.
  change (lit "(") with ["("%char]. change (lit ")") with [")"%char].
  intros Ho. destruct (Index_Some _ _ Ho) as (o & Eo & ->).
  rewrite Parse_unfold, Eo. cbv zeta.
  assert (Hsub : sub s 0 (Z.of_nat o) = firstn o s).
  { unfold sub. cbn [skipn Z.to_nat]. f_equal. lia. }
  rewrite Hsub. split.
  - intros He. unfold LastIndex in He.
    destruct (last_index_opt s [")"%char]) as [e|]; cbn in He; [lia|].
    destruct (lookup (firstn o s) =? 0); reflexivity.
  - intros Hres He. destruct (LastIndex_Some _ _ He) as (e & Ee & ->).
    pose proof (paren_order s o e Eo Hres Ee) as Hlt.
    rewrite Ee. replace (lookup (firstn o s) =? 0) with false by lia.
    split; [lia | reflexivity].
Qed.

Lemma Parse_argument_text_witness :
  (LastIndex (lit "route(a(b),c)) x") (lit ")") = -1 ->
   Parse (lit "route(a(b),c)) x")
   = Ret (inr (errors.Errorf_invalid (lit "route(a(b),c)) x"))))
  /\ (5 < 14
      /\ Parse (lit "route(a(b),c)) x")
         = argsResult TypeRoute (lit "a(b),c)")).
Proof.
  pose proof (Parse_argument_text (lit "route(a(b),c)) x")) as H.
  destruct H as [H1 H2]; [vm_compute; discriminate|].
  split; [exact H1|].
  apply H2; vm_compute; discriminate.
Defined.

(** ** Parser: what follows the last closing parenthesis *)

(** C10, refuted as stated: with the canonical name MASTER, a body of
    65536 letters and no trailing text, [Parse] does not succeed. *)
Lemma Parse_long_body_fails :
  succeeded (Parse (lit "MASTER" ++ lit "("
                    ++ repeat "a"%char (Z.to_nat 65536) ++ lit ")" ++ []))
  = false.
Proof. vm_compute. reflexivity. Qed.

Lemma index_opt_name (N rest : gostring) :
  lookup N <> 0 ->
  index_opt (N ++ lit "(" ++ rest) ["("%char] = Some (length N).
Proof.
  intros H. apply index_opt_app. apply (resolved_no_paren N H).
Qed.

Lemma Parse_name_body (N b t : gostring) :
  lookup N <> 0 -> ~ In ")"%char t ->
  Parse (N ++ lit "(" ++ b ++ lit ")" ++ t) = argsResult (lookup N) b.
Proof.
  intros Hres Ht. rewrite Parse_unfold, index_opt_name by exact Hres.
  cbv zeta. rewrite firstn_app, firstn_all, Nat.sub_diag.
  cbn [firstn]. rewrite app_nil_r.
  replace (lookup N =? 0) with false by lia.
  replace (N ++ lit "(" ++ b ++ lit ")" ++ t)
    with ((N ++ lit "(" ++ b) ++ ")"%char :: t)
    by (rewrite <- !app_assoc; reflexivity).
  rewrite last_index_opt_app by exact Ht.
  f_equal. rewrite <- !app_assoc.
  replace (Z.of_nat (length N) + 1) with (len (N ++ lit "("))
    by (rewrite len_app; reflexivity).
  replace (Z.of_nat (length (N ++ lit "(" ++ b)))
    with (len (N ++ lit "(") + len b)
    by (unfold len; rewrite !length_app; lia).
  replace (N ++ lit "(" ++ b ++ ")"%char :: t)
    with ((N ++ lit "(") ++ b ++ ")"%char :: t)
    by (rewrite <- !app_assoc; reflexivity).
  apply sub_middle.
Qed.

(** C10, amended. For every name [N] that resolves to a type (a canonical
    name in any case), every argument body [b] and every trailing text [t]
    without closing parenthesis, [Parse] answers on [N(b)t] exactly what it
    answers on [N(b)]; it succeeds, with the type of [N] and the inputs of
    [b], when every comma-delimited token of [b] is shorter than 65536
    bytes. *)
Theorem Parse_ignores_trailing (N b t : gostring) :
  lookup N <> 0 -> ~ In ")"%char t ->
  Parse (N ++ lit "(" ++ b ++ lit ")" ++ t)
  = Parse (N ++ lit "(" ++ b ++ lit ")")
  /\ (forallb shortToken (commaTokens b) = true ->
      Parse (N ++ lit "(" ++ b ++ lit ")" ++ t)
      = Ret (inl {| Type_ := lookup N; Inputs := inputsOf b |})).
Proof.
  intros Hres Ht. rewrite (Parse_name_body N b t Hres Ht).
  split.
  - rewrite <- (app_nil_r (lit ")")) at 1.
    rewrite (Parse_name_body N b [] Hres); [reflexivity|].
    intros [].
  - intros Hs. unfold argsResult. rewrite Hs. reflexivity.
Qed.

Lemma Parse_ignores_trailing_witness :
  Parse (lit "Slave" ++ lit "(" ++ lit "a=1" ++ lit ")" ++ lit " (primary")
  = Parse (lit "Slave" ++ lit "(" ++ lit "a=1" ++ lit ")")
  /\ (forallb shortToken (commaTokens (lit "a=1")) = true ->
      Parse (lit "Slave" ++ lit "(" ++ lit "a=1" ++ lit ")"
             ++ lit " (primary")
      = Ret (inl {| Type_ := lookup (lit "Slave");
                    Inputs := inputsOf (lit "a=1") |})).
Proof.
  apply (Parse_ignores_trailing (lit "Slave") (lit "a=1") (lit " (primary")).
  - vm_compute. discriminate.
  - cbn. intuition discriminate.
Defined.

(** ** Parser: errors *)

(** C8, on the failing input: the error of the scanner's path is built
    from the argument-list text, to which [s] has been reassigned by then.
    Its message has no byte [M], so it does not carry the input
    MASTER(aa...a). *)
Theorem Parse_error_drops_input :
  exists msg,
    Parse longHint = Ret (inr msg)
    /\ msg = errors.Wrapf_invalid bufio.ErrTooLong
               (repeat "a"%char (Z.to_nat 65536))
    /\ ~ carries msg longHint.
Proof.
  eexists. split; [|split; [reflexivity|]].
  - unfold longHint. rewrite <- (app_nil_r (lit ")")).
    rewrite Parse_name_body; [|vm_compute; discriminate|intros []].
    unfold argsResult.
    replace (forallb shortToken
               (commaTokens (repeat "a"%char (Z.to_nat 65536))))
      with false by (vm_compute; reflexivity).
    reflexivity.
  - intros (before & after & E).
    assert (Hin : In "M"%char
                    (errors.Wrapf_invalid bufio.ErrTooLong
                       (repeat "a"%char (Z.to_nat 65536)))).
    { rewrite E. apply in_or_app. right. left. reflexivity. }
    unfold errors.Wrapf_invalid, errors.Errorf_invalid in Hin.
    rewrite !in_app_iff in Hin.
    destruct Hin as [[Hin|[Hin|Hin]]|[Hin|Hin]].
    + cbn in Hin. intuition discriminate.
    + apply repeat_spec in Hin. discriminate.
    + cbn in Hin. intuition discriminate.
    + cbn in Hin. intuition discriminate.
    + cbn in Hin. intuition discriminate.
Qed.

(** The two other error paths of [Parse] do carry the input. *)
Lemma Errorf_invalid_carries (s : gostring) :
  carries (errors.Errorf_invalid s) s.
Proof.
  exists (lit "hint: invalid input '"), (lit "'"). reflexivity.
Qed.

(** Every error of [Parse] is the invalid-hint error on the input, which
    carries it, or the scanner's error wrapped with the argument-list
    text. *)
Lemma Parse_error_message (s : gostring) (e : errors.error) :
  Parse s = Ret (inr e) ->
  (e = errors.Errorf_invalid s /\ carries e s)
  \/ (exists o c,
        index_opt s ["("%char] = Some o
        /\ last_index_opt s [")"%char] = Some c
        /\ e = errors.Wrapf_invalid bufio.ErrTooLong
                 (sub s (Z.of_nat o + 1) (Z.of_nat c))).
Proof.
  rewrite Parse_unfold.
  assert (Hl : forall x,
             @Ret (Hint + errors.error) (inr (errors.Errorf_invalid s))
             = Ret (inr x) ->
                 x = errors.Errorf_invalid s /\ carries x s).
  { intros x H. injection H as <-. split; [reflexivity|].
    apply Errorf_invalid_carries. }
  destruct (index_opt s ["("%char]) as [o|]; cbv zeta.
  - destruct (lookup (firstn o s) =? 0); [intros H; left; apply Hl, H|].
    destruct (last_index_opt s [")"%char]) as [c|];
      [|intros H; left; apply Hl, H].
    unfold argsResult. destruct (forallb shortToken _); [discriminate|].
    intros H. injection H as <-. right. exists o, c. tauto.
  - destruct (lookup s =? 0); [intros H; left; apply Hl, H | discriminate].
Qed.

Lemma Parse_longHint :
  Parse longHint
  = Ret (inr (errors.Wrapf_invalid bufio.ErrTooLong
                (repeat "a"%char (Z.to_nat 65536)))).
Proof.
  unfold longHint. rewrite <- (app_nil_r (lit ")")).
  rewrite Parse_name_body; [|vm_compute; discriminate|intros []].
  unfold argsResult.
  replace (forallb shortToken
             (commaTokens (repeat "a"%char (Z.to_nat 65536))))
    with false by (vm_compute; reflexivity).
  reflexivity.
Qed.

Lemma lookup_zero (t : gostring) :
  lookup t = 0
  <-> (forall v, In v canonicalNames -> EqualFold t v = false)
      \/ EqualFold t (nth 0 _hintTypes []) = true.
Proof.
  unfold lookup, canonicalNames, _hintTypes. cbn [lookupFrom nth tl].
  destruct (EqualFold t (lit "")) eqn:E0.
  { split; [right; reflexivity | reflexivity]. }
  destruct (EqualFold t (lit "MASTER")) eqn:E1;
  [|destruct (EqualFold t (lit "SLAVE")) eqn:E2;
  [|destruct (EqualFold t (lit "ROUTE")) eqn:E3;
  [|destruct (EqualFold t (lit "FULLSCAN")) eqn:E4;
  [|destruct (EqualFold t (lit "DIRECT")) eqn:E5;
  [|destruct (EqualFold t (lit "TRACE")) eqn:E6]]]]].
  1-6: split; [intros H; vm_compute in H; discriminate|];
       intros [H|H]; [|discriminate];
       exfalso.
  - rewrite (H (lit "MASTER")) in E1; [discriminate | cbn; tauto].
  - rewrite (H (lit "SLAVE")) in E2; [discriminate | cbn; tauto].
  - rewrite (H (lit "ROUTE")) in E3; [discriminate | cbn; tauto].
  - rewrite (H (lit "FULLSCAN")) in E4; [discriminate | cbn; tauto].
  - rewrite (H (lit "DIRECT")) in E5; [discriminate | cbn; tauto].
  - rewrite (H (lit "TRACE")) in E6; [discriminate | cbn; tauto].
  - split; [|reflexivity]. intros _. left. intros v Hv. cbn in Hv.
    destruct Hv as [<-|[<-|[<-|[<-|[<-|[<-|[]]]]]]]; assumption.
Qed.

Lemma forallb_false {A : Type} (f : A -> bool) (l : list A) :
  forallb f l = false <-> exists x, In x l /\ f x = false.
Proof.
  induction l as [|a l IH]; cbn.
  - split; [discriminate | intros (x & [] & _)].
  - destruct (f a) eqn:Ea; cbn.
    + rewrite IH. split; intros (x & Hin & Hx).
      * exists x. tauto.
      * destruct Hin as [->|Hin]; [congruence | exists x; tauto].
    + split; [|reflexivity]. intros _. exists a. tauto.
Qed.

Lemma argsResult_error (tp : HintType) (body : gostring) :
  isError (argsResult tp body)
  <-> exists t, In t (commaTokens body) /\ bufio.MaxScanTokenSize <= len t.
Proof.
  unfold argsResult, isError.
  destruct (forallb shortToken (commaTokens body)) eqn:E.
  - split; [intros [e H]; discriminate H|].
    intros (t & Hin & Hl). rewrite forallb_forall in E.
    specialize (E t Hin). unfold shortToken in E. lia.
  - split; [|intros _; eexists; reflexivity].
    intros _. apply forallb_false in E. destruct E as (t & Hin & Ht).
    exists t. split; [exact Hin|]. unfold shortToken in Ht. lia.
Qed.

Lemma argsResult_returns (tp : HintType) (body : gostring) :
  exists r, argsResult tp body = Ret r.
Proof.
  unfold argsResult. destruct (forallb shortToken (commaTokens body));
    eexists; reflexivity.
Qed.

(** C2, refuted as stated: on MASTER(aa...a) with 65536 letters [Parse]
    returns an error, though the type-name token is a canonical name, is
    not empty, and a closing parenthesis follows the opening one. *)
Lemma Parse_error_fourth_cause :
  isError (Parse longHint)
  /\ ~ (matchesNone longHint \/ resolvesZero longHint \/ unclosed longHint).
Proof.
  split; [eexists; apply Parse_longHint|].
  assert (Et : typeToken longHint = lit "MASTER")
    by (vm_compute; reflexivity).
  intros [H|[H|H]].
  - unfold matchesNone in H. rewrite Et in H.
    specialize (H (lit "MASTER")). vm_compute in H.
    assert (true = false) by (apply H; tauto). discriminate.
  - unfold resolvesZero in H. rewrite Et in H. vm_compute in H.
    discriminate.
  - destruct H as (o & Ho & Hn).
    assert (Eo : index_opt longHint ["("%char] = Some 6%nat)
      by (vm_compute; reflexivity).
    rewrite Eo in Ho. injection Ho as <-.
    apply Hn.
    assert (Hex : existsb (Ascii.eqb ")"%char) (skipn 7 longHint) = true)
      by (vm_compute; reflexivity).
    apply existsb_exists in Hex. destruct Hex as (c & Hin & Hc).
    apply Ascii.eqb_eq in Hc. subst c. exact Hin.
Qed.

(** C2, amended. For every input, [Parse] returns, without panicking,
    and it returns an error if and only if one of four conditions holds:
    the type-name token equals no canonical name under case folding; it
    resolves to the reserved zero variant; an opening parenthesis is
    present and no closing parenthesis follows it; or the text between
    the first opening and the last closing parenthesis has a
    comma-delimited token of 65536 bytes or more, which the scanner
    refuses as too long. *)
Theorem Parse_error_iff (s : gostring) :
  (exists r, Parse s = Ret r)
  /\ (isError (Parse s)
      <-> matchesNone s \/ resolvesZero s \/ unclosed s \/ tooLong s).
Proof.
  rewrite Parse_unfold.
  unfold matchesNone, resolvesZero, unclosed, tooLong, typeToken.
  destruct (index_opt s ["("%char]) as [o|] eqn:Eo; cbv zeta.
  - pose proof (lookup_zero (firstn o s)) as Hz.
    destruct (lookup (firstn o s) =? 0) eqn:Htp.
    + split; [eexists; reflexivity|].
      split; [|intros _; eexists; reflexivity].
      intros _. assert (H0 : lookup (firstn o s) = 0) by lia.
      apply Hz in H0. tauto.
    + assert (Hres : lookup (firstn o s) <> 0) by lia.
      destruct (last_index_opt s [")"%char]) as [e|] eqn:Ee.
      * split; [apply argsResult_returns|].
        rewrite argsResult_error. split.
        -- intros (t & Hin & Hl). right. right. right.
           exists o, e, t. tauto.
        -- intros [H|[H|[H|H]]].
           ++ exfalso. apply Hres, Hz. tauto.
           ++ exfalso. apply Hres, Hz. tauto.
           ++ exfalso. destruct H as (o' & Ho' & Hn).
              injection Ho' as <-. apply Hn.
              pose proof (paren_order s o e Eo Hres Ee) as Hlt.
              pose proof (last_index_opt_spec ")" s) as Hs.
              rewrite Ee in Hs. destruct Hs as (x & y & -> & Hlx & _).
              replace (S o) with (S o + 0)%nat by lia.
              rewrite <- (firstn_skipn (S o) x) at 1.
              rewrite <- app_assoc.
              rewrite skipn_app.
              rewrite skipn_all2 by (rewrite length_firstn; lia).
              rewrite length_firstn.
              replace (S o + 0 - Nat.min (S o) (length x))%nat with 0%nat
                by lia.
              cbn [skipn app]. apply in_or_app. right. left. reflexivity.
           ++ destruct H as (o' & e' & t & Ho' & He' & Hin & Hl).
              injection Ho' as <-. injection He' as <-.
              exists t. tauto.
      * split; [eexists; reflexivity|].
        split; [|intros _; eexists; reflexivity].
        intros _. right. right. left. exists o. split; [reflexivity|].
        apply last_index_opt_spec_none in Ee.
        intros Hin. apply Ee.
        rewrite <- (firstn_skipn (S o) s). apply in_or_app. right. exact Hin.
  - pose proof (lookup_zero s) as Hz.
    destruct (lookup s =? 0) eqn:Htp.
    + split; [eexists; reflexivity|].
      split; [|intros _; eexists; reflexivity].
      intros _. assert (H0 : lookup s = 0) by lia. apply Hz in H0. tauto.
    + assert (Hres : lookup s <> 0) by lia.
      split; [eexists; reflexivity|].
      split; [intros [e H]; discriminate H|].
      intros [H|[H|[H|H]]].
      * exfalso. apply Hres, Hz. tauto.
      * exfalso. apply Hres, Hz. tauto.
      * destruct H as (o & Ho & _). discriminate Ho.
      * destruct H as (o & e & t & Ho & _). discriminate Ho.
Qed.

(** ** Parser: tokens *)

Lemma Parse_inl (s : gostring) (h : Hint) :
  Parse s = Ret (inl h) ->
  Type_ h <> 0
  /\ match index_opt s ["("%char] with
     | None => Inputs h = []
     | Some o =>
         exists e, last_index_opt s [")"%char] = Some e /\ (o < e)%nat
                   /\ Inputs h
                      = inputsOf (sub s (Z.of_nat o + 1) (Z.of_nat e))
     end.
Proof.
  rewrite Parse_unfold.
  destruct (index_opt s ["("%char]) as [o|] eqn:Eo; cbv zeta.
  - destruct (lookup (firstn o s) =? 0) eqn:Htp; [discriminate|].
    destruct (last_index_opt s [")"%char]) as [e|] eqn:Ee; [|discriminate].
    unfold argsResult.
    destruct (forallb shortToken _); [|discriminate].
    intros H. injection H as <-. cbn [Type_ Inputs].
    split; [lia|]. exists e. split; [reflexivity|]. split; [|reflexivity].
    apply (paren_order s o e Eo); [lia | exact Ee].
  - destruct (lookup s =? 0) eqn:Htp; [discriminate|].
    intros H. injection H as <-. cbn [Type_ Inputs]. split; [lia|reflexivity].
Qed.

(** C4. When [Parse] succeeds on an input with an opening parenthesis,
    its inputs are, in order, the pairs of the comma-delimited tokens of
    the argument-list text, each token giving its pair as [tokenKV] tells:
    without equals sign the trimmed token becomes a value with empty key,
    or nothing when it is blank; with one, the token is split at the first
    equals sign, both sides are trimmed, and the pair is appended, or
    nothing when a trimmed side is blank. *)
Theorem Parse_inputs_by_token (s : gostring) (h : Hint) :
  Parse s = Ret (inl h) ->
  Index s (lit "(") <> -1 ->
  Inputs h
  = flat_map (fun token => olist (tokenKV token))
      (commaTokens (sub s (Index s (lit "(") + 1) (LastIndex s (lit ")")))).
Proof.
  change (lit "(") with ["("%char]. change (lit ")") with [")"%char].
  intros Hp Ho. destruct (Index_Some _ _ Ho) as (o & Eo & Ei).
  apply Parse_inl in Hp. destruct Hp as [_ Hp]. rewrite Eo in Hp.
  destruct Hp as (e & Ee & _ & Hin).
  unfold LastIndex. rewrite Ei, Ee. exact Hin.
Qed.

Lemma Parse_inputs_by_token_witness :
  Inputs {| Type_ := TypeRoute;
            Inputs := [ {| K := lit "x"; V := lit "1" |};
                        {| K := lit "y"; V := lit "2" |} ] |}
  = flat_map (fun token => olist (tokenKV token))
      (commaTokens (lit " x = 1 , , y=2 ")).
Proof.
  apply (Parse_inputs_by_token (lit "ROUTE( x = 1 , , y=2 )")).
  - vm_compute. reflexivity.
  - vm_compute. discriminate.
Defined.

(** ** Parser: invariants of the result *)

Lemma tokenKV_trimmed (t : gostring) (p : KeyValue) :
  tokenKV t = Some p -> trimmedInput p.
Proof.
  unfold tokenKV, trimmedInput.
  destruct (breakAt "=" t) as [[a b]|].
  - destruct (misc.IsBlank (TrimSpace a)) eqn:Ea; [discriminate|].
    destruct (misc.IsBlank (TrimSpace b)) eqn:Eb; [discriminate|].
    cbn [orb]. intros H. injection H as <-. cbn [K V].
    rewrite !TrimSpace_idem. tauto.
  - destruct (misc.IsBlank (TrimSpace t)) eqn:Et; [discriminate|].
    intros H. injection H as <-. cbn [K V].
    rewrite TrimSpace_idem. split; [exact Et|]. split; [reflexivity|].
    intros Hk. exfalso. apply Hk. reflexivity.
Qed.

Lemma inputsOf_trimmed (body : gostring) :
  Forall trimmedInput (inputsOf body).
Proof.
  unfold inputsOf. apply Forall_forall. intros p Hin.
  apply in_flat_map in Hin. destruct Hin as (t & _ & Hp).
  destruct (tokenKV t) as [q|] eqn:Et; cbn in Hp; [|tauto].
  destruct Hp as [<-|[]]. apply (tokenKV_trimmed t q Et).
Qed.

(** C5. Every hint returned by a successful [Parse] has a type other than
    the zero variant, and each of its inputs has a value that is not blank
    and is trimmed of surrounding whitespace, and a key that, when present,
    is not blank and is trimmed of surrounding whitespace. *)
Theorem Parse_result_invariant (s : gostring) (h : Hint) :
  Parse s = Ret (inl h) ->
  Type_ h <> 0 /\ Forall trimmedInput (Inputs h).
Proof.
  intros Hp. apply Parse_inl in Hp. destruct Hp as [Ht Hp].
  split; [exact Ht|].
  destruct (index_opt s ["("%char]) as [o|].
  - destruct Hp as (e & _ & _ & ->). apply inputsOf_trimmed.
  - rewrite Hp. constructor.
Qed.

Lemma Parse_result_invariant_witness :
  Type_ {| Type_ := TypeMaster;
           Inputs := [ {| K := []; V := lit "foo" |};
                       {| K := lit "k"; V := lit "bar" |} ] |} <> 0
  /\ Forall trimmedInput
       (Inputs {| Type_ := TypeMaster;
                  Inputs := [ {| K := []; V := lit "foo" |};
                              {| K := lit "k"; V := lit "bar" |} ] |}).
Proof.
  apply (Parse_result_invariant (lit "master( foo ,k = bar,= ,)")).
  vm_compute. reflexivity.
Defined.

(** ** Round trip *)

(** C1, refuted as stated: the hint MASTER with the one value [a,b] is
    rendered as MASTER(a,b), which parses to two inputs. *)
Lemma roundtrip_fails_on_comma :
  ~ exists text h',
      Hint_String {| Type_ := TypeMaster;
                     Inputs := [ {| K := []; V := lit "a,b" |} ] |}
      = Ret text
      /\ Parse text = Ret (inl h')
      /\ Type_ h' = TypeMaster
      /\ Inputs h' = [ {| K := []; V := lit "a,b" |} ].
Proof.
  intros (text & h' & Hr & Hp & _ & Hi).
  vm_compute in Hr. injection Hr as <-.
  vm_compute in Hp. injection Hp as <-. discriminate Hi.
Qed.

Lemma writeKv_render (sb : gostring) (p : KeyValue) :
  writeKv sb p = sb ++ renderKV p.
Proof.
  unfold writeKv, renderKV. destruct (K p) as [|c k].
  - reflexivity.
  - replace (0 <? len (c :: k)) with true
      by (rewrite len_cons; pose proof (len_nonneg k); lia).
    rewrite <- !app_assoc. reflexivity.
Qed.

Lemma fold_writeKv (rest : list KeyValue) (sb : gostring) :
  fold_left (fun sb p => writeKv (sb ++ lit ",") p) rest sb
  = sb ++ renderMore rest.
Proof.
  revert sb. induction rest as [|p rest IH]; intros sb; cbn.
  - rewrite app_nil_r. reflexivity.
  - rewrite IH, writeKv_render, <- !app_assoc. reflexivity.
Qed.

Lemma cutComma_none (s : gostring) : ~ In ","%char s -> cutComma s = None.
Proof.
  intros Hn. destruct (cutComma s) as [[a b]|] eqn:E; [|reflexivity].
  apply cutComma_Some in E. destruct E as [-> _]. exfalso. apply Hn.
  apply in_or_app. right. left. reflexivity.
Qed.

Lemma cutComma_first (t u : gostring) :
  ~ In ","%char t -> cutComma (t ++ ","%char :: u) = Some (t, u).
Proof.
  intros Hn. rewrite cutComma_app, (cutComma_none t Hn). cbn.
  rewrite app_nil_r. reflexivity.
Qed.

Lemma splitComma_join (t : gostring) (rest : list KeyValue) :
  ~ In ","%char t ->
  Forall (fun p => ~ In ","%char (renderKV p)) rest ->
  splitComma (t ++ renderMore rest) = t :: map renderKV rest.
Proof.
  intros Ht Hrest. revert t Ht.
  induction Hrest as [|p rest Hp _ IH]; intros t Ht; cbn.
  - rewrite app_nil_r, splitComma_cut, (cutComma_none t Ht). reflexivity.
  - rewrite splitComma_cut, cutComma_first by exact Ht.
    fold (renderMore rest). rewrite (IH _ Hp). reflexivity.
Qed.

Lemma breakAt_none (c : ascii) (s : gostring) :
  ~ In c s -> breakAt c s = None.
Proof.
  intros Hn. destruct (breakAt c s) as [[a b]|] eqn:E; [|reflexivity].
  apply breakAt_Some in E. destruct E as [-> _]. exfalso. apply Hn.
  apply in_or_app. right. left. reflexivity.
Qed.

Lemma breakAt_first (c : ascii) (a b : gostring) :
  ~ In c a -> breakAt c (a ++ c :: b) = Some (a, b).
Proof.
  induction a as [|d a IH]; intros Hn; cbn.
  - rewrite Ascii.eqb_refl. reflexivity.
  - destruct (Ascii.eqb_spec d c) as [->|Hne].
    + exfalso. apply Hn. left. reflexivity.
    + rewrite IH by (intros H; apply Hn; right; exact H). reflexivity.
Qed.

Lemma tellable_no_comma (p : KeyValue) :
  tellable p -> ~ In ","%char (renderKV p).
Proof.
  unfold tellable, renderKV. intros (_ & _ & Hv & _ & Hk & _).
  destruct (K p) as [|c k] eqn:Ek; [exact Hv|].
  destruct Hk as (_ & _ & Hkc & _); [discriminate|].
  intros H. apply in_app_or in H. destruct H as [H|H]; [exact (Hkc H)|].
  change (lit "=" ++ V p) with ("="%char :: V p) in H.
  destruct H as [H|H]; [discriminate H | exact (Hv H)].
Qed.

Lemma tellable_tokenKV (p : KeyValue) :
  tellable p -> tokenKV (renderKV p) = Some p.
Proof.
  destruct p as [k v]. unfold tellable, renderKV, tokenKV. cbn [K V].
  intros (Hvb & Hvt & _ & Hv0 & Hk & _).
  destruct k as [|c k].
  - rewrite breakAt_none by (apply Hv0; reflexivity).
    rewrite Hvt, Hvb. reflexivity.
  - destruct Hk as (Hkb & Hkt & _ & Hke); [discriminate|].
    change (lit "=" ++ v) with ("="%char :: v).
    rewrite breakAt_first by exact Hke.
    rewrite Hkt, Hvt, Hkb, Hvb. reflexivity.
Qed.

(** C1, amended. For every hint whose type is one of the six declared
    kinds and whose inputs are not empty and are all tellable (values and
    present keys trimmed and not blank, no comma in either, no equals sign
    in a key or in a value without key, rendered input shorter than 65536
    bytes), rendering succeeds and parsing the rendered text yields the
    hint itself: the same type and the same inputs in the same order. *)
Theorem Parse_Render_roundtrip (h : Hint) :
  1 <= Type_ h <= 6 ->
  Inputs h <> [] ->
  Forall tellable (Inputs h) ->
  exists text, Hint_String h = Ret text /\ Parse text = Ret (inl h).
Proof.
  destruct h as [tp inputs]. cbn [Type_ Inputs]. intros Htp Hne Hall.
  destruct inputs as [|p0 rest]; [contradiction|].
  unfold Hint_String, Type_String. cbn [Type_ Inputs].
  change (len _hintTypes) with 7.
  replace ((tp <? 0) || (7 <=? tp)) with false by lia. cbn [bind].
  replace (len (p0 :: rest) <? 1) with false
    by (rewrite len_cons; pose proof (len_nonneg rest); lia).
  eexists. split; [reflexivity|].
  rewrite fold_writeKv, writeKv_render, <- !app_assoc.
  set (name := nth (Z.to_nat tp) _hintTypes []).
  assert (Hname : lookup name = tp).
  { assert (Hc : tp = 1 \/ tp = 2 \/ tp = 3 \/ tp = 4 \/ tp = 5 \/ tp = 6)
      by lia.
    unfold name.
    destruct Hc as [->|[->|[->|[->|[->| ->]]]]]; vm_compute; reflexivity. }
  clearbody name.
  rewrite <- (app_nil_r (lit ")")).
  replace (name ++ lit "(" ++ renderKV p0 ++ renderMore rest ++ lit ")" ++ [])
    with (name ++ lit "(" ++ (renderKV p0 ++ renderMore rest) ++ lit ")" ++ [])
    by (rewrite <- !app_assoc; reflexivity).
  rewrite Parse_name_body; [|lia|intros []].
  rewrite Hname. unfold argsResult, inputsOf.
  inversion Hall as [|? ? Hp0 Hrest]; subst.
  assert (Htok : commaTokens (renderKV p0 ++ renderMore rest)
                 = map renderKV (p0 :: rest)).
  { unfold commaTokens.
    destruct (renderKV p0 ++ renderMore rest) as [|c u] eqn:Eb.
    - exfalso. apply app_eq_nil in Eb. destruct Eb as [Eb _].
      destruct p0 as [k v]. unfold tellable, renderKV in *. cbn [K V] in *.
      destruct Hp0 as (Hvb & _).
      destruct k; [|discriminate Eb]. subst v. discriminate Hvb.
    - rewrite <- Eb. apply splitComma_join.
      + apply tellable_no_comma. exact Hp0.
      + eapply Forall_impl; [|exact Hrest]. apply tellable_no_comma. }
  rewrite Htok.
  assert (Hshort : forallb shortToken (map renderKV (p0 :: rest)) = true).
  { apply forallb_forall. intros t Hin. apply in_map_iff in Hin.
    destruct Hin as (p & <- & Hin).
    rewrite Forall_forall in Hall. specialize (Hall p Hin).
    unfold tellable in Hall. unfold shortToken. lia. }
  rewrite Hshort. do 3 f_equal.
  clear Htok Hshort Hne Hp0 Hrest.
  induction Hall as [|p l Hp _ IH]; [reflexivity|].
  cbn [map flat_map]. rewrite (tellable_tokenKV p Hp), IH. reflexivity.
Qed.

Lemma Parse_Render_roundtrip_witness :
  exists text,
    Hint_String {| Type_ := TypeRoute;
                   Inputs := [ {| K := lit "x"; V := lit "a=(1)" |};
                               {| K := []; V := lit "b c" |} ] |}
    = Ret text
    /\ Parse text
       = Ret (inl {| Type_ := TypeRoute;
                     Inputs := [ {| K := lit "x"; V := lit "a=(1)" |};
                                 {| K := []; V := lit "b c" |} ] |}).
Proof.
  apply (Parse_Render_roundtrip
           {| Type_ := TypeRoute;
              Inputs := [ {| K := lit "x"; V := lit "a=(1)" |};
                          {| K := []; V := lit "b c" |} ] |}).
  - cbn. unfold TypeRoute. lia.
  - discriminate.
  - assert (Hnot : forall c (s : gostring),
               existsb (Ascii.eqb c) s = false -> ~ In c s).
    { intros c s Hb Hin.
      assert (Ht : existsb (Ascii.eqb c) s = true)
        by (apply existsb_exists; exists c; split;
            [exact Hin | apply Ascii.eqb_refl]).
      congruence. }
    constructor; [|constructor; [|constructor]]; unfold tellable; cbn [K V].
    + split; [vm_compute; reflexivity|].
      split; [vm_compute; reflexivity|].
      split; [apply Hnot; vm_compute; reflexivity|].
      split; [intros H; discriminate H|].
      split; [|vm_compute; reflexivity].
      intros _. split; [vm_compute; reflexivity|].
      split; [vm_compute; reflexivity|].
      split; apply Hnot; vm_compute; reflexivity.
    + split; [vm_compute; reflexivity|].
      split; [vm_compute; reflexivity|].
      split; [apply Hnot; vm_compute; reflexivity|].
      split; [intros _; apply Hnot; vm_compute; reflexivity|].
      split; [|vm_compute; reflexivity].
      intros H. exfalso. apply H. reflexivity.
Defined.

(** * Further properties *)

(** ** The split function *)

(** X1. [scanComma] never returns an error, never advances beyond the
    data it was given nor backwards, and advances whenever it returns a
    token: the scanner that drives it cannot fail on a bad advance count
    nor loop on empty tokens. *)
Theorem scanComma_advance (data : gostring) (atEOF : bool) :
  exists advance token,
    scanComma data atEOF = (advance, token, None)
    /\ 0 <= advance <= len data
    /\ (token <> None -> 0 < advance).
Proof.
  rewrite scanComma_cut. pose proof (len_nonneg data) as Hd.
  destruct (cutComma data) as [[a b]|] eqn:Ec.
  - apply cutComma_Some in Ec. destruct Ec as [-> _].
    pose proof (len_nonneg a). pose proof (len_nonneg b).
    eexists _, _. split; [reflexivity|].
    rewrite len_app, len_cons. split; [lia|]. intros _. lia.
  - destruct atEOF.
    + destruct data as [|c d].
      * eexists _, _. split; [reflexivity|]. split; [lia|].
        intros H. exfalso. apply H. reflexivity.
      * eexists _, _. split; [reflexivity|]. split; [lia|].
        intros _. rewrite len_cons. pose proof (len_nonneg d). lia.
    + eexists _, _. split; [reflexivity|]. split; [lia|].
      intros H. exfalso. apply H. reflexivity.
Qed.

(** X2. What [scanComma] returns: with a comma in the data, the text
    before the first comma, advancing past that comma, at the end of the
    input or not; without comma, a request for more data before the end
    of the input, and at the end the whole data as last token, or no token
    when nothing is left. *)
Theorem scanComma_token (data : gostring) :
  (forall t rest atEOF,
      data = t ++ ","%char :: rest -> ~ In ","%char t ->
      scanComma data atEOF = (len t + 1, Some t, None))
  /\ (~ In ","%char data ->
      scanComma data false = (0, None, None)
      /\ scanComma data true
         = match data with
           | [] => (0, None, None)
           | _ :: _ => (len data, Some data, None)
           end).
Proof.
  split.
  - intros t rest atEOF -> Hn.
    rewrite scanComma_cut, cutComma_first by exact Hn. reflexivity.
  - intros Hn. rewrite !scanComma_cut, (cutComma_none data Hn).
    split; reflexivity.
Qed.

Lemma scanComma_token_witness :
  scanComma (lit "k=v, x") false
  = (len (lit "k=v") + 1, Some (lit "k=v"), None).
Proof.
  apply (proj1 (scanComma_token (lit "k=v, x")) (lit "k=v") (lit " x") false).
  - reflexivity.
  - intros H. cbn in H. repeat (destruct H as [H|H]; [discriminate H|]).
    exact H.
Defined.

(** ** The lookup helper *)

(** X3. [Contains] over two sequences one after the other: the answer on
    the first when that is true or a panic, otherwise the answer on the
    second. *)
Theorem Contains_app (kind : HintType) (l1 l2 : list (option Hint)) :
  Contains kind (l1 ++ l2)
  = match Contains kind l1 with
    | Ret false => Contains kind l2
    | r => r
    end.
Proof.
  induction l1 as [|v l1 IH]; [reflexivity|].
  cbn [app Contains]. destruct v as [h|]; [|reflexivity].
  destruct (Type_ h =? kind); [reflexivity | exact IH].
Qed.

(** X4. [Contains] stops at the first hint of the kind: it returns true
    whatever follows, nil pointers included; and it panics when a nil
    pointer comes before any hint of the kind. *)
Theorem Contains_first (kind : HintType) (pre : list Hint)
    (rest : list (option Hint)) :
  Forall (fun h => Type_ h <> kind) pre ->
  (forall h, Type_ h = kind ->
             Contains kind (map Some pre ++ Some h :: rest) = Ret true)
  /\ Contains kind (map Some pre ++ None :: rest)
     = Panic "nil pointer dereference".
Proof.
  intros Hpre. split.
  - intros h Hh. induction Hpre as [|p pre Hp _ IH].
    + cbn. replace (Type_ h =? kind) with true by lia. reflexivity.
    + cbn [map app Contains]. replace (Type_ p =? kind) with false by lia.
      exact IH.
  - induction Hpre as [|p pre Hp _ IH]; [reflexivity|].
    cbn [map app Contains]. replace (Type_ p =? kind) with false by lia.
    exact IH.
Qed.

Lemma Contains_first_witness :
  (forall h, Type_ h = TypeSlave ->
             Contains TypeSlave
               (map Some [ {| Type_ := TypeMaster; Inputs := [] |} ]
                ++ Some h :: [None]) = Ret true)
  /\ Contains TypeSlave
       (map Some [ {| Type_ := TypeMaster; Inputs := [] |} ]
        ++ None :: [Some {| Type_ := TypeSlave; Inputs := [] |}])
     = Panic "nil pointer dereference".
Proof.
  split.
  - apply (Contains_first TypeSlave
             [ {| Type_ := TypeMaster; Inputs := [] |} ] [None]).
    repeat constructor. cbn. discriminate.
  - apply (Contains_first TypeSlave
             [ {| Type_ := TypeMaster; Inputs := [] |} ]
             [Some {| Type_ := TypeSlave; Inputs := [] |}]).
    repeat constructor. cbn. discriminate.
Defined.

(** ** Pieces of a text *)

Lemma TrimLeft_suffix (s : gostring) :
  exists a, s = a ++ TrimLeftFunc s unicode.IsSpace.
Proof.
  remember (length s) as n eqn:En. revert s En.
  induction n as [n IH] using lt_wf_ind. intros s En.
  destruct s as [|c s]; [exists []; reflexivity|].
  assert (Hs : c :: s <> []) by discriminate.
  destruct (utf8.DecodeRuneInString (c :: s)) as [r size] eqn:Ed.
  rewrite (TrimLeft_unfold _ r size Hs Ed).
  destruct (unicode.IsSpace r); [|exists []; reflexivity].
  pose proof (length_skipn_size _ r size Hs Ed) as Hl.
  destruct (IH _ ltac:(subst n; exact Hl) _ eq_refl) as [a Ha].
  exists (firstn (Z.to_nat size) (c :: s) ++ a).
  rewrite <- app_assoc, <- Ha. symmetry. apply firstn_skipn.
Qed.

Lemma TrimRight_prefix (s : gostring) :
  exists b, s = TrimRightFunc s unicode.IsSpace ++ b.
Proof.
  rewrite TrimRight_strip, sub_firstn.
  eexists. symmetry. apply firstn_skipn.
Qed.

(** [TrimSpace] returns a piece of its argument. *)
Lemma TrimSpace_piece (s : gostring) :
  exists a b, s = a ++ TrimSpace s ++ b.
Proof.
  rewrite TrimSpace_TrimFunc. unfold TrimFunc.
  destruct (TrimLeft_suffix s) as [a Ha].
  destruct (TrimRight_prefix (TrimLeftFunc s unicode.IsSpace)) as [b Hb].
  exists a, b. rewrite <- Hb. exact Ha.
Qed.

Lemma TrimSpace_In (c : ascii) (s : gostring) :
  In c (TrimSpace s) -> In c s.
Proof.
  intros H. destruct (TrimSpace_piece s) as (a & b & E). rewrite E.
  apply in_or_app. right. apply in_or_app. left. exact H.
Qed.

Lemma TrimSpace_len (s : gostring) : len (TrimSpace s) <= len s.
Proof.
  destruct (TrimSpace_piece s) as (a & b & E). rewrite E at 2.
  rewrite !len_app. pose proof (len_nonneg a). pose proof (len_nonneg b). lia.
Qed.

Lemma splitComma_nonempty (s : gostring) : splitComma s <> [].
Proof.
  rewrite splitComma_cut. destruct (cutComma s) as [[a b]|]; discriminate.
Qed.

(** A comma-delimited field is a piece of the text and has no comma. *)
Lemma splitComma_piece (s t : gostring) :
  In t (splitComma s) ->
  ~ In ","%char t /\ exists x y, s = x ++ t ++ y.
Proof.
  remember (length s) as n eqn:En. revert s En.
  induction n as [n IH] using lt_wf_ind. intros s En.
  rewrite splitComma_cut.
  destruct (cutComma s) as [[a b]|] eqn:Ec.
  - apply cutComma_Some in Ec. destruct Ec as [Es Hn].
    intros [<-|Hin].
    + split; [exact Hn|]. exists [], (","%char :: b). exact Es.
    + assert (Hl : (length b < n)%nat).
      { subst n. rewrite Es, length_app. cbn. lia. }
      destruct (IH _ Hl b eq_refl Hin) as (Hnt & x & y & Eb).
      split; [exact Hnt|].
      exists (a ++ ","%char :: x), y. rewrite Es, Eb, <- app_assoc.
      reflexivity.
  - apply cutComma_None in Ec. intros [<-|[]].
    split; [exact Ec|]. exists [], []. rewrite app_nil_r. reflexivity.
Qed.

Lemma commaTokens_piece (s t : gostring) :
  In t (commaTokens s) ->
  ~ In ","%char t /\ exists x y, s = x ++ t ++ y.
Proof.
  unfold commaTokens. destruct s as [|c s]; [intros []|].
  apply splitComma_piece.
Qed.

(** ** The inputs of a parsed hint *)

(** The pair of a short token can be told from its rendered text. *)
Lemma tokenKV_tellable (t : gostring) (p : KeyValue) :
  ~ In ","%char t -> shortToken t = true ->
  tokenKV t = Some p -> tellable p.
Proof.
  intros Hc Hs Hp. pose proof (tokenKV_trimmed t p Hp) as (Hvb & Hvt & Hk).
  unfold shortToken in Hs. unfold tokenKV in Hp.
  destruct (breakAt "=" t) as [[a b]|] eqn:Eb.
  - apply breakAt_Some in Eb. destruct Eb as [Et Hna].
    destruct (misc.IsBlank (TrimSpace a) || misc.IsBlank (TrimSpace b))
      eqn:Ebl; [discriminate|].
    apply orb_false_iff in Ebl. destruct Ebl as [Eka _].
    injection Hp as <-. cbn [K V] in *.
    assert (Hkne : TrimSpace a <> []).
    { intros E. rewrite E in Eka. discriminate Eka. }
    assert (Hca : forall c, In c (TrimSpace a) -> In c t).
    { intros c H. apply TrimSpace_In in H. rewrite Et.
      apply in_or_app. left. exact H. }
    assert (Hcb : forall c, In c (TrimSpace b) -> In c t).
    { intros c H. apply TrimSpace_In in H. rewrite Et.
      apply in_or_app. right. right. exact H. }
    unfold tellable. cbn [K V].
    split; [exact Hvb|]. split; [exact Hvt|].
    split; [intros H; apply Hc, Hcb, H|].
    split; [intros E; contradiction|].
    split.
    + intros _. destruct (Hk Hkne) as [H1 H2].
      split; [exact H1|]. split; [exact H2|].
      split; [intros H; apply Hc, Hca, H|].
      intros H. apply Hna. apply TrimSpace_In. exact H.
    + unfold renderKV. cbn [K V].
      destruct (TrimSpace a) as [|c k] eqn:Ea; [contradiction|].
      rewrite <- Ea. rewrite !len_app.
      change (len (lit "=")) with 1.
      pose proof (TrimSpace_len a). pose proof (TrimSpace_len b).
      assert (len t = len a + (len b + 1))
        by (rewrite Et, len_app, len_cons; reflexivity).
      lia.
  - apply breakAt_None in Eb.
    destruct (misc.IsBlank (TrimSpace t)) eqn:Ebl; [discriminate|].
    injection Hp as <-. cbn [K V] in *.
    unfold tellable. cbn [K V].
    split; [exact Hvb|]. split; [exact Hvt|].
    split; [intros H; apply Hc; apply TrimSpace_In; exact H|].
    split; [intros _ H; apply Eb; apply TrimSpace_In; exact H|].
    split; [intros H; exfalso; apply H; reflexivity|].
    unfold renderKV. cbn [K V]. pose proof (TrimSpace_len t). lia.
Qed.

Lemma inputsOf_tellable (body : gostring) :
  forallb shortToken (commaTokens body) = true ->
  Forall tellable (inputsOf body).
Proof.
  intros Hs. rewrite forallb_forall in Hs.
  unfold inputsOf. apply Forall_forall. intros p Hin.
  apply in_flat_map in Hin. destruct Hin as (t & Ht & Hp).
  destruct (tokenKV t) as [q|] eqn:Et; cbn in Hp; [|tauto].
  destruct Hp as [<-|[]].
  apply (tokenKV_tellable t q); [|apply Hs, Ht|exact Et].
  apply (commaTokens_piece body t Ht).
Qed.

(** How [Parse] succeeds: on a bare name that resolves, or on a name that
    resolves followed by an argument-list text of short tokens. *)
Lemma Parse_inl_args (s : gostring) (h : Hint) :
  Parse s = Ret (inl h) ->
  Type_ h = lookup (typeToken s) /\ Type_ h <> 0
  /\ match index_opt s ["("%char] with
     | None => Inputs h = []
     | Some o =>
         exists e, last_index_opt s [")"%char] = Some e /\ (o < e)%nat
           /\ forallb shortToken
                (commaTokens (sub s (Z.of_nat o + 1) (Z.of_nat e))) = true
           /\ Inputs h = inputsOf (sub s (Z.of_nat o + 1) (Z.of_nat e))
     end.
Proof.
  rewrite Parse_unfold. unfold typeToken.
  destruct (index_opt s ["("%char]) as [o|] eqn:Eo; cbv zeta.
  - destruct (lookup (firstn o s) =? 0) eqn:Htp; [discriminate|].
    destruct (last_index_opt s [")"%char]) as [e|] eqn:Ee; [|discriminate].
    unfold argsResult.
    destruct (forallb shortToken _) eqn:Es; [|discriminate].
    intros H. injection H as <-. cbn [Type_ Inputs].
    split; [reflexivity|]. split; [lia|].
    exists e. split; [reflexivity|]. split; [|split; [exact Es|reflexivity]].
    apply (paren_order s o e Eo); [lia | exact Ee].
  - destruct (lookup s =? 0) eqn:Htp; [discriminate|].
    intros H. injection H as <-. cbn [Type_ Inputs].
    split; [reflexivity|]. split; [lia|reflexivity].
Qed.

(** The lookup answers 0 or the ordinal of a canonical name that the text
    equals under case folding. *)
Lemma lookup_name (t : gostring) :
  lookup t = 0
  \/ (1 <= lookup t <= 6 /\ EqualFold t (nameOf (lookup t)) = true).
Proof.
  unfold lookup, nameOf, _hintTypes. cbn [lookupFrom].
  destruct (EqualFold t (lit "")); [left; reflexivity|].
  destruct (EqualFold t (lit "MASTER")) eqn:E1;
    [right; split; [cbn; lia | exact E1]|].
  destruct (EqualFold t (lit "SLAVE")) eqn:E2;
    [right; split; [cbn; lia | exact E2]|].
  destruct (EqualFold t (lit "ROUTE")) eqn:E3;
    [right; split; [cbn; lia | exact E3]|].
  destruct (EqualFold t (lit "FULLSCAN")) eqn:E4;
    [right; split; [cbn; lia | exact E4]|].
  destruct (EqualFold t (lit "DIRECT")) eqn:E5;
    [right; split; [cbn; lia | exact E5]|].
  destruct (EqualFold t (lit "TRACE")) eqn:E6;
    [right; split; [cbn; lia | exact E6]|].
  left. reflexivity.
Qed.

Lemma carries_trans (s t u : gostring) :
  carries s t -> carries t u -> carries s u.
Proof.
  intros (a & b & ->) (c & d & ->). exists (a ++ c), (d ++ b).
  rewrite <- !app_assoc. reflexivity.
Qed.

Lemma carries_nil (s : gostring) : carries s [].
Proof. exists [], s. reflexivity. Qed.

Lemma sub_piece (s : gostring) (lo hi : Z) : carries s (sub s lo hi).
Proof.
  unfold sub, carries.
  exists (firstn (Z.to_nat lo) s),
         (skipn (Z.to_nat (hi - lo)) (skipn (Z.to_nat lo) s)).
  rewrite firstn_skipn, firstn_skipn. reflexivity.
Qed.

(** Key and value of the pair of a token are pieces of the token. *)
Lemma tokenKV_piece (t : gostring) (p : KeyValue) :
  tokenKV t = Some p -> carries t (K p) /\ carries t (V p).
Proof.
  unfold tokenKV. destruct (breakAt "=" t) as [[a b]|] eqn:Eb.
  - apply breakAt_Some in Eb. destruct Eb as [Et _].
    destruct (_ || _); [discriminate|]. intros H. injection H as <-.
    cbn [K V]. split.
    + apply (carries_trans t a); [|apply TrimSpace_piece].
      exists [], ("="%char :: b). exact Et.
    + apply (carries_trans t b); [|apply TrimSpace_piece].
      exists (a ++ ["="%char]), []. rewrite app_nil_r, <- app_assoc.
      exact Et.
  - destruct (misc.IsBlank _); [discriminate|]. intros H. injection H as <-.
    cbn [K V]. split; [apply carries_nil | apply TrimSpace_piece].
Qed.

(** The canonical names resolve to their ordinals. *)
Lemma lookup_nameOf (tp : HintType) :
  1 <= tp <= 6 -> lookup (nameOf tp) = tp.
Proof.
  intros H.
  assert (Hc : tp = 1 \/ tp = 2 \/ tp = 3 \/ tp = 4 \/ tp = 5 \/ tp = 6)
    by lia.
  destruct Hc as [->|[->|[->|[->|[->| ->]]]]]; vm_compute; reflexivity.
Qed.

Lemma Type_String_nameOf (tp : HintType) :
  0 <= tp <= 6 -> Type_String tp = Ret (nameOf tp).
Proof.
  intros H. unfold Type_String. change (len _hintTypes) with 7.
  replace ((tp <? 0) || (7 <=? tp)) with false by lia. reflexivity.
Qed.

(** The text [Hint_String] builds for a type of the table. *)
Lemma Hint_String_text (tp : HintType) (inputs : list KeyValue) :
  0 <= tp <= 6 ->
  Hint_String {| Type_ := tp; Inputs := inputs |}
  = Ret (nameOf tp ++ lit "("
         ++ match inputs with
            | [] => []
            | p0 :: rest => renderKV p0 ++ renderMore rest
            end ++ lit ")" ++ []).
Proof.
  intros H. unfold Hint_String. cbn [Type_ Inputs].
  rewrite (Type_String_nameOf tp H). cbn [bind].
  destruct inputs as [|p0 rest].
  - reflexivity.
  - replace (len (p0 :: rest) <? 1) with false
      by (rewrite len_cons; pose proof (len_nonneg rest); lia).
    rewrite fold_writeKv, writeKv_render, <- !app_assoc. reflexivity.
Qed.

Lemma tellable_render_nonempty (p : KeyValue) :
  tellable p -> renderKV p <> [].
Proof.
  destruct p as [k v]. unfold tellable, renderKV. cbn [K V].
  intros (Hvb & _) E. destruct k; [|discriminate E].
  subst v. discriminate Hvb.
Qed.

(** The tokens and the inputs of the argument-list text rendered from
    tellable inputs. *)
Lemma rendered_tokens (inputs : list KeyValue) :
  Forall tellable inputs ->
  let body := match inputs with
              | [] => []
              | p0 :: rest => renderKV p0 ++ renderMore rest
              end in
  commaTokens body = map renderKV inputs /\ inputsOf body = inputs.
Proof.
  intros Hall body.
  assert (Htok : commaTokens body = map renderKV inputs).
  { unfold body. destruct Hall as [|p0 rest Hp0 Hrest]; [reflexivity|].
    unfold commaTokens.
    destruct (renderKV p0 ++ renderMore rest) as [|c u] eqn:Eb.
    - exfalso. apply app_eq_nil in Eb. destruct Eb as [Eb _].
      exact (tellable_render_nonempty p0 Hp0 Eb).
    - rewrite <- Eb. apply splitComma_join.
      + apply tellable_no_comma. exact Hp0.
      + eapply Forall_impl; [|exact Hrest]. apply tellable_no_comma. }
  split; [exact Htok|].
  unfold inputsOf. rewrite Htok. clear Htok body.
  induction Hall as [|p l Hp _ IH]; [reflexivity|].
  cbn [map flat_map]. rewrite (tellable_tokenKV p Hp), IH. reflexivity.
Qed.

(** Rendering a hint of a declared kind with tellable inputs, empty or not,
    and parsing the text gives the hint back. *)
Lemma render_parse (tp : HintType) (inputs : list KeyValue) :
  1 <= tp <= 6 -> Forall tellable inputs ->
  exists text,
    Hint_String {| Type_ := tp; Inputs := inputs |} = Ret text
    /\ Parse text = Ret (inl {| Type_ := tp; Inputs := inputs |}).
Proof.
  intros Htp Hall. eexists. split; [apply Hint_String_text; lia|].
  rewrite Parse_name_body;
    [|rewrite lookup_nameOf by exact Htp; lia|intros []].
  rewrite (lookup_nameOf tp Htp). unfold argsResult.
  destruct (rendered_tokens inputs Hall) as [Htok Hin].
  rewrite Htok, Hin.
  replace (forallb shortToken (map renderKV inputs)) with true;
    [reflexivity|].
  symmetry. apply forallb_forall. intros t Ht. apply in_map_iff in Ht.
  destruct Ht as (p & <- & Hp).
  rewrite Forall_forall in Hall. specialize (Hall p Hp).
  unfold tellable in Hall. unfold shortToken. lia.
Qed.

(** A type-name token that does not resolve makes [Parse] fail. *)
Lemma Parse_unresolved (s : gostring) :
  lookup (typeToken s) = 0 -> Parse s = Ret (inr (errors.Errorf_invalid s)).
Proof.
  rewrite Parse_unfold. unfold typeToken.
  destruct (index_opt s ["("%char]) as [o|]; cbv zeta; intros ->;
    reflexivity.
Qed.

(** ** Further properties of [Parse] and [Hint.String] *)

(** X5. A hint that [Parse] returns has one of the six declared types, and
    the type-name token of the input, the text before the first opening
    parenthesis or the whole input, equals the canonical name of that type
    under case folding and is written with letters and non-ASCII bytes
    only; [Type.String] returns that canonical name. *)
Theorem Parse_type_named (s : gostring) (h : Hint) :
  Parse s = Ret (inl h) ->
  1 <= Type_ h <= 6
  /\ EqualFold (typeToken s) (nameOf (Type_ h)) = true
  /\ Forall letterOrHigh (typeToken s)
  /\ Type_String (Type_ h) = Ret (nameOf (Type_ h)).
Proof.
  intros Hp. apply Parse_inl_args in Hp. destruct Hp as (Ht & Hnz & _).
  destruct (lookup_name (typeToken s)) as [Hz|[Hr He]];
    [rewrite Ht in Hnz; contradiction|].
  rewrite Ht. split; [exact Hr|]. split; [exact He|].
  split; [apply lookup_letterOrHigh; rewrite <- Ht; exact Hnz|].
  apply Type_String_nameOf. lia.
Qed.

Lemma Parse_type_named_witness :
  1 <= TypeRoute <= 6
  /\ EqualFold (typeToken (lit "rOuTe(a, k=v)")) (nameOf TypeRoute) = true
  /\ Forall letterOrHigh (typeToken (lit "rOuTe(a, k=v)"))
  /\ Type_String TypeRoute = Ret (nameOf TypeRoute).
Proof.
  apply (Parse_type_named (lit "rOuTe(a, k=v)")
           {| Type_ := TypeRoute;
              Inputs := [ {| K := []; V := lit "a" |};
                          {| K := lit "k"; V := lit "v" |} ] |}).
  vm_compute. reflexivity.
Defined.

(** X6. Every input of a hint that [Parse] returns is tellable: its value
    is trimmed, not blank and free of commas; a key that is present is
    trimmed, not blank and free of commas and equals signs; a value without
    key has no equals sign; and the input, rendered as key=value or value,
    is shorter than 65536 bytes. *)
Theorem Parse_inputs_tellable (s : gostring) (h : Hint) :
  Parse s = Ret (inl h) -> Forall tellable (Inputs h).
Proof.
  intros Hp. apply Parse_inl_args in Hp. destruct Hp as (_ & _ & Hp).
  destruct (index_opt s ["("%char]) as [o|].
  - destruct Hp as (e & _ & _ & Hs & ->). apply inputsOf_tellable, Hs.
  - rewrite Hp. constructor.
Qed.

Lemma Parse_inputs_tellable_witness :
  Forall tellable [ {| K := []; V := lit "a" |};
                    {| K := lit "k"; V := lit "v=w" |} ].
Proof.
  apply (Parse_inputs_tellable (lit "slave( a ,, k = v=w )")
           {| Type_ := TypeSlave;
              Inputs := [ {| K := []; V := lit "a" |};
                          {| K := lit "k"; V := lit "v=w" |} ] |}).
  vm_compute. reflexivity.
Defined.

(** X7. Rendering is a canonical form of parsing: for every hint that
    [Parse] returns, on any input, [Hint.String] returns a text without
    panicking, and [Parse] of that text returns the same hint. *)
Theorem Parse_canonical (s : gostring) (h : Hint) :
  Parse s = Ret (inl h) ->
  exists text, Hint_String h = Ret text /\ Parse text = Ret (inl h).
Proof.
  intros Hp. pose proof (Parse_inl_args s h Hp) as (Ht & Hnz & Hi).
  assert (Hr : 1 <= Type_ h <= 6).
  { destruct (lookup_name (typeToken s)) as [Hz|[Hr _]];
      [rewrite Ht in Hnz; contradiction | rewrite Ht; exact Hr]. }
  assert (Hall : Forall tellable (Inputs h)).
  { destruct (index_opt s ["("%char]) as [o|].
    - destruct Hi as (e & _ & _ & Hs & ->). apply inputsOf_tellable, Hs.
    - rewrite Hi. constructor. }
  destruct h as [tp inputs]. apply render_parse; assumption.
Qed.

Lemma Parse_canonical_witness :
  exists text,
    Hint_String {| Type_ := TypeFullScan;
                   Inputs := [ {| K := lit "t"; V := lit "x y" |} ] |}
    = Ret text
    /\ Parse text
       = Ret (inl {| Type_ := TypeFullScan;
                     Inputs := [ {| K := lit "t"; V := lit "x y" |} ] |}).
Proof.
  apply (Parse_canonical (lit "FullScan(,t =  x y ,) trailing")).
  vm_compute. reflexivity.
Defined.

(** X8. Names are strict: when the type-name token has an ASCII byte that
    is not a letter (a space, a digit, a sign), [Parse] fails with the
    invalid-hint error on its input; the name is not trimmed. *)
Theorem Parse_strict_name (s : gostring) (c : ascii) :
  In c (typeToken s) -> asciiNonLetter c ->
  Parse s = Ret (inr (errors.Errorf_invalid s)).
Proof.
  intros Hin (Hlt & Hu & Hl). apply Parse_unresolved.
  destruct (Z.eq_dec (lookup (typeToken s)) 0) as [E|Hne]; [exact E|].
  exfalso. apply lookup_letterOrHigh in Hne. rewrite Forall_forall in Hne.
  specialize (Hne c Hin). unfold letterOrHigh in Hne. cbv zeta in *. lia.
Qed.

Lemma Parse_strict_name_witness :
  Parse (lit "master (a)")
  = Ret (inr (errors.Errorf_invalid (lit "master (a)"))).
Proof.
  apply (Parse_strict_name (lit "master (a)") " "%char).
  - vm_compute. right. right. right. right. right. right. left. reflexivity.
  - unfold asciiNonLetter. cbv zeta.
    change (byteval " "%char) with 32. lia.
Defined.

(** X9. [Parse] always returns, without panic, and its answer has one of
    three forms: a hint; the invalid-hint error on the whole input; or, with
    both parentheses present, the scanner's token-too-long error wrapped
    with the text between the first opening and the last closing
    parenthesis. *)
Theorem Parse_returns (s : gostring) :
  (exists h, Parse s = Ret (inl h))
  \/ Parse s = Ret (inr (errors.Errorf_invalid s))
  \/ (exists o c,
        index_opt s ["("%char] = Some o
        /\ last_index_opt s [")"%char] = Some c
        /\ Parse s
           = Ret (inr (errors.Wrapf_invalid bufio.ErrTooLong
                         (sub s (Z.of_nat o + 1) (Z.of_nat c))))).
Proof.
  rewrite Parse_unfold.
  destruct (index_opt s ["("%char]) as [o|] eqn:Eo; cbv zeta.
  - destruct (lookup (firstn o s) =? 0); [right; left; reflexivity|].
    destruct (last_index_opt s [")"%char]) as [e|] eqn:Ee;
      [|right; left; reflexivity].
    unfold argsResult. destruct (forallb shortToken _).
    + left. eexists. reflexivity.
    + right. right. exists o, e. repeat split.
  - destruct (lookup s =? 0); [right; left; reflexivity|].
    left. eexists. reflexivity.
Qed.

(** X10. The zero type renders and never parses: for the type of ordinal 0
    and any inputs, [Hint.String] returns a text, and [Parse] rejects that
    text with the invalid-hint error. *)
Theorem zero_type_unparsable (inputs : list KeyValue) :
  exists text,
    Hint_String {| Type_ := 0; Inputs := inputs |} = Ret text
    /\ Parse text = Ret (inr (errors.Errorf_invalid text)).
Proof.
  eexists. split; [apply Hint_String_text; lia|].
  apply Parse_unresolved. unfold typeToken.
  change (nameOf 0 ++ lit "(" ++ ?x) with ("("%char :: x).
  rewrite index_opt_byte, Ascii.eqb_refl. reflexivity.
Qed.

(** X11. [Parse] invents no text: the key and the value of every input of
    a returned hint occur in the input, contiguously. *)
Theorem Parse_inputs_from_text (s : gostring) (h : Hint) (p : KeyValue) :
  Parse s = Ret (inl h) -> In p (Inputs h) ->
  carries s (K p) /\ carries s (V p).
Proof.
  intros Hp Hin. apply Parse_inl_args in Hp. destruct Hp as (_ & _ & Hp).
  destruct (index_opt s ["("%char]) as [o|];
    [|rewrite Hp in Hin; destruct Hin].
  destruct Hp as (e & _ & _ & _ & Hi). rewrite Hi in Hin.
  unfold inputsOf in Hin. apply in_flat_map in Hin.
  destruct Hin as (t & Ht & Hq).
  destruct (tokenKV t) as [q|] eqn:Et; cbn in Hq; [|tauto].
  destruct Hq as [<-|[]].
  destruct (commaTokens_piece _ t Ht) as (_ & x & y & Hb).
  assert (Hst : carries s t).
  { apply (carries_trans s _ t
             (sub_piece s (Z.of_nat o + 1) (Z.of_nat e))).
    exists x, y. exact Hb. }
  destruct (tokenKV_piece t q Et) as [Hk Hv].
  split; eapply carries_trans; eauto.
Qed.

Lemma Parse_inputs_from_text_witness :
  carries (lit "trace( id = 7 )") (lit "id")
  /\ carries (lit "trace( id = 7 )") (lit "7").
Proof.
  apply (Parse_inputs_from_text (lit "trace( id = 7 )")
           {| Type_ := TypeTrace;
              Inputs := [ {| K := lit "id"; V := lit "7" |} ] |}
           {| K := lit "id"; V := lit "7" |}).
  - vm_compute. reflexivity.
  - left. reflexivity.
Defined.

(** ** Whitespace around tokens *)

Lemma asciiWhite_range (c : ascii) : asciiWhite c -> 0 <= byteval c < 128.
Proof.
  unfold asciiWhite, asciiSpace. intros H. lia.
Qed.

Lemma asciiWhite_IsSpace (c : ascii) :
  asciiWhite c -> unicode.IsSpace (byteval c) = true.
Proof.
  intros H. rewrite asciiSpace_IsSpace by (apply asciiWhite_range, H).
  exact H.
Qed.

Lemma asciiWhite_clean (c : ascii) (z : gostring) :
  asciiWhite c -> startsClean (c :: z).
Proof.
  intros H. left. apply asciiWhite_range in H. lia.
Qed.

Lemma TrimLeft_white (c : ascii) (x : gostring) :
  asciiWhite c ->
  TrimLeftFunc (c :: x) unicode.IsSpace = TrimLeftFunc x unicode.IsSpace.
Proof.
  intros H.
  rewrite (TrimLeft_unfold (c :: x) (byteval c) 1);
    [|discriminate|apply Decode_ascii; apply asciiWhite_range in H; lia].
  rewrite (asciiWhite_IsSpace c H). reflexivity.
Qed.

Lemma IsBlank_nil : misc.IsBlank [] = true.
Proof. reflexivity. Qed.

Lemma skipn_size_app (x z : gostring) (size : Z) :
  size <= len x ->
  skipn (Z.to_nat size) (x ++ z) = skipn (Z.to_nat size) x ++ z.
Proof.
  intros H. rewrite skipn_app.
  replace (Z.to_nat size - length x)%nat with O by (unfold len in H; lia).
  reflexivity.
Qed.

(** Blankness of a text followed by one that starts a rune. *)
Lemma IsBlank_app (x z : gostring) :
  startsClean z ->
  misc.IsBlank (x ++ z) = misc.IsBlank x && misc.IsBlank z.
Proof.
  intros Hz. remember (length x) as n eqn:En. revert x En.
  induction n as [n IH] using lt_wf_ind. intros x En.
  destruct x as [|c x]; [reflexivity|].
  assert (Hx : c :: x <> []) by discriminate.
  destruct (utf8.DecodeRuneInString (c :: x)) as [r size] eqn:Ed.
  pose proof (Decode_size _ r size Hx Ed) as Hsz.
  rewrite (IsBlank_unfold ((c :: x) ++ z) r size);
    [|discriminate|rewrite Decode_app by assumption; exact Ed].
  rewrite (IsBlank_unfold (c :: x) r size Hx Ed).
  rewrite skipn_size_app by lia.
  pose proof (length_skipn_size _ r size Hx Ed) as Hl.
  rewrite (IH _ ltac:(subst n; exact Hl) _ eq_refl).
  apply andb_assoc.
Qed.

(** Left trimming of a text that is not blank does not look at what
    follows it. *)
Lemma TrimLeft_app (x z : gostring) :
  startsClean z -> misc.IsBlank x = false ->
  TrimLeftFunc (x ++ z) unicode.IsSpace
  = TrimLeftFunc x unicode.IsSpace ++ z.
Proof.
  intros Hz. remember (length x) as n eqn:En. revert x En.
  induction n as [n IH] using lt_wf_ind. intros x En Hb.
  destruct x as [|c x]; [discriminate Hb|].
  assert (Hx : c :: x <> []) by discriminate.
  destruct (utf8.DecodeRuneInString (c :: x)) as [r size] eqn:Ed.
  pose proof (Decode_size _ r size Hx Ed) as Hsz.
  rewrite (TrimLeft_unfold ((c :: x) ++ z) r size);
    [|discriminate|rewrite Decode_app by assumption; exact Ed].
  rewrite (TrimLeft_unfold (c :: x) r size Hx Ed).
  rewrite (IsBlank_unfold (c :: x) r size Hx Ed) in Hb.
  destruct (unicode.IsSpace r); [|reflexivity].
  rewrite skipn_size_app by lia.
  pose proof (length_skipn_size _ r size Hx Ed) as Hl.
  apply (IH _ ltac:(subst n; exact Hl) _ eq_refl). exact Hb.
Qed.

Lemma IsBlank_white (w : gostring) :
  Forall asciiWhite w -> misc.IsBlank w = true.
Proof.
  intros H. induction H as [|c w Hc _ IH]; [reflexivity|].
  rewrite (IsBlank_unfold (c :: w) (byteval c) 1);
    [|discriminate|apply Decode_ascii; apply asciiWhite_range in Hc; lia].
  rewrite (asciiWhite_IsSpace c Hc). exact IH.
Qed.

(** [TrimSpace] does not see an ASCII whitespace byte put before or after
    its argument. *)
Lemma TrimSpace_white_l (c : ascii) (x : gostring) :
  asciiWhite c -> TrimSpace (c :: x) = TrimSpace x.
Proof.
  intros H. rewrite !TrimSpace_TrimFunc. unfold TrimFunc.
  rewrite (TrimLeft_white c x H). reflexivity.
Qed.

Lemma TrimSpace_white_r (c : ascii) (x : gostring) :
  asciiWhite c -> TrimSpace (x ++ [c]) = TrimSpace x.
Proof.
  intros H. rewrite !TrimSpace_TrimFunc. unfold TrimFunc.
  destruct (misc.IsBlank x) eqn:Eb.
  - assert (E1 : TrimLeftFunc x unicode.IsSpace = [])
      by (apply IsBlank_TrimLeft; exact Eb).
    assert (E2 : TrimLeftFunc (x ++ [c]) unicode.IsSpace = []).
    { apply IsBlank_TrimLeft.
      rewrite IsBlank_app by (apply asciiWhite_clean, H).
      rewrite Eb, (IsBlank_white [c]); [reflexivity|].
      constructor; [exact H | constructor]. }
    rewrite E1, E2. reflexivity.
  - rewrite TrimLeft_app; [|apply asciiWhite_clean, H|exact Eb].
    apply TrimRight_snoc_space; [|exact H].
    apply asciiWhite_range in H. lia.
Qed.

Lemma TrimSpace_pad (w1 x w2 : gostring) :
  Forall asciiWhite w1 -> Forall asciiWhite w2 ->
  TrimSpace (w1 ++ x ++ w2) = TrimSpace x.
Proof.
  intros H1 H2. induction H1 as [|c w1 Hc _ IH].
  - cbn [app]. clear -H2. induction w2 as [|c w2 IH] using rev_ind.
    + rewrite app_nil_r. reflexivity.
    + apply Forall_app in H2. destruct H2 as [Hw Hc].
      inversion Hc as [|? ? Hc' _]; subst.
      rewrite app_assoc, (TrimSpace_white_r c _ Hc'). apply IH, Hw.
  - cbn [app]. rewrite (TrimSpace_white_l c _ Hc). exact IH.
Qed.

Lemma white_not_byte (c : ascii) (w : gostring) :
  asciiSpace (byteval c) = false -> Forall asciiWhite w -> ~ In c w.
Proof.
  intros Hc Hw Hin. rewrite Forall_forall in Hw. specialize (Hw c Hin).
  unfold asciiWhite in Hw. congruence.
Qed.

(** The pair of a token does not change with ASCII whitespace around the
    token. *)
Lemma tokenKV_pad (w1 t w2 : gostring) :
  Forall asciiWhite w1 -> Forall asciiWhite w2 ->
  tokenKV (w1 ++ t ++ w2) = tokenKV t.
Proof.
  intros H1 H2.
  assert (Hn1 : ~ In "="%char w1)
    by (apply white_not_byte; [reflexivity | exact H1]).
  assert (Hn2 : ~ In "="%char w2)
    by (apply white_not_byte; [reflexivity | exact H2]).
  unfold tokenKV. destruct (breakAt "=" t) as [[a b]|] eqn:Eb.
  - apply breakAt_Some in Eb. destruct Eb as [-> Hna].
    replace (w1 ++ (a ++ "="%char :: b) ++ w2)
      with ((w1 ++ a) ++ "="%char :: (b ++ w2))
      by (rewrite <- !app_assoc; reflexivity).
    rewrite breakAt_first.
    + pose proof (TrimSpace_pad w1 a [] H1 (Forall_nil _)) as Ea.
      rewrite app_nil_r in Ea.
      pose proof (TrimSpace_pad [] b w2 (Forall_nil _) H2) as Ev.
      cbn [app] in Ev. rewrite Ea, Ev. reflexivity.
    + intros H. apply in_app_or in H. tauto.
  - apply breakAt_None in Eb. rewrite breakAt_none.
    + rewrite (TrimSpace_pad w1 t w2 H1 H2). reflexivity.
    + intros H. apply in_app_or in H. destruct H as [H|H]; [tauto|].
      apply in_app_or in H. tauto.
Qed.

(** What [Parse] answers for an argument-list text without comma. *)
Lemma argsResult_single (tp : HintType) (b : gostring) :
  ~ In ","%char b -> len b < bufio.MaxScanTokenSize ->
  argsResult tp b = Ret (inl {| Type_ := tp; Inputs := olist (tokenKV b) |}).
Proof.
  intros Hn Hl. unfold argsResult, inputsOf, commaTokens.
  destruct b as [|c b]; [rewrite tokenKV_nil; reflexivity|].
  rewrite splitComma_cut, (cutComma_none _ Hn). cbn [forallb flat_map].
  unfold shortToken. replace (len (c :: b) <? bufio.MaxScanTokenSize)
    with true by lia.
  rewrite app_nil_r. reflexivity.
Qed.

(** ** Arguments side by side *)

Lemma splitComma_app (a b : gostring) :
  splitComma (a ++ ","%char :: b) = splitComma a ++ splitComma b.
Proof.
  induction a as [|c a IH]; [reflexivity|].
  cbn [app splitComma]. destruct (Ascii.eqb c ","); [rewrite IH; reflexivity|].
  rewrite IH. pose proof (splitComma_nonempty a) as Hne.
  destruct (splitComma a) as [|t ts]; [contradiction|]. reflexivity.
Qed.

Lemma commaTokens_splitComma (b : gostring) :
  forallb shortToken (commaTokens b) = forallb shortToken (splitComma b)
  /\ inputsOf b = flat_map (fun t => olist (tokenKV t)) (splitComma b).
Proof.
  unfold inputsOf, commaTokens. destruct b as [|c b]; [|split; reflexivity].
  cbn [splitComma forallb flat_map]. rewrite tokenKV_nil. split; reflexivity.
Qed.

(** The tokens of two argument-list texts joined by a comma. *)
Lemma commaTokens_join (a b : gostring) :
  forallb shortToken (commaTokens (a ++ ","%char :: b))
  = forallb shortToken (commaTokens a) && forallb shortToken (commaTokens b)
  /\ inputsOf (a ++ ","%char :: b) = inputsOf a ++ inputsOf b.
Proof.
  destruct (commaTokens_splitComma (a ++ ","%char :: b)) as [-> ->].
  destruct (commaTokens_splitComma a) as [-> ->].
  destruct (commaTokens_splitComma b) as [-> ->].
  rewrite splitComma_app, forallb_app, flat_map_app. split; reflexivity.
Qed.

Lemma Parse_name_args (N b : gostring) :
  lookup N <> 0 ->
  Parse (N ++ lit "(" ++ b ++ lit ")") = argsResult (lookup N) b.
Proof.
  intros H. rewrite <- (Parse_name_body N b [] H (fun x => x)).
  rewrite app_nil_r. reflexivity.
Qed.

Lemma piece_In (b x t y : gostring) (c : ascii) :
  b = x ++ t ++ y -> In c t -> In c b.
Proof.
  intros -> H. apply in_or_app. right. apply in_or_app. left. exact H.
Qed.

Lemma piece_len (b x t y : gostring) : b = x ++ t ++ y -> len t <= len b.
Proof.
  intros ->. rewrite !len_app.
  pose proof (len_nonneg x). pose proof (len_nonneg y). lia.
Qed.

(** A token of ASCII whitespace stands for no pair. *)
Lemma tokenKV_white (t : gostring) : Forall asciiWhite t -> tokenKV t = None.
Proof.
  intros H. unfold tokenKV.
  rewrite breakAt_none by (apply white_not_byte; [reflexivity | exact H]).
  cbv zeta. rewrite IsBlank_TrimSpace, (IsBlank_white t H). reflexivity.
Qed.

Lemma succeeded_argsResult (tp : HintType) (b : gostring) :
  succeeded (argsResult tp b) = forallb shortToken (commaTokens b).
Proof.
  unfold argsResult. destruct (forallb shortToken _); reflexivity.
Qed.

(** X12. Arguments compose at a comma: for a name that resolves, [Parse]
    succeeds on N(a,b) exactly when it succeeds on N(a) and on N(b), and
    then the inputs of N(a,b) are those of N(a) followed by those
    of N(b). *)
Theorem Parse_comma_compose (N a b : gostring) :
  lookup N <> 0 ->
  succeeded (Parse (N ++ lit "(" ++ (a ++ lit "," ++ b) ++ lit ")"))
  = succeeded (Parse (N ++ lit "(" ++ a ++ lit ")"))
    && succeeded (Parse (N ++ lit "(" ++ b ++ lit ")"))
  /\ forall ha hb,
       Parse (N ++ lit "(" ++ a ++ lit ")") = Ret (inl ha) ->
       Parse (N ++ lit "(" ++ b ++ lit ")") = Ret (inl hb) ->
       Parse (N ++ lit "(" ++ (a ++ lit "," ++ b) ++ lit ")")
       = Ret (inl {| Type_ := lookup N; Inputs := Inputs ha ++ Inputs hb |}).
Proof.
  intros HN. rewrite !Parse_name_args by exact HN.
  change (a ++ lit "," ++ b) with (a ++ ","%char :: b).
  destruct (commaTokens_join a b) as [Hs Hi].
  split; [rewrite !succeeded_argsResult; exact Hs|].
  unfold argsResult. rewrite Hs, Hi.
  destruct (forallb shortToken (commaTokens a)); [|discriminate].
  destruct (forallb shortToken (commaTokens b)); [|discriminate].
  intros ha hb Ha Hb. injection Ha as <-. injection Hb as <-. reflexivity.
Qed.

Lemma Parse_comma_compose_witness :
  Parse (lit "ROUTE" ++ lit "(" ++ (lit "a, x=1" ++ lit "," ++ lit " b ")
         ++ lit ")")
  = Ret (inl {| Type_ := lookup (lit "ROUTE");
                Inputs := [ {| K := []; V := lit "a" |};
                            {| K := lit "x"; V := lit "1" |} ]
                          ++ [ {| K := []; V := lit "b" |} ] |}).
Proof.
  apply (proj2 (Parse_comma_compose (lit "ROUTE") (lit "a, x=1") (lit " b ")
                  ltac:(vm_compute; discriminate))
           {| Type_ := TypeRoute;
              Inputs := [ {| K := []; V := lit "a" |};
                          {| K := lit "x"; V := lit "1" |} ] |}
           {| Type_ := TypeRoute;
              Inputs := [ {| K := []; V := lit "b" |} ] |});
    vm_compute; reflexivity.
Defined.

(** X13. An argument list of nothing but commas and ASCII whitespace,
    shorter than 65536 bytes, gives a hint without inputs: for a name that
    resolves, [Parse] returns the type of the name and no input. *)
Theorem Parse_blank_body (N b : gostring) :
  lookup N <> 0 ->
  Forall (fun c => c = ","%char \/ asciiWhite c) b ->
  len b < bufio.MaxScanTokenSize ->
  Parse (N ++ lit "(" ++ b ++ lit ")")
  = Ret (inl {| Type_ := lookup N; Inputs := [] |}).
Proof.
  intros HN Hb Hl. rewrite Parse_name_args by exact HN.
  assert (Htok : forall t, In t (commaTokens b) ->
                           shortToken t = true /\ tokenKV t = None).
  { intros t Ht. destruct (commaTokens_piece b t Ht) as (Hnc & x & y & E).
    split.
    - unfold shortToken. pose proof (piece_len b x t y E). lia.
    - apply tokenKV_white. apply Forall_forall. intros c Hc.
      rewrite Forall_forall in Hb.
      destruct (Hb c (piece_In b x t y c E Hc)) as [->|Hw];
        [contradiction | exact Hw]. }
  unfold argsResult, inputsOf.
  replace (forallb shortToken (commaTokens b)) with true
    by (symmetry; apply forallb_forall; intros t Ht; apply Htok, Ht).
  do 3 f_equal.
  induction (commaTokens b) as [|t ts IH]; [reflexivity|].
  cbn [flat_map]. rewrite (proj2 (Htok t (or_introl eq_refl))).
  apply IH. intros u Hu. apply Htok. right. exact Hu.
Qed.

Lemma Parse_blank_body_witness :
  Parse (lit "TRACE" ++ lit "(" ++ lit " , ,, " ++ lit ")")
  = Ret (inl {| Type_ := lookup (lit "TRACE"); Inputs := [] |}).
Proof.
  apply (Parse_blank_body (lit "TRACE") (lit " , ,, ")).
  - vm_compute. discriminate.
  - repeat constructor; (left; reflexivity) || (right; reflexivity).
  - vm_compute. reflexivity.
Defined.

(** X14. ASCII whitespace around the only token of an argument list is
    not significant: for a name that resolves, a token [t] without comma
    and whitespace [w1], [w2] that keep the padded token shorter than 65536
    bytes, [Parse] answers on N(w1 t w2) what it answers on N(t). *)
Theorem Parse_padding (N w1 t w2 : gostring) :
  lookup N <> 0 ->
  Forall asciiWhite w1 -> Forall asciiWhite w2 ->
  ~ In ","%char t ->
  len (w1 ++ t ++ w2) < bufio.MaxScanTokenSize ->
  Parse (N ++ lit "(" ++ (w1 ++ t ++ w2) ++ lit ")")
  = Parse (N ++ lit "(" ++ t ++ lit ")").
Proof.
  intros HN H1 H2 Hc Hl. rewrite !Parse_name_args by exact HN.
  assert (Hn1 : ~ In ","%char w1)
    by (apply white_not_byte; [reflexivity | exact H1]).
  assert (Hn2 : ~ In ","%char w2)
    by (apply white_not_byte; [reflexivity | exact H2]).
  rewrite !argsResult_single.
  - rewrite (tokenKV_pad w1 t w2 H1 H2). reflexivity.
  - exact Hc.
  - rewrite !len_app in Hl.
    pose proof (len_nonneg w1). pose proof (len_nonneg w2). lia.
  - intros H. apply in_app_or in H. destruct H as [H|H]; [tauto|].
    apply in_app_or in H. tauto.
  - exact Hl.
Qed.

Lemma Parse_padding_witness :
  Parse (lit "DIRECT" ++ lit "("
         ++ (lit "  " ++ lit "k = v" ++ lit " ") ++ lit ")")
  = Parse (lit "DIRECT" ++ lit "(" ++ lit "k = v" ++ lit ")").
Proof.
  apply (Parse_padding (lit "DIRECT") (lit "  ") (lit "k = v") (lit " ")).
  - vm_compute. discriminate.
  - repeat constructor.
  - repeat constructor.
  - intros H. cbn in H. repeat (destruct H as [H|H]; [discriminate H|]).
    exact H.
  - vm_compute. reflexivity.
Defined.

(** X15. ASCII whitespace around the equals sign is not significant: for
    a name that resolves, a key [k] without equals sign, a value [v],
    neither with a comma, and whitespace [w1], [w2] that keep the token
    shorter than 65536 bytes, [Parse] answers on N(k w1 = w2 v) what it
    answers on N(k=v). *)
Theorem Parse_padding_equals (N k v w1 w2 : gostring) :
  lookup N <> 0 ->
  Forall asciiWhite w1 -> Forall asciiWhite w2 ->
  ~ In "="%char k -> ~ In ","%char k -> ~ In ","%char v ->
  len ((k ++ w1) ++ lit "=" ++ (w2 ++ v)) < bufio.MaxScanTokenSize ->
  Parse (N ++ lit "(" ++ ((k ++ w1) ++ lit "=" ++ (w2 ++ v)) ++ lit ")")
  = Parse (N ++ lit "(" ++ (k ++ lit "=" ++ v) ++ lit ")").
Proof.
  intros HN H1 H2 Hke Hkc Hvc Hl. rewrite !Parse_name_args by exact HN.
  change (lit "=" ++ ?x) with ("="%char :: x) in *.
  assert (Hc1 : ~ In ","%char w1)
    by (apply white_not_byte; [reflexivity | exact H1]).
  assert (Hc2 : ~ In ","%char w2)
    by (apply white_not_byte; [reflexivity | exact H2]).
  assert (He1 : ~ In "="%char w1)
    by (apply white_not_byte; [reflexivity | exact H1]).
  rewrite !argsResult_single.
  - unfold tokenKV. rewrite !breakAt_first.
    + pose proof (TrimSpace_pad [] k w1 (Forall_nil _) H1) as Ek.
      pose proof (TrimSpace_pad w2 v [] H2 (Forall_nil _)) as Ev.
      cbn [app] in Ek. rewrite app_nil_r in Ev. rewrite Ek, Ev.
      reflexivity.
    + exact Hke.
    + intros H. apply in_app_or in H. tauto.
  - intros H. apply in_app_or in H. destruct H as [H|[H|H]];
      [tauto | discriminate H | tauto].
  - rewrite !len_app, !len_cons, ?len_app in *.
    pose proof (len_nonneg w1). pose proof (len_nonneg w2). lia.
  - intros H. apply in_app_or in H. destruct H as [H|[H|H]].
    + apply in_app_or in H. tauto.
    + discriminate H.
    + apply in_app_or in H. tauto.
  - exact Hl.
Qed.

Lemma Parse_padding_equals_witness :
  Parse (lit "SLAVE" ++ lit "("
         ++ ((lit "id" ++ lit " ") ++ lit "=" ++ (lit "  " ++ lit "7"))
         ++ lit ")")
  = Parse (lit "SLAVE" ++ lit "(" ++ (lit "id" ++ lit "=" ++ lit "7")
           ++ lit ")").
Proof.
  apply (Parse_padding_equals (lit "SLAVE") (lit "id") (lit "7")
           (lit " ") (lit "  ")).
  - vm_compute. discriminate.
  - repeat constructor.
  - repeat constructor.
  - intros H. cbn in H. repeat (destruct H as [H|H]; [discriminate H|]).
    exact H.
  - intros H. cbn in H. repeat (destruct H as [H|H]; [discriminate H|]).
    exact H.
  - intros H. cbn in H. repeat (destruct H as [H|H]; [discriminate H|]).
    exact H.
  - vm_compute. reflexivity.
Defined.

(** ** Counting and rendering *)

Lemma splitComma_length (b : gostring) :
  length (splitComma b) = S (count_occ ascii_dec b ","%char).
Proof.
  induction b as [|c b IH]; [reflexivity|].
  cbn [splitComma count_occ].
  destruct (Ascii.eqb_spec c ","%char) as [->|Hne].
  - destruct (ascii_dec ","%char ","%char) as [_|H]; [|contradiction].
    cbn [length]. rewrite IH. reflexivity.
  - destruct (ascii_dec c ","%char) as [H|_]; [contradiction|].
    rewrite <- IH. pose proof (splitComma_nonempty b) as Hne'.
    destruct (splitComma b); [contradiction | reflexivity].
Qed.

Lemma inputsOf_length (b : gostring) :
  (length (inputsOf b) <= S (count_occ ascii_dec b ","%char))%nat.
Proof.
  rewrite (proj2 (commaTokens_splitComma b)), <- splitComma_length.
  induction (splitComma b) as [|t ts IH]; [apply Nat.le_refl|].
  cbn [flat_map]. rewrite length_app. cbn [length].
  destruct (tokenKV t); cbn [olist length]; lia.
Qed.

Lemma carries_count (s t : gostring) (c : ascii) :
  carries s t -> (count_occ ascii_dec t c <= count_occ ascii_dec s c)%nat.
Proof.
  intros (x & y & ->). rewrite !count_occ_app. lia.
Qed.

(** The argument-list text [Hint_String] writes between the
    parentheses. *)
Lemma Hint_String_bind (tp : HintType) (inputs : list KeyValue) :
  Hint_String {| Type_ := tp; Inputs := inputs |}
  = (name <- Type_String tp ;;
     Ret (name ++ lit "("
          ++ match inputs with
             | [] => []
             | p0 :: rest => renderKV p0 ++ renderMore rest
             end ++ lit ")")).
Proof.
  unfold Hint_String. cbn [Type_ Inputs].
  destruct (Type_String tp) as [name| |]; cbn [bind]; try reflexivity.
  destruct inputs as [|p0 rest]; [reflexivity|].
  replace (len (p0 :: rest) <? 1) with false
    by (rewrite len_cons; pose proof (len_nonneg rest); lia).
  rewrite fold_writeKv, writeKv_render, <- !app_assoc. reflexivity.
Qed.

Lemma renderMore_app (l1 l2 : list KeyValue) :
  renderMore (l1 ++ l2) = renderMore l1 ++ renderMore l2.
Proof.
  unfold renderMore. rewrite map_app, concat_app. reflexivity.
Qed.

(** X16. [Parse] returns at most one input more than its input has
    commas. *)
Theorem Parse_inputs_count (s : gostring) (h : Hint) :
  Parse s = Ret (inl h) ->
  (length (Inputs h) <= S (count_occ ascii_dec s ","%char))%nat.
Proof.
  intros Hp. apply Parse_inl_args in Hp. destruct Hp as (_ & _ & Hp).
  destruct (index_opt s ["("%char]) as [o|];
    [|rewrite Hp; cbn [length]; lia].
  destruct Hp as (e & _ & _ & _ & ->).
  pose proof (inputsOf_length (sub s (Z.of_nat o + 1) (Z.of_nat e))) as H1.
  pose proof (carries_count s _ ","%char
                (sub_piece s (Z.of_nat o + 1) (Z.of_nat e))) as H2.
  lia.
Qed.

Lemma Parse_inputs_count_witness :
  (length [ {| K := []; V := lit "a" |}; {| K := []; V := lit "b" |} ]
   <= S (count_occ ascii_dec (lit "master(a,,b)") ","%char))%nat.
Proof.
  apply (Parse_inputs_count (lit "master(a,,b)")
           {| Type_ := TypeMaster;
              Inputs := [ {| K := []; V := lit "a" |};
                          {| K := []; V := lit "b" |} ] |}).
  vm_compute. reflexivity.
Defined.

(** X17. [Hint.String] does not tell a keyed input from an input without
    key whose value is the text key=value: at any position of the inputs
    and for any type, the two hints render alike (or panic alike). *)
Theorem Hint_String_conflates (tp : HintType) (pre post : list KeyValue)
    (k v : gostring) :
  k <> [] ->
  Hint_String {| Type_ := tp;
                 Inputs := pre ++ {| K := k; V := v |} :: post |}
  = Hint_String {| Type_ := tp;
                   Inputs := pre ++ {| K := []; V := k ++ lit "=" ++ v |}
                                 :: post |}.
Proof.
  intros Hk.
  assert (Hr : renderKV {| K := k; V := v |}
               = renderKV {| K := []; V := k ++ lit "=" ++ v |}).
  { unfold renderKV. cbn [K V]. destruct k; [contradiction | reflexivity]. }
  rewrite !Hint_String_bind. do 4 f_equal.
  destruct pre as [|p0 pre]; cbn [app].
  - rewrite Hr. reflexivity.
  - rewrite !renderMore_app. unfold renderMore at 2 4. cbn [map concat].
    rewrite Hr. reflexivity.
Qed.

Lemma Hint_String_conflates_witness :
  Hint_String {| Type_ := TypeRoute;
                 Inputs := [ {| K := []; V := lit "a" |} ]
                           ++ {| K := lit "k"; V := lit "v" |} :: [] |}
  = Hint_String {| Type_ := TypeRoute;
                   Inputs := [ {| K := []; V := lit "a" |} ]
                             ++ {| K := [];
                                   V := lit "k" ++ lit "=" ++ lit "v" |}
                                :: [] |}.
Proof.
  apply (Hint_String_conflates TypeRoute [ {| K := []; V := lit "a" |} ] []
           (lit "k") (lit "v")).
  discriminate.
Defined.
